(** * ValueSnap: persona image generation, site patching and the waitlist endpoint

    A shallow embedding of
      - [src/ai_image_generation/generate_ai_images.py]  (module [Generator]),
      - [src/ai_image_generation/update_persona_images.py] (modules [Html], [Patcher]),
      - [src/app.py] (module [Waitlist]),
    together with the properties the specification states about them.

    Python [str] values are sequences of Unicode code points and are modelled
    as [list N]; string constants of the source are written [lit "..."]. *)

From Stdlib Require Import String Ascii.
From Stdlib Require Import List NArith ZArith Lia Bool Arith DecimalString.
Import ListNotations.
Local Open Scope list_scope.
Set Warnings "-register-all".

(** ** Text *)

Definition text := list N.

Definition lit (s : string) : text := map N_of_ascii (list_ascii_of_string s).

Arguments lit s : simpl never.

Fixpoint text_eqb (a b : text) : bool :=
  match a, b with
  | [], [] => true
  | x :: a', y :: b' => N.eqb x y && text_eqb a' b'
  | _, _ => false
  end.

(** The double quote character. *)
Definition dquote : text := [34%N].

(** [s.startswith(p)] *)
Fixpoint starts_with (p s : text) : bool :=
  match p, s with
  | [], _ => true
  | x :: p', y :: s' => N.eqb x y && starts_with p' s'
  | _ :: _, [] => false
  end.

(** [s.endswith(p)] *)
Definition ends_with (p s : text) : bool :=
  (length p <=? length s) && text_eqb (skipn (length s - length p) s) p.

(** [p in s] on strings: [p] occurs as a contiguous substring of [s]. *)
Fixpoint contains (p s : text) : bool :=
  starts_with p s ||
  match s with
  | [] => false
  | _ :: s' => contains p s'
  end.

(** Python's notion of white space on [str] ([str.isspace], [str.strip], and
    [\s] in a [str] pattern). *)
Definition is_space (c : N) : bool :=
  (((9 <=? c) && (c <=? 13)) || ((28 <=? c) && (c <=? 32)) ||
   (c =? 133) || (c =? 160) || (c =? 5760) ||
   ((8192 <=? c) && (c <=? 8202)) || (c =? 8232) || (c =? 8233) ||
   (c =? 8239) || (c =? 8287) || (c =? 12288))%N.

Fixpoint lstrip (s : text) : text :=
  match s with
  | c :: s' => if is_space c then lstrip s' else s
  | [] => []
  end.

Definition rstrip (s : text) : text := rev (lstrip (rev s)).

(** [s.strip()] *)
Definition strip (s : text) : text := rstrip (lstrip s).

(** [s.replace(a, b)] for one-character [a] and [b]. *)
Definition replace_char (a b : N) (s : text) : text :=
  map (fun c => if N.eqb c a then b else c) s.

(** ** Dates and [strftime] *)

Record datetime := mk_datetime {
  year : N; month : N; day : N; hour : N; minute : N; second : N
}.

(** The ranges [datetime] enforces on its fields. *)
Definition datetime_ok (d : datetime) : bool :=
  ((1 <=? year d) && (year d <=? 9999) &&
   (1 <=? month d) && (month d <=? 12) &&
   (1 <=? day d) && (day d <=? 31) &&
   (hour d <? 24) && (minute d <? 60) && (second d <? 60))%N.

(** [w] decimal digits of [n], most significant first: the zero-padded fields
    [%Y] (w = 4) and [%m %d %H %M %S] (w = 2) of [strftime]. *)
Fixpoint dec (w : nat) (n : N) : text :=
  match w with
  | O => []
  | S w' => dec w' (n / 10)%N ++ [(48 + n mod 10)%N]
  end.

(** [d.strftime("%Y%m%d_%H%M%S")] *)
Definition strftime_compact (d : datetime) : text :=
  dec 4 (year d) ++ dec 2 (month d) ++ dec 2 (day d) ++ lit "_" ++
  dec 2 (hour d) ++ dec 2 (minute d) ++ dec 2 (second d).

(** [d.strftime('%Y-%m-%d %H:%M:%S')] *)
Definition strftime_line (d : datetime) : text :=
  dec 4 (year d) ++ lit "-" ++ dec 2 (month d) ++ lit "-" ++ dec 2 (day d) ++
  lit " " ++ dec 2 (hour d) ++ lit ":" ++ dec 2 (minute d) ++ lit ":" ++
  dec 2 (second d).

(** [d.isoformat()], at the resolution of one second. *)
Definition isoformat (d : datetime) : text :=
  dec 4 (year d) ++ lit "-" ++ dec 2 (month d) ++ lit "-" ++ dec 2 (day d) ++
  lit "T" ++ dec 2 (hour d) ++ lit ":" ++ dec 2 (minute d) ++ lit ":" ++
  dec 2 (second d).

(** Reading a run of decimal digits back. *)
Definition digit_val (c : N) : option N :=
  if ((48 <=? c) && (c <=? 57))%N then Some (c - 48)%N else None.

Fixpoint undec_from (acc : N) (s : text) : option N :=
  match s with
  | [] => Some acc
  | c :: s' =>
      match digit_val c with
      | Some v => undec_from (acc * 10 + v)%N s'
      | None => None
      end
  end.

Definition undec (s : text) : option N := undec_from 0%N s.

(** Modelled from the spec: the repository writes file names
    [{persona_key}_{YYYYMMDD_HHMMSS}.{ext}] but contains no function that reads
    one back; the spec requires that such a name "must be parseable back into
    (persona_key, timestamp)".  The reader below takes the extension (three
    characters after the last dot, [png] or [jpg]) and the fifteen characters
    of the time stamp from the right, so that the persona key may itself
    contain underscores. *)
Definition parse_filename (name : text) : option (text * datetime) :=
  let n := length name in
  if (n <? 20)%nat then None else
  let stem := firstn (n - 4) name in
  let ext := skipn (n - 4) name in
  if negb (text_eqb ext (lit ".png") || text_eqb ext (lit ".jpg")) then None else
  let key := firstn (n - 20) stem in
  let sep := firstn 1 (skipn (n - 20) stem) in
  let ts := skipn (n - 19) stem in
  if negb (text_eqb sep (lit "_")) then None else
  if negb (text_eqb (firstn 1 (skipn 8 ts)) (lit "_")) then None else
  match undec (firstn 4 ts), undec (firstn 2 (skipn 4 ts)),
        undec (firstn 2 (skipn 6 ts)), undec (firstn 2 (skipn 9 ts)),
        undec (firstn 2 (skipn 11 ts)), undec (firstn 2 (skipn 13 ts)) with
  | Some y, Some mo, Some d, Some h, Some mi, Some s =>
      Some (key, mk_datetime y mo d h mi s)
  | _, _, _, _, _, _ => None
  end.

(** ** Basic facts about text *)

Lemma text_eqb_refl (a : text) : text_eqb a a = true.
Proof.
  induction a as [|x a IH]; simpl; [reflexivity|].
  now rewrite N.eqb_refl, IH.
Qed.

Lemma text_eqb_eq (a b : text) : text_eqb a b = true <-> a = b.
Proof.
  split.
  - revert b; induction a as [|x a IH]; intros [|y b]; simpl; try discriminate; auto.
    intros H. apply andb_true_iff in H as [H1 H2].
    apply N.eqb_eq in H1. subst. f_equal. now apply IH.
  - intros ->. apply text_eqb_refl.
Qed.

Lemma text_eqb_sym (a b : text) : text_eqb a b = text_eqb b a.
Proof.
  revert b; induction a as [|x a IH]; intros [|y b]; cbn; try reflexivity.
  now rewrite N.eqb_sym, IH.
Qed.

Lemma starts_with_app (p s : text) : starts_with p (p ++ s) = true.
Proof.
  induction p as [|x p IH]; simpl; [reflexivity|].
  now rewrite N.eqb_refl, IH.
Qed.

Lemma contains_cons (p : text) (c : N) (s : text) :
  contains p s = true -> contains p (c :: s) = true.
Proof.
  intros H. simpl. rewrite H. apply orb_true_r.
Qed.

Lemma contains_app_l (p a s : text) :
  contains p s = true -> contains p (a ++ s) = true.
Proof.
  induction a as [|c a IH]; simpl; auto.
  intros H. rewrite (IH H). apply orb_true_r.
Qed.

Lemma starts_with_app_r (p s b : text) :
  starts_with p s = true -> starts_with p (s ++ b) = true.
Proof.
  revert s; induction p as [|x p IH]; intros [|y s]; simpl; auto; try discriminate.
  intros H. apply andb_true_iff in H as [H1 H2].
  now rewrite H1, (IH _ H2).
Qed.

Lemma contains_app_r (p s b : text) :
  contains p s = true -> contains p (s ++ b) = true.
Proof.
  induction s as [|c s IH].
  - simpl. rewrite orb_false_r. destruct p; [|discriminate].
    intros _. destruct b; reflexivity.
  - intros H. cbn [contains] in H. apply orb_true_iff in H as [H|H].
    + change ((c :: s) ++ b) with (c :: (s ++ b)). cbn [contains].
      change (c :: (s ++ b)) with ((c :: s) ++ b).
      now rewrite (starts_with_app_r p (c :: s) b H).
    + change ((c :: s) ++ b) with (c :: (s ++ b)). cbn [contains].
      rewrite (IH H). apply orb_true_r.
Qed.

Lemma contains_middle (p a b : text) : contains p (a ++ p ++ b) = true.
Proof.
  apply contains_app_l.
  destruct (p ++ b) eqn:E; simpl.
  - destruct p; [reflexivity|discriminate].
  - rewrite <- E, starts_with_app. reflexivity.
Qed.

(** ** Digits read back *)

Lemma dec_length (w : nat) (n : N) : length (dec w n) = w.
Proof.
  revert n; induction w as [|w IH]; intros n; simpl; [reflexivity|].
  rewrite length_app, IH. simpl. lia.
Qed.

Lemma undec_from_app (a b : text) (acc : N) :
  undec_from acc (a ++ b) =
  match undec_from acc a with
  | Some v => undec_from v b
  | None => None
  end.
Proof.
  revert acc; induction a as [|c a IH]; intros acc; simpl; [reflexivity|].
  destruct (digit_val c); [apply IH|reflexivity].
Qed.

Lemma digit_val_digit (d : N) : (d < 10)%N -> digit_val (48 + d)%N = Some d.
Proof.
  intros H. unfold digit_val.
  assert (H1 : (48 <=? 48 + d)%N = true) by (apply N.leb_le; lia).
  assert (H2 : (48 + d <=? 57)%N = true) by (apply N.leb_le; lia).
  rewrite H1, H2. cbn [andb]. f_equal. lia.
Qed.

Lemma undec_from_dec (w : nat) (n acc : N) :
  (n < 10 ^ N.of_nat w)%N ->
  undec_from acc (dec w n) = Some (acc * 10 ^ N.of_nat w + n)%N.
Proof.
  revert n acc; induction w as [|w IH]; intros n acc Hn.
  - simpl in *. f_equal. lia.
  - cbn [dec]. rewrite undec_from_app.
    assert (Hpow : (10 ^ N.of_nat (S w) = 10 * 10 ^ N.of_nat w)%N).
    { rewrite Nat2N.inj_succ, N.pow_succ_r'. reflexivity. }
    rewrite Hpow in *.
    assert (Hdiv : (n / 10 < 10 ^ N.of_nat w)%N).
    { apply N.Div0.div_lt_upper_bound. lia. }
    rewrite (IH _ acc Hdiv). cbn [undec_from].
    rewrite digit_val_digit by (apply N.mod_lt; lia).
    f_equal.
    pose proof (N.div_mod n 10 ltac:(lia)) as Hdm. lia.
Qed.

Lemma undec_dec (w : nat) (n : N) :
  (n < 10 ^ N.of_nat w)%N -> undec (dec w n) = Some n.
Proof.
  intros H. unfold undec. now rewrite (undec_from_dec w n 0%N H).
Qed.

(** ** File names read back *)

(** Lengths of string constants, computed. *)
Ltac lit_length :=
  repeat match goal with
  | |- context [length (lit ?s)] =>
      let n := eval vm_compute in (length (lit s)) in
      change (length (lit s)) with n
  end.

Lemma firstn_app_exact (A : Type) (a b : list A) (n : nat) :
  length a = n -> firstn n (a ++ b) = a.
Proof.
  intros <-. rewrite firstn_app, firstn_all, Nat.sub_diag. cbn. apply app_nil_r.
Qed.

Lemma skipn_app_exact (A : Type) (a b : list A) (n : nat) :
  length a = n -> skipn n (a ++ b) = b.
Proof.
  intros <-. rewrite skipn_app, skipn_all, Nat.sub_diag. reflexivity.
Qed.

Lemma length_1_inv (A : Type) (l : list A) :
  length l = 1 -> exists a, l = [a].
Proof.
  destruct l as [|a [|b l]]; try discriminate. eauto.
Qed.

Lemma length_2_inv (A : Type) (l : list A) :
  length l = 2 -> exists a b, l = [a; b].
Proof.
  destruct l as [|a [|b [|c l]]]; try discriminate. eauto.
Qed.

Lemma length_4_inv (A : Type) (l : list A) :
  length l = 4 -> exists a b c d, l = [a; b; c; d].
Proof.
  destruct l as [|a [|b [|c [|d [|e l]]]]]; try discriminate. eauto 6.
Qed.

Lemma strftime_compact_length (d : datetime) : length (strftime_compact d) = 15.
Proof.
  unfold strftime_compact. rewrite !length_app, !dec_length. reflexivity.
Qed.

(** The seven fields of a compact time stamp sit at fixed offsets. *)
Lemma compact_fields (Y Mo D U H Mi S : text) :
  length Y = 4 -> length Mo = 2 -> length D = 2 -> length U = 1 ->
  length H = 2 -> length Mi = 2 -> length S = 2 ->
  let ts := Y ++ Mo ++ D ++ U ++ H ++ Mi ++ S in
  firstn 4 ts = Y /\ firstn 2 (skipn 4 ts) = Mo /\ firstn 2 (skipn 6 ts) = D /\
  firstn 1 (skipn 8 ts) = U /\ firstn 2 (skipn 9 ts) = H /\
  firstn 2 (skipn 11 ts) = Mi /\ firstn 2 (skipn 13 ts) = S.
Proof.
  intros HY HMo HD HU HH HMi HS.
  destruct (length_4_inv _ Y HY) as (y1 & y2 & y3 & y4 & ->).
  destruct (length_2_inv _ Mo HMo) as (m1 & m2 & ->).
  destruct (length_2_inv _ D HD) as (d1 & d2 & ->).
  destruct (length_1_inv _ U HU) as (u1 & ->).
  destruct (length_2_inv _ H HH) as (h1 & h2 & ->).
  destruct (length_2_inv _ Mi HMi) as (i1 & i2 & ->).
  destruct (length_2_inv _ S HS) as (s1 & s2 & ->).
  cbn. repeat split; reflexivity.
Qed.

Lemma datetime_ok_bounds (d : datetime) :
  datetime_ok d = true ->
  (year d < 10 ^ N.of_nat 4 /\ month d < 10 ^ N.of_nat 2 /\ day d < 10 ^ N.of_nat 2 /\
   hour d < 10 ^ N.of_nat 2 /\ minute d < 10 ^ N.of_nat 2 /\
   second d < 10 ^ N.of_nat 2)%N.
Proof.
  unfold datetime_ok. rewrite !andb_true_iff, !N.leb_le, !N.ltb_lt.
  change (10 ^ N.of_nat 4)%N with 10000%N. change (10 ^ N.of_nat 2)%N with 100%N.
  lia.
Qed.

(** A name built as the generator builds it reads back to the key and the
    time it was built from, whatever characters the key contains. *)
Lemma parse_filename_format (key : text) (d : datetime) :
  datetime_ok d = true ->
  parse_filename (key ++ lit "_" ++ strftime_compact d ++ lit ".png") = Some (key, d).
Proof.
  intros Hok. unfold parse_filename.
  pose proof (strftime_compact_length d) as Hts.
  assert (Hlen : length (key ++ lit "_" ++ strftime_compact d ++ lit ".png") =
                 length key + 20).
  { rewrite !length_app, Hts. lit_length. lia. }
  rewrite Hlen.
  replace (length key + 20 <? 20) with false by (symmetry; apply Nat.ltb_ge; lia).
  replace (length key + 20 - 4) with (length key + 16) by lia.
  replace (length key + 20 - 20) with (length key) by lia.
  replace (length key + 20 - 19) with (length key + 1) by lia.
  assert (Hstem : firstn (length key + 16)
                    (key ++ lit "_" ++ strftime_compact d ++ lit ".png") =
                  key ++ lit "_" ++ strftime_compact d).
  { replace (key ++ lit "_" ++ strftime_compact d ++ lit ".png")
      with ((key ++ lit "_" ++ strftime_compact d) ++ lit ".png")
      by (now rewrite <- !app_assoc).
    apply firstn_app_exact. rewrite !length_app, Hts. lit_length. lia. }
  assert (Hext : skipn (length key + 16)
                   (key ++ lit "_" ++ strftime_compact d ++ lit ".png") = lit ".png").
  { replace (key ++ lit "_" ++ strftime_compact d ++ lit ".png")
      with ((key ++ lit "_" ++ strftime_compact d) ++ lit ".png")
      by (now rewrite <- !app_assoc).
    apply skipn_app_exact. rewrite !length_app, Hts. lit_length. lia. }
  rewrite Hstem, Hext, text_eqb_refl. cbn [orb negb].
  rewrite (firstn_app_exact _ key _ (length key) eq_refl).
  rewrite (skipn_app_exact _ key _ (length key) eq_refl).
  replace (firstn 1 (lit "_" ++ strftime_compact d)) with (lit "_")
    by (symmetry; apply firstn_app_exact; reflexivity).
  rewrite text_eqb_refl. cbn [negb].
  replace (skipn (length key + 1) (key ++ lit "_" ++ strftime_compact d))
    with (strftime_compact d).
  2:{ rewrite app_assoc. symmetry. apply skipn_app_exact.
      rewrite length_app. lit_length. lia. }
  destruct (compact_fields (dec 4 (year d)) (dec 2 (month d)) (dec 2 (day d))
              (lit "_") (dec 2 (hour d)) (dec 2 (minute d)) (dec 2 (second d)))
    as (F1 & F2 & F3 & F4 & F5 & F6 & F7); try apply dec_length; try reflexivity.
  fold (strftime_compact d) in F1, F2, F3, F4, F5, F6, F7.
  rewrite F1, F2, F3, F4, F5, F6, F7, text_eqb_refl. cbn [negb].
  destruct (datetime_ok_bounds d Hok) as (B1 & B2 & B3 & B4 & B5 & B6).
  rewrite !undec_dec by assumption.
  destruct d; reflexivity.
Qed.

(** ** Time stamps determine the time *)

Lemma app_inj_length (A : Type) (a b x y : list A) :
  length a = length b -> a ++ x = b ++ y -> a = b /\ x = y.
Proof.
  revert b; induction a as [|u a IH]; intros [|v b] Hlen H; cbn in *;
    try discriminate; [auto|].
  inversion H; subst. destruct (IH b) as [-> ->]; auto.
Qed.

Lemma dec_inj (w : nat) (n m : N) :
  (n < 10 ^ N.of_nat w)%N -> (m < 10 ^ N.of_nat w)%N -> dec w n = dec w m -> n = m.
Proof.
  intros Hn Hm H. pose proof (undec_dec w n Hn) as E.
  rewrite H, (undec_dec w m Hm) in E. now inversion E.
Qed.

(** Two dates within [datetime]'s ranges that print alike are the same. *)
Lemma strftime_compact_inj (d1 d2 : datetime) :
  datetime_ok d1 = true -> datetime_ok d2 = true ->
  strftime_compact d1 = strftime_compact d2 -> d1 = d2.
Proof.
  intros H1 H2 E.
  destruct (datetime_ok_bounds d1 H1) as (A1 & A2 & A3 & A4 & A5 & A6).
  destruct (datetime_ok_bounds d2 H2) as (B1 & B2 & B3 & B4 & B5 & B6).
  unfold strftime_compact in E.
  apply app_inj_length in E as [Ey E]; [|now rewrite !dec_length].
  apply app_inj_length in E as [Emo E]; [|now rewrite !dec_length].
  apply app_inj_length in E as [Ed E]; [|now rewrite !dec_length].
  apply app_inv_head in E.
  apply app_inj_length in E as [Eh E]; [|now rewrite !dec_length].
  apply app_inj_length in E as [Emi Es]; [|now rewrite !dec_length].
  apply dec_inj in Ey, Emo, Ed, Eh, Emi, Es; trivial.
  destruct d1, d2; cbn in *; congruence.
Qed.

(** ** Exceptions, the world, and a monad for fallible effects *)

(** An exception is caught by [except Exception] whatever its class; the
    classes the source raises itself are kept apart. *)
Inductive exn :=
| ValueError (msg : text)
| Exception (msg : text).

(** [str(e)] *)
Definition str_exn (e : exn) : text :=
  match e with
  | ValueError msg => msg
  | Exception msg => msg
  end.

(** What the program does to its surroundings, in the order it does it. *)
Inductive event :=
| ApiGenerate (prompt size : text)
| HttpGet (url : text)
| FileWrite (path : text)
| FileCopy (src dst : text)
| Sleep (seconds : N).

(** Files by path, the clock in seconds, and the events so far (latest last). *)
Record World := mk_World {
  files : list (text * text);
  clock : N;
  log : list event
}.

Fixpoint fs_lookup (path : text) (fs : list (text * text)) : option text :=
  match fs with
  | [] => None
  | (p, c) :: fs' => if text_eqb p path then Some c else fs_lookup path fs'
  end.

(** Opening [path] for writing and writing [content]: the file is created or
    replaced. *)
Fixpoint fs_store (path content : text) (fs : list (text * text)) : list (text * text) :=
  match fs with
  | [] => [(path, content)]
  | (p, c) :: fs' =>
      if text_eqb p path then (p, content) :: fs'
      else (p, c) :: fs_store path content fs'
  end.

Definition M (A : Type) : Type := World -> (exn + A) * World.

Definition ret {A : Type} (a : A) : M A := fun w => (inr a, w).

Definition raise {A : Type} (e : exn) : M A := fun w => (inl e, w).

Definition bind {A B : Type} (m : M A) (k : A -> M B) : M B :=
  fun w =>
    match m w with
    | (inr a, w') => k a w'
    | (inl e, w') => (inl e, w')
    end.

(** [try: m  except Exception as e: h e]; what [m] did before it raised stays
    done. *)
Definition try_except {A : Type} (m : M A) (h : exn -> M A) : M A :=
  fun w =>
    match m w with
    | (inr a, w') => (inr a, w')
    | (inl e, w') => h e w'
    end.

Declare Scope monad_scope.
Delimit Scope monad_scope with monad.
Notation "x <- m ;; k" := (bind m (fun x => k))
  (at level 61, m at next level, right associativity) : monad_scope.
Notation "m ;;; k" := (bind m (fun _ => k))
  (at level 61, right associativity) : monad_scope.

(** [pathlib]'s [dir / name], as the string [str] gives for it. *)
Definition path_join (dir name : text) : text := dir ++ lit "/" ++ name.

(** [str(n)] for a non-negative integer. *)
Definition str_N (n : N) : text :=
  lit (DecimalString.NilZero.string_of_uint (N.to_uint n)).

(** [sep.join(items)] *)
Fixpoint join (sep : text) (items : list text) : text :=
  match items with
  | [] => []
  | [x] => x
  | x :: rest => x ++ sep ++ join sep rest
  end.

(** [d[key]] / [key in d] on a dict kept in insertion order. *)
Fixpoint dict_get {V : Type} (key : text) (d : list (text * V)) : option V :=
  match d with
  | [] => None
  | (k, v) :: d' => if text_eqb k key then Some v else dict_get key d'
  end.


Lemma fs_lookup_store (path content : text) (fs : list (text * text)) :
  fs_lookup path (fs_store path content fs) = Some content.
Proof.
  induction fs as [|[p c] fs IH]; simpl.
  - now rewrite text_eqb_refl.
  - destruct (text_eqb p path) eqn:E; simpl; now rewrite E.
Qed.

Lemma fs_lookup_store_other (p q content : text) (fs : list (text * text)) :
  text_eqb p q = false ->
  fs_lookup q (fs_store p content fs) = fs_lookup q fs.
Proof.
  intros Hpq. induction fs as [|[p' c'] fs IH]; cbn [fs_store fs_lookup].
  - now rewrite Hpq.
  - destruct (text_eqb p' p) eqn:E; cbn [fs_lookup].
    + apply text_eqb_eq in E. subst p'. now rewrite Hpq.
    + destruct (text_eqb p' q); [reflexivity|exact IH].
Qed.

(** ** Attributes in the order a printer writes them *)

(** [a <= b] on strings, as Python compares them. *)
Fixpoint text_leb (a b : text) : bool :=
  match a, b with
  | [], _ => true
  | _ :: _, [] => false
  | x :: a', y :: b' => (x <? y)%N || ((x =? y)%N && text_leb a' b')
  end.

Lemma text_leb_refl (a : text) : text_leb a a = true.
Proof.
  induction a as [|x a IH]; [reflexivity|]. cbn [text_leb].
  now rewrite N.eqb_refl, IH, orb_true_r.
Qed.

Lemma text_leb_total (a : text) :
  forall b, text_leb a b = false -> text_leb b a = true.
Proof.
  induction a as [|x a IH]; intros [|y b]; cbn [text_leb]; try discriminate;
    [reflexivity|].
  intros H. apply orb_false_iff in H as [Hlt H].
  apply N.ltb_ge in Hlt.
  destruct (N.eqb_spec x y) as [->|Hne].
  - cbn [andb] in H. rewrite N.eqb_refl, (IH b H). apply orb_true_r.
  - replace (y <? x)%N with true; [reflexivity|].
    symmetry. apply N.ltb_lt. lia.
Qed.

(** Sorting by key, entries of one key in their order. *)
Fixpoint insert_attr {V : Type} (kv : text * V) (l : list (text * V)) : list (text * V) :=
  match l with
  | [] => [kv]
  | y :: l' =>
      if text_leb (fst kv) (fst y) then kv :: y :: l' else y :: insert_attr kv l'
  end.

Definition sort_attrs {V : Type} (l : list (text * V)) : list (text * V) :=
  fold_right insert_attr [] l.

Lemma dict_get_insert_attr (V : Type) (key : text) (kv : text * V) (l : list (text * V)) :
  dict_get key (insert_attr kv l) = dict_get key (kv :: l).
Proof.
  destruct kv as [k v].
  induction l as [|[k' v'] l IH]; [reflexivity|]. cbn [insert_attr fst].
  destruct (text_leb k k') eqn:E; [reflexivity|].
  cbn [dict_get] in *. rewrite IH.
  destruct (text_eqb k key) eqn:Ek; [|reflexivity].
  destruct (text_eqb k' key) eqn:Ek'; [|reflexivity].
  apply text_eqb_eq in Ek, Ek'. subst. rewrite text_leb_refl in E. discriminate.
Qed.

Lemma dict_get_sort_attrs (V : Type) (key : text) (l : list (text * V)) :
  dict_get key (sort_attrs l) = dict_get key l.
Proof.
  induction l as [|[k v] l IH]; [reflexivity|].
  cbn [sort_attrs fold_right]. rewrite dict_get_insert_attr.
  cbn [dict_get]. fold (sort_attrs l). now rewrite IH.
Qed.

Fixpoint attrs_sorted {V : Type} (l : list (text * V)) : bool :=
  match l with
  | x :: l' =>
      match l' with
      | y :: _ => text_leb (fst x) (fst y)
      | [] => true
      end && attrs_sorted l'
  | [] => true
  end.

Lemma insert_attr_sorted (V : Type) (kv : text * V) (l : list (text * V)) :
  attrs_sorted l = true -> attrs_sorted (insert_attr kv l) = true.
Proof.
  induction l as [|y l IH]; [reflexivity|]. intros H. cbn [insert_attr].
  destruct (text_leb (fst kv) (fst y)) eqn:E.
  - cbn [attrs_sorted] in *. now rewrite E, H.
  - apply text_leb_total in E.
    cbn [attrs_sorted] in H. apply andb_true_iff in H as [Hy Hl].
    specialize (IH Hl). cbn [attrs_sorted]. rewrite IH, andb_true_r.
    destruct l as [|z l]; cbn [insert_attr]; [exact E|].
    now destruct (text_leb (fst kv) (fst z)).
Qed.

Lemma sort_attrs_sorted (V : Type) (l : list (text * V)) :
  attrs_sorted (sort_attrs l) = true.
Proof.
  induction l as [|x l IH]; [reflexivity|]. now apply insert_attr_sorted.
Qed.

Lemma sort_attrs_fixed (V : Type) (l : list (text * V)) :
  attrs_sorted l = true -> sort_attrs l = l.
Proof.
  induction l as [|x l IH]; [reflexivity|]. intros H.
  cbn [attrs_sorted] in H. apply andb_true_iff in H as [Hx Hl].
  cbn [sort_attrs fold_right]. fold (sort_attrs l). rewrite (IH Hl).
  destruct l as [|y l]; [reflexivity|]. cbn [insert_attr]. now rewrite Hx.
Qed.

Lemma sort_attrs_idem (V : Type) (l : list (text * V)) :
  sort_attrs (sort_attrs l) = sort_attrs l.
Proof. apply sort_attrs_fixed, sort_attrs_sorted. Qed.

(** * The asset generator ([generate_ai_images.py]) *)

Module Generator.

Local Open Scope monad_scope.

Record persona := mk_persona {
  name : text;
  age_range : text;
  description : text;
  prompt : text
}.

(** [self]: the directory images go to and the persona registry. *)
Record ValueSnapImageGenerator := mk_generator {
  images_dir : text;
  consumer_personas : list (text * persona)
}.

(** The registry [__init__] installs. *)
Definition default_personas : list (text * persona) :=
  [ (lit "estate_inheritor",
     mk_persona (lit "Estate Inheritor") (lit "35-55")
       (lit "Professional woman who inherited family antiques and collectibles")
       (lit "Professional portrait of a 45-year-old woman in business attire, standing in a home office with vintage furniture and inherited antiques in the background, warm lighting, confident expression, realistic photography style"));
    (lit "reseller_entrepreneur",
     mk_persona (lit "Reseller Entrepreneur") (lit "25-40")
       (lit "Young professional who buys and sells items for profit")
       (lit "Portrait of a 32-year-old person in casual business attire, sitting at a desk with multiple items for resale (vintage items, electronics, collectibles) organized around them, modern apartment setting, entrepreneurial vibe, realistic photography style"));
    (lit "antique_collector",
     mk_persona (lit "Antique Collector") (lit "50-70")
       (lit "Mature collector evaluating valuable items")
       (lit "Distinguished 60-year-old person examining an antique item with a magnifying glass, surrounded by carefully curated vintage items and books, library or study setting, sophisticated atmosphere, realistic photography style"));
    (lit "small_business_owner",
     mk_persona (lit "Small Business Owner") (lit "30-50")
       (lit "Shop owner who needs quick item valuations")
       (lit "Portrait of a 40-year-old small business owner in their vintage/consignment shop, surrounded by diverse items for sale, friendly and approachable expression, natural lighting, realistic photography style")) ].

Definition init : ValueSnapImageGenerator :=
  mk_generator (lit "generated_images") default_personas.

(** The dict [generate_consumer_image] returns. *)
Record image_info := mk_image_info {
  persona_key : text;
  persona_name : text;
  image_url : text;
  file_path : text;
  filename : text;
  size : text;
  format : text;
  timestamp : text;
  prompt_used : text
}.

(** An entry of the list [generate_all_personas] returns: the dict of a
    success, or the dict with an ['error'] key the handler builds. *)
Inductive outcome :=
| Generated (result : image_info)
| Failed (persona_key error timestamp : text).

(** ['error' in r] *)
Definition has_error (r : outcome) : bool :=
  match r with
  | Generated _ => false
  | Failed _ _ _ => true
  end.


(** The report dict [save_generation_report] dumps. *)
Record report := mk_report {
  generation_timestamp : text;
  total_personas : nat;
  successful_generations : nat;
  failed_generations : nat;
  results : list outcome
}.

Section Provider.

(** The collaborators outside the repository.  A network call started at a
    given time takes some time and either yields its value or raises. *)
Variable images_generate : N -> text -> text -> N * (exn + text).
Variable requests_get : N -> text -> N * (exn + text).
(** [PIL.Image.open] on the bytes of a file: size and format, or an error. *)
Variable image_open : text -> exn + (N * N * text).
(** Whether opening a path for writing fails, and with what. *)
Variable write_error : text -> option exn.
(** The local calendar time of a clock reading. *)
Variable localtime : N -> datetime.
(** [json.dump] of a report. *)
Variable json_dump : report -> text.

Definition client_images_generate (prompt size : text) : M text :=
  fun w =>
    let (elapsed, r) := images_generate (clock w) prompt size in
    (r, mk_World (files w) (clock w + elapsed) (log w ++ [ApiGenerate prompt size])).

Definition http_get (url : text) : M text :=
  fun w =>
    let (elapsed, r) := requests_get (clock w) url in
    (r, mk_World (files w) (clock w + elapsed) (log w ++ [HttpGet url])).

Definition datetime_now : M datetime :=
  fun w => (inr (localtime (clock w)), w).

Definition write_file (path content : text) : M unit :=
  fun w =>
    match write_error path with
    | Some e => (inl e, w)
    | None =>
        (inr tt, mk_World (fs_store path content (files w)) (clock w)
                          (log w ++ [FileWrite path]))
    end.

Definition open_image (path : text) : M (N * N * text) :=
  fun w =>
    match fs_lookup path (files w) with
    | Some content => (image_open content, w)
    | None => (inl (Exception (lit "No such file or directory: " ++ path)), w)
    end.

(** [time.sleep(seconds)]: a negative argument raises before any time
    passes. *)
Definition time_sleep (seconds : Z) : M unit :=
  fun w =>
    if (seconds <? 0)%Z
    then (inl (ValueError (lit "sleep length must be non-negative")), w)
    else (inr tt, mk_World (files w) (clock w + Z.to_N seconds)
                           (log w ++ [Sleep (Z.to_N seconds)])).

(** [list(d.keys())] as an f-string prints it. *)
Definition repr_keys (d : list (text * persona)) : text :=
  lit "[" ++ join (lit ", ") (map (fun kv => lit "'" ++ fst kv ++ lit "'") d) ++ lit "]".

Definition generate_consumer_image (self : ValueSnapImageGenerator)
    (persona_key size : text) : M image_info :=
  match dict_get persona_key (consumer_personas self) with
  | None =>
      raise (ValueError (lit "Unknown persona: " ++ persona_key ++
                         lit ". Available: " ++ repr_keys (consumer_personas self)))
  | Some persona =>
      try_except
        (image_url <- client_images_generate (prompt persona) size ;;
         now <- datetime_now ;;
         let timestamp := strftime_compact now in
         let filename := persona_key ++ lit "_" ++ timestamp ++ lit ".png" in
         let file_path := path_join (images_dir self) filename in
         content <- http_get image_url ;;
         write_file file_path content ;;;
         img <- try_except (open_image file_path)
                  (fun e => raise (Exception (lit "Failed to verify saved image: " ++
                                              str_exn e))) ;;
         let '(width, height, format) := img in
         ret (mk_image_info persona_key (name persona) image_url file_path filename
                (str_N width ++ lit "x" ++ str_N height) format timestamp
                (prompt persona)))
        (fun e => raise (Exception (lit "Failed to generate image for " ++ name persona ++
                                    lit ": " ++ str_exn e)))
  end.

(** The body of [for i, persona_key in enumerate(...)], on the keys still to
    come; [total] is [len(self.consumer_personas)]. *)
Fixpoint generate_loop (self : ValueSnapImageGenerator) (size : text) (delay : Z)
    (total i : nat) (keys : list text) (results : list outcome) (w : World)
    : list outcome * World :=
  match keys with
  | [] => (results, w)
  | persona_key :: rest =>
      match generate_consumer_image self persona_key size w with
      | (inr result, w1) =>
          let results := results ++ [Generated result] in
          if i <? total - 1 then
            (* the sleep is inside the [try]: when it raises, the handler
               appends an error record for the persona just served *)
            match time_sleep delay w1 with
            | (inr _, w2) => generate_loop self size delay total (S i) rest results w2
            | (inl e, w2) =>
                let results :=
                  results ++ [Failed persona_key (str_exn e)
                                (strftime_compact (localtime (clock w2)))] in
                generate_loop self size delay total (S i) rest results w2
            end
          else generate_loop self size delay total (S i) rest results w1
      | (inl e, w1) =>
          let results :=
            results ++ [Failed persona_key (str_exn e)
                          (strftime_compact (localtime (clock w1)))] in
          generate_loop self size delay total (S i) rest results w1
      end
  end.

Definition generate_all_personas (self : ValueSnapImageGenerator) (size : text)
    (delay : Z) (w : World) : list outcome * World :=
  generate_loop self size delay (length (consumer_personas self)) 0
    (map fst (consumer_personas self)) [] w.

(** The dict literal of [save_generation_report]. *)
Definition build_report (self : ValueSnapImageGenerator) (results : list outcome)
    (now : datetime) : report :=
  mk_report (isoformat now)
    (length (consumer_personas self))
    (length (filter (fun r => negb (has_error r)) results))
    (length (filter has_error results))
    results.

Definition save_generation_report (self : ValueSnapImageGenerator)
    (results : list outcome) (filename : option text) : M text :=
  filename <- match filename with
              | None =>
                  now <- datetime_now ;;
                  ret (lit "generation_report_" ++ strftime_compact now ++ lit ".json")
              | Some f => ret f
              end ;;
  let report_path := path_join (images_dir self) filename in
  now <- datetime_now ;;
  let report := build_report self results now in
  write_file report_path (json_dump report) ;;;
  ret report_path.

(** *** What one attempt does *)

Definition is_api (e : event) : bool :=
  match e with ApiGenerate _ _ => true | _ => false end.

Definition is_sleep (e : event) : bool :=
  match e with Sleep _ => true | _ => false end.



(** One attempt, case by case: which call failed first decides the message;
    the world keeps whatever was done before that call. *)
Definition wrap_error (p : persona) (e : exn) : exn :=
  Exception (lit "Failed to generate image for " ++ name p ++ lit ": " ++ str_exn e).

Definition verify_error (e : exn) : exn :=
  Exception (lit "Failed to verify saved image: " ++ str_exn e).

Definition filename_at (key : text) (t : N) : text :=
  key ++ lit "_" ++ strftime_compact (localtime t) ++ lit ".png".

Lemma generate_consumer_image_eq (self : ValueSnapImageGenerator)
    (key size : text) (p : persona) (w : World) :
  dict_get key (consumer_personas self) = Some p ->
  generate_consumer_image self key size w =
  let (t1, r1) := images_generate (clock w) (prompt p) size in
  let w1 := mk_World (files w) (clock w + t1) (log w ++ [ApiGenerate (prompt p) size]) in
  match r1 with
  | inl e => (inl (wrap_error p e), w1)
  | inr url =>
      let fname := filename_at key (clock w1) in
      let path := path_join (images_dir self) fname in
      let (t2, r2) := requests_get (clock w1) url in
      let w2 := mk_World (files w1) (clock w1 + t2) (log w1 ++ [HttpGet url]) in
      match r2 with
      | inl e => (inl (wrap_error p e), w2)
      | inr content =>
          match write_error path with
          | Some e => (inl (wrap_error p e), w2)
          | None =>
              let w3 := mk_World (fs_store path content (files w2)) (clock w2)
                                 (log w2 ++ [FileWrite path]) in
              match image_open content with
              | inl e => (inl (wrap_error p (verify_error e)), w3)
              | inr (width, height, fmt) =>
                  (inr (mk_image_info key (name p) url path fname
                          (str_N width ++ lit "x" ++ str_N height) fmt
                          (strftime_compact (localtime (clock w1))) (prompt p)), w3)
              end
          end
      end
  end.
Proof.
  intros Hp. unfold generate_consumer_image. rewrite Hp.
  unfold try_except, bind, client_images_generate, datetime_now, http_get,
    write_file, open_image, raise, ret, wrap_error, verify_error, filename_at.
  destruct (images_generate (clock w) (prompt p) size) as [t1 [e|url]];
    cbn [files clock log]; [reflexivity|].
  destruct (requests_get (clock w + t1) url) as [t2 [e|content]];
    cbn [files clock log]; [reflexivity|].
  destruct (write_error _) as [e|]; [reflexivity|].
  cbn [files clock log]. rewrite fs_lookup_store.
  destruct (image_open content) as [e|[[width height] fmt]]; reflexivity.
Qed.













(** *** Write, then verify *)

(** C2, as the code has it.  When the provider answers, the download
    succeeds and the file is written, but the written file does not decode,
    [generate_consumer_image] raises (it returns no record) and the file it
    wrote stays in the asset directory, holding the downloaded bytes: the
    function has no step that removes it. *)
Theorem verification_failure_keeps_file (self : ValueSnapImageGenerator)
    (key size : text) (p : persona) (w : World)
    (t1 t2 : N) (url content : text) (e : exn) :
  dict_get key (consumer_personas self) = Some p ->
  images_generate (clock w) (prompt p) size = (t1, inr url) ->
  requests_get (clock w + t1) url = (t2, inr content) ->
  write_error (path_join (images_dir self) (filename_at key (clock w + t1))) = None ->
  image_open content = inl e ->
  fst (generate_consumer_image self key size w) = inl (wrap_error p (verify_error e))
  /\ fs_lookup (path_join (images_dir self) (filename_at key (clock w + t1)))
       (files (snd (generate_consumer_image self key size w))) = Some content.
Proof.
  intros Hp Hgen Hget Hwrite Hopen.
  rewrite (generate_consumer_image_eq self key size p w Hp), Hgen.
  cbn [clock files log]. rewrite Hget, Hwrite, Hopen. cbn [fst snd files].
  split; [reflexivity|apply fs_lookup_store].
Qed.

(** A record is returned only for a file that is in place and decodes. *)
Lemma generate_consumer_image_verified (self : ValueSnapImageGenerator)
    (key sz : text) (w w' : World) (r : image_info) :
  generate_consumer_image self key sz w = (inr r, w') ->
  exists content width height,
    fs_lookup (file_path r) (files w') = Some content
    /\ image_open content = inr (width, height, format r)
    /\ size r = str_N width ++ lit "x" ++ str_N height.
Proof.
  destruct (dict_get key (consumer_personas self)) as [p|] eqn:Hp.
  - rewrite (generate_consumer_image_eq self key sz p w Hp).
    destruct (images_generate _ _ _) as [t1 [e|url]]; [discriminate|].
    cbn zeta. destruct (requests_get _ _) as [t2 [e|content]]; [discriminate|].
    destruct (write_error _); [discriminate|].
    destruct (image_open content) as [e|[[width height] fmt]] eqn:Hopen; [discriminate|].
    intros H. inversion H; subst. cbn [file_path files format size].
    exists content, width, height. rewrite fs_lookup_store. auto.
  - unfold generate_consumer_image. rewrite Hp. discriminate.
Qed.

(** *** Sleeping between attempts *)




(** *** The report *)


(** The report that reaches the disk is the one built above. *)
Lemma save_generation_report_file (self : ValueSnapImageGenerator)
    (results : list outcome) (fname : text) (w : World) :
  write_error (path_join (images_dir self) fname) = None ->
  fst (save_generation_report self results (Some fname) w) =
    inr (path_join (images_dir self) fname)
  /\ fs_lookup (path_join (images_dir self) fname)
       (files (snd (save_generation_report self results (Some fname) w))) =
     Some (json_dump (build_report self results (localtime (clock w)))).
Proof.
  intros Hw. unfold save_generation_report, bind, ret, datetime_now, write_file.
  rewrite Hw. cbn [fst snd files]. split; [reflexivity|apply fs_lookup_store].
Qed.

(** *** File names *)

(** C8.  The file name of a generated image reads back, by the format
    [{persona_key}_{YYYYMMDD_HHMMSS}.png], to the persona key it was generated
    for, whatever characters the key contains, and to the calendar time of a
    clock reading taken during the call, hence no later than its return. *)
Theorem filename_round_trip (self : ValueSnapImageGenerator) (key size : text)
    (w w' : World) (r : image_info) :
  (forall t, datetime_ok (localtime t) = true) ->
  generate_consumer_image self key size w = (inr r, w') ->
  exists t,
    (clock w <= t)%N /\ (t <= clock w')%N
    /\ parse_filename (filename r) = Some (key, localtime t)
    /\ timestamp r = strftime_compact (localtime t)
    /\ persona_key r = key.
Proof.
  intros Hok.
  destruct (dict_get key (consumer_personas self)) as [p|] eqn:Hp.
  - rewrite (generate_consumer_image_eq self key size p w Hp).
    destruct (images_generate _ _ _) as [t1 [e|url]]; [discriminate|].
    cbn zeta. destruct (requests_get _ _) as [t2 [e|content]]; [discriminate|].
    destruct (write_error _); [discriminate|].
    destruct (image_open content) as [e|[[width height] fmt]]; [discriminate|].
    intros H. inversion H; subst. cbn [clock filename timestamp persona_key].
    exists (clock w + t1)%N. repeat split; try lia.
    unfold filename_at. apply parse_filename_format, Hok.
  - unfold generate_consumer_image. rewrite Hp. discriminate.
Qed.

(** *** Further properties of the generator *)

(** [main], given what the constructor [ValueSnapImageGenerator()] gave:
    every exception ends in exit status 1, everything else in 0. *)
Definition main (made : exn + ValueSnapImageGenerator) (w : World) : nat * World :=
  match made with
  | inl _ => (1, w)
  | inr generator =>
      let (results, w1) := generate_all_personas generator (lit "512x512") 2 w in
      match save_generation_report generator results None w1 with
      | (inr _, w2) => (0, w2)
      | (inl _, w2) => (1, w2)
      end
  end.

(** X5.  A key that is not in the registry is refused with a [ValueError]
    that names the key and lists the keys there are; no request is sent and
    nothing is written. *)
Theorem unknown_persona_is_refused (self : ValueSnapImageGenerator)
    (key size : text) (w : World) :
  dict_get key (consumer_personas self) = None ->
  generate_consumer_image self key size w =
  (inl (ValueError (lit "Unknown persona: " ++ key ++ lit ". Available: " ++
                    repr_keys (consumer_personas self))), w).
Proof.
  intros H. unfold generate_consumer_image, raise. now rewrite H.
Qed.



(** X8.  Two file names the generator builds are the same only for the same
    persona key and the same calendar second: images of different personas,
    or of different seconds, never share a file. *)
Theorem filenames_collide_only_within_a_second (key1 key2 : text) (t1 t2 : N) :
  datetime_ok (localtime t1) = true ->
  datetime_ok (localtime t2) = true ->
  filename_at key1 t1 = filename_at key2 t2 ->
  key1 = key2 /\ localtime t1 = localtime t2.
Proof.
  intros H1 H2 E. unfold filename_at in E.
  assert (Hlen : length key1 = length key2).
  { apply (f_equal (@length N)) in E.
    rewrite !length_app, !strftime_compact_length in E. lia. }
  apply app_inj_length in E as [-> E]; [|exact Hlen].
  split; [reflexivity|].
  apply app_inv_head in E.
  apply app_inj_length in E as [E _]; [|now rewrite !strftime_compact_length].
  now apply strftime_compact_inj.
Qed.

(** X9.  The exit status of [main] tells only whether the report was
    written: when the report file can be opened, [main] returns 0 and the
    file holds the report of the batch, however many generations failed;
    when it cannot, [main] returns 1 and leaves what the batch left. *)
Theorem main_exit_status (generator : ValueSnapImageGenerator) (w : World) :
  let batch := generate_all_personas generator (lit "512x512") 2 w in
  let now := localtime (clock (snd batch)) in
  let path := path_join (images_dir generator)
                (lit "generation_report_" ++ strftime_compact now ++ lit ".json") in
  match write_error path with
  | None =>
      fst (main (inr generator) w) = 0
      /\ fs_lookup path (files (snd (main (inr generator) w))) =
         Some (json_dump (build_report generator (fst batch) now))
  | Some _ =>
      fst (main (inr generator) w) = 1 /\ snd (main (inr generator) w) = snd batch
  end.
Proof.
  cbv zeta. unfold main.
  destruct (generate_all_personas generator (lit "512x512") 2 w) as [results w1].
  cbn [fst snd].
  unfold save_generation_report, bind, ret, datetime_now, write_file.
  destruct (write_error _) as [e|]; cbn [fst snd files].
  - auto.
  - split; [reflexivity|apply fs_lookup_store].
Qed.

End Provider.

(** *** Concrete runs *)

(** A provider that always answers, a download that always succeeds, a disk
    that accepts every write, and a clock shown as a time of day. *)
Definition demo_generate (t : N) (prompt size : text) : N * (exn + text) :=
  (3%N, inr (lit "https://images.example/generated.png")).

Definition demo_get (t : N) (url : text) : N * (exn + text) :=
  (1%N, inr [137; 80; 78; 71]%N).

Definition demo_write_ok (path : text) : option exn := None.

Definition demo_localtime (t : N) : datetime :=
  mk_datetime 2025 11 4 (t / 3600 mod 24) (t / 60 mod 60) (t mod 60).

(** A decoder that rejects what it is given, and one that accepts it. *)
Definition demo_reject (content : text) : exn + (N * N * text) :=
  inl (Exception (lit "cannot identify image file")).

Definition demo_accept (content : text) : exn + (N * N * text) :=
  inr (512%N, 512%N, lit "PNG").

(** A provider that refuses the first persona of the registry. *)
Definition demo_generate_flaky (t : N) (prompt size : text) : N * (exn + text) :=
  match dict_get (lit "estate_inheritor") default_personas with
  | Some p =>
      if text_eqb prompt (Generator.prompt p)
      then (1%N, inl (Exception (lit "Rate limit exceeded")))
      else demo_generate t prompt size
  | None => demo_generate t prompt size
  end.

Definition w0 : World := mk_World [] 0 [].

Definition prompt_of (key : text) : text :=
  match dict_get key default_personas with
  | Some p => prompt p
  | None => []
  end.

Lemma demo_localtime_ok (t : N) : datetime_ok (demo_localtime t) = true.
Proof.
  unfold datetime_ok, demo_localtime. cbn [year month day hour minute second].
  assert (H1 : (t / 3600 mod 24 <? 24)%N = true)
    by (apply N.ltb_lt, N.mod_lt; discriminate).
  assert (H2 : (t / 60 mod 60 <? 60)%N = true)
    by (apply N.ltb_lt, N.mod_lt; discriminate).
  assert (H3 : (t mod 60 <? 60)%N = true)
    by (apply N.ltb_lt, N.mod_lt; discriminate).
  rewrite H1, H2, H3. reflexivity.
Qed.





(** The theorem on verification failure, at the first persona of the registry. *)
Lemma verification_failure_keeps_file_witness :
  fst (generate_consumer_image demo_generate demo_get demo_reject demo_write_ok
         demo_localtime init (lit "estate_inheritor") (lit "512x512") w0) =
    inl (wrap_error
           (mk_persona (lit "Estate Inheritor") (lit "35-55")
              (lit "Professional woman who inherited family antiques and collectibles")
              (prompt_of (lit "estate_inheritor")))
           (verify_error (Exception (lit "cannot identify image file"))))
  /\ fs_lookup
       (path_join (images_dir init)
          (filename_at demo_localtime (lit "estate_inheritor") (clock w0 + 3)))
       (files (snd (generate_consumer_image demo_generate demo_get demo_reject
                      demo_write_ok demo_localtime init (lit "estate_inheritor")
                      (lit "512x512") w0))) = Some [137; 80; 78; 71]%N.
Proof.
  apply (verification_failure_keeps_file demo_generate demo_get demo_reject
           demo_write_ok demo_localtime init (lit "estate_inheritor") (lit "512x512")
           (mk_persona (lit "Estate Inheritor") (lit "35-55")
              (lit "Professional woman who inherited family antiques and collectibles")
              (prompt_of (lit "estate_inheritor")))
           w0 3%N 1%N (lit "https://images.example/generated.png")
           [137; 80; 78; 71]%N (Exception (lit "cannot identify image file")));
    reflexivity.
Defined.

(** C2, as the claim states it, fails.  The asset directory is empty; the
    downloaded bytes do not decode; the call raises, and afterwards the
    directory holds a file with those bytes. *)
Lemma file_left_after_failed_verification :
  fs_lookup (lit "generated_images/estate_inheritor_20251104_000003.png")
    (files w0) = None
  /\ fst (generate_consumer_image demo_generate demo_get demo_reject demo_write_ok
            demo_localtime init (lit "estate_inheritor") (lit "512x512") w0) =
     inl (Exception (lit "Failed to generate image for Estate Inheritor: Failed to verify saved image: cannot identify image file"))
  /\ fs_lookup (lit "generated_images/estate_inheritor_20251104_000003.png")
       (files (snd (generate_consumer_image demo_generate demo_get demo_reject
                      demo_write_ok demo_localtime init (lit "estate_inheritor")
                      (lit "512x512") w0))) = Some [137; 80; 78; 71]%N.
Proof. vm_compute. repeat split; reflexivity. Qed.

(** C3 at a failing first attempt.  The provider refuses the first persona
    and serves the other three.  Between the request for the first persona
    and the request for the second there is no sleep; the delay is slept only
    after the second and third attempts, which succeed. *)
Theorem no_sleep_after_failed_attempt :
  map has_error
    (fst (generate_all_personas demo_generate_flaky demo_get demo_accept demo_write_ok
            demo_localtime init (lit "512x512") 2 w0)) = [true; false; false; false]
  /\ filter (fun e => is_api e || is_sleep e)
       (log (snd (generate_all_personas demo_generate_flaky demo_get demo_accept
                    demo_write_ok demo_localtime init (lit "512x512") 2 w0))) =
     [ ApiGenerate (prompt_of (lit "estate_inheritor")) (lit "512x512");
       ApiGenerate (prompt_of (lit "reseller_entrepreneur")) (lit "512x512");
       Sleep 2;
       ApiGenerate (prompt_of (lit "antique_collector")) (lit "512x512");
       Sleep 2;
       ApiGenerate (prompt_of (lit "small_business_owner")) (lit "512x512") ].
Proof. vm_compute. split; reflexivity. Qed.


(** The round trip of file names, at a run in which everything succeeds. *)
Lemma filename_round_trip_witness :
  exists t,
    (clock w0 <= t)%N /\ (t <= 4)%N
    /\ parse_filename (lit "estate_inheritor_20251104_000003.png") =
         Some (lit "estate_inheritor", demo_localtime t)
    /\ lit "20251104_000003" = strftime_compact (demo_localtime t)
    /\ lit "estate_inheritor" = lit "estate_inheritor".
Proof.
  exact (filename_round_trip demo_generate demo_get demo_accept demo_write_ok
           demo_localtime init (lit "estate_inheritor") (lit "512x512") w0
           (mk_World [(lit "generated_images/estate_inheritor_20251104_000003.png",
                       [137; 80; 78; 71]%N)] 4
              [ApiGenerate (prompt_of (lit "estate_inheritor")) (lit "512x512");
               HttpGet (lit "https://images.example/generated.png");
               FileWrite (lit "generated_images/estate_inheritor_20251104_000003.png")])
           (mk_image_info (lit "estate_inheritor") (lit "Estate Inheritor")
              (lit "https://images.example/generated.png")
              (lit "generated_images/estate_inheritor_20251104_000003.png")
              (lit "estate_inheritor_20251104_000003.png")
              (lit "512x512") (lit "PNG") (lit "20251104_000003")
              (prompt_of (lit "estate_inheritor")))
           demo_localtime_ok eq_refl).
Defined.

(** A key the registry does not have. *)
Lemma unknown_persona_is_refused_witness :
  generate_consumer_image demo_generate demo_get demo_accept demo_write_ok
    demo_localtime init (lit "garden_gnome") (lit "512x512") w0 =
  (inl (ValueError (lit "Unknown persona: " ++ lit "garden_gnome" ++
                    lit ". Available: " ++ repr_keys (consumer_personas init))), w0).
Proof.
  exact (unknown_persona_is_refused demo_generate demo_get demo_accept demo_write_ok
           demo_localtime init (lit "garden_gnome") (lit "512x512") w0 eq_refl).
Defined.



(** Two clock readings a day apart, which the demo clock shows alike. *)
Lemma filenames_collide_only_within_a_second_witness :
  lit "estate_inheritor" = lit "estate_inheritor"
  /\ demo_localtime 3 = demo_localtime 86403.
Proof.
  exact (filenames_collide_only_within_a_second demo_localtime
           (lit "estate_inheritor") (lit "estate_inheritor") 3 86403
           (demo_localtime_ok 3) (demo_localtime_ok 86403) eq_refl).
Defined.

End Generator.

(** * The waitlist endpoint ([app.py]) *)

Module Waitlist.

(** What [request.get_json()] can return. *)
Inductive json :=
| JNull
| JBool (b : bool)
| JNumber (n : Z)
| JString (s : text)
| JArray (items : list json)
| JObject (fields : list (text * json)).

(** [jsonify({'success': ..., 'message': ...}), status] *)
Record response := mk_response {
  success : bool;
  message : text;
  status : nat
}.

Definition WAITLIST_FILE : text := lit "waitlist.txt".

(** Opening a file in mode ['a'] and writing [line]: the file is created when
    it is missing, and what it held stays in front of the new text. *)
Definition fs_append (path line : text) (fs : list (text * text)) : list (text * text) :=
  match fs_lookup path fs with
  | Some old => fs_store path (old ++ line) fs
  | None => fs_store path line fs
  end.

(** The number of line ends in a text. *)
Definition line_count (s : text) : nat := count_occ N.eq_dec s 10%N.

Definition error_500 : response := mk_response false (lit "An error occurred") 500.

Definition is_digit (c : N) : bool := ((48 <=? c) && (c <=? 57))%N.

(** The shape [YYYY-MM-DD HH:MM:SS]: digits, with the separators in place. *)
Definition stamp_shape (s : text) : bool :=
  match s with
  | [y1; y2; y3; y4; d1; m1; m2; d2; a1; a2; sp; h1; h2; c1; n1; n2; c2; s1; s2] =>
      forallb is_digit [y1; y2; y3; y4; m1; m2; a1; a2; h1; h2; n1; n2; s1; s2]
      && (d1 =? 45)%N && (d2 =? 45)%N && (sp =? 32)%N
      && (c1 =? 58)%N && (c2 =? 58)%N
  | _ => false
  end.

Section Endpoint.

Variable write_error : text -> option exn.
(** Whether the encoding [open] picks for the file, that of the locale, can
    encode a text; [f.write] raises [UnicodeEncodeError] when it cannot. *)
Variable encodable : text -> bool.
Variable localtime : N -> datetime.

(** [body] is [None] when [request.get_json()] itself raises.  Every
    exception inside the handler ends in the 500 response. *)
Definition join_waitlist (body : option json) (w : World) : response * World :=
  match body with
  | None => (error_500, w)
  | Some data =>
      match data with
      | JObject fields =>
          (* data.get('email', '') *)
          let value :=
            match dict_get (lit "email") fields with
            | Some v => v
            | None => JString []
            end in
          match value with
          | JString s =>
              let email := strip s in
              match email with
              | [] => (mk_response false (lit "Email is required") 400, w)
              | _ :: _ =>
                  if negb (contains (lit "@") email) || negb (contains (lit ".") email)
                  then (mk_response false (lit "Invalid email address") 400, w)
                  else
                    match write_error WAITLIST_FILE with
                    | Some _ => (error_500, w)
                    | None =>
                        let timestamp := strftime_line (localtime (clock w)) in
                        let line := timestamp ++ lit " | " ++ email ++ [10%N] in
                        if encodable line
                        then
                          (mk_response true
                             (lit "Thanks for joining! We'll notify you when ValueSnap launches.")
                             200,
                           mk_World (fs_append WAITLIST_FILE line (files w)) (clock w)
                                    (log w ++ [FileWrite WAITLIST_FILE]))
                        else
                          (* [f.write] raises: the file was opened, hence created
                             when it was missing, and nothing was written *)
                          (error_500,
                           mk_World (fs_append WAITLIST_FILE [] (files w)) (clock w)
                                    (log w))
                    end
              end
          | _ => (error_500, w)   (* no [strip] on a value that is not a string *)
          end
      | _ => (error_500, w)       (* no [get] on a value that is not an object *)
      end
  end.

Definition waitlist_content (w : World) : text :=
  match fs_lookup WAITLIST_FILE (files w) with
  | Some c => c
  | None => []
  end.

Lemma fs_lookup_append (path line : text) (fs : list (text * text)) :
  fs_lookup path (fs_append path line fs) =
  Some (match fs_lookup path fs with Some old => old ++ line | None => line end).
Proof.
  unfold fs_append. destruct (fs_lookup path fs); apply fs_lookup_store.
Qed.


Lemma count_occ_dec_newline (width : nat) (n : N) :
  count_occ N.eq_dec (dec width n) 10%N = 0.
Proof.
  revert n; induction width as [|width IH]; intros n; cbn [dec]; [reflexivity|].
  rewrite count_occ_app, IH. cbn [count_occ].
  destruct (N.eq_dec (48 + n mod 10) 10) as [H|H]; [|reflexivity].
  pose proof (N.le_0_l (n mod 10)). lia.
Qed.

Lemma line_count_strftime_line (d : datetime) : line_count (strftime_line d) = 0.
Proof.
  unfold line_count, strftime_line.
  rewrite !count_occ_app, !count_occ_dec_newline. reflexivity.
Qed.

(** The ways a request with a string under ["email"] is answered. *)
Lemma join_waitlist_invalid (fields : list (text * json)) (s : text) (w : World) :
  dict_get (lit "email") fields = Some (JString s) ->
  strip s <> [] ->
  negb (contains (lit "@") (strip s)) || negb (contains (lit ".") (strip s)) = true ->
  join_waitlist (Some (JObject fields)) w =
  (mk_response false (lit "Invalid email address") 400, w).
Proof.
  intros Hget Hne Hbad. unfold join_waitlist. rewrite Hget.
  destruct (strip s) as [|c rest]; [congruence|]. now rewrite Hbad.
Qed.

Lemma join_waitlist_accepted (fields : list (text * json)) (s : text) (w : World) :
  dict_get (lit "email") fields = Some (JString s) ->
  strip s <> [] ->
  contains (lit "@") (strip s) = true ->
  contains (lit ".") (strip s) = true ->
  write_error WAITLIST_FILE = None ->
  encodable (strftime_line (localtime (clock w)) ++ lit " | " ++ strip s ++ [10%N]) =
    true ->
  join_waitlist (Some (JObject fields)) w =
  (mk_response true
     (lit "Thanks for joining! We'll notify you when ValueSnap launches.") 200,
   mk_World
     (fs_append WAITLIST_FILE
        (strftime_line (localtime (clock w)) ++ lit " | " ++ strip s ++ [10%N])
        (files w))
     (clock w) (log w ++ [FileWrite WAITLIST_FILE])).
Proof.
  intros Hget Hne Hat Hdot Hw Henc. unfold join_waitlist. rewrite Hget.
  destruct (strip s) as [|c rest]; [congruence|]. now rewrite Hat, Hdot, Hw, Henc.
Qed.

Lemma waitlist_content_append (line : text) (w : World) (t : N) (l : list event) :
  waitlist_content (mk_World (fs_append WAITLIST_FILE line (files w)) t l) =
  waitlist_content w ++ line.
Proof.
  unfold waitlist_content. cbn [files]. rewrite fs_lookup_append.
  destruct (fs_lookup WAITLIST_FILE (files w)); reflexivity.
Qed.

(** The time stamp has the shape [YYYY-MM-DD HH:MM:SS]. *)
Lemma is_digit_dec (n : N) : is_digit (48 + n mod 10) = true.
Proof.
  pose proof (N.le_0_l (n mod 10)) as H0.
  assert (H10 : (n mod 10 < 10)%N) by (apply N.mod_upper_bound; discriminate).
  unfold is_digit. apply andb_true_iff. split; apply N.leb_le; lia.
Qed.

Lemma strftime_line_shape (d : datetime) : stamp_shape (strftime_line d) = true.
Proof.
  unfold strftime_line.
  change (lit "-") with [45%N]. change (lit " ") with [32%N].
  change (lit ":") with [58%N].
  cbn [dec app stamp_shape forallb]. rewrite !is_digit_dec. reflexivity.
Qed.

(** C9.  A body [{"email": "not-an-email"}] is answered with status 400 and
    the world, the waitlist file included, is left as it was.  A body
    [{"email": "a@b.com"}], when the waitlist file can be opened for
    appending and the line can be encoded, is answered with status 200 and
    [success = true], and the file then holds what it held before followed by
    the one line [YYYY-MM-DD HH:MM:SS | a@b.com]: the local time in decimal
    digits, zero-padded, then the address as sent. *)
Theorem waitlist_scenario (w : World) :
  write_error WAITLIST_FILE = None ->
  encodable (strftime_line (localtime (clock w)) ++ lit " | a@b.com" ++ [10%N]) = true ->
  join_waitlist (Some (JObject [(lit "email", JString (lit "not-an-email"))])) w =
    (mk_response false (lit "Invalid email address") 400, w)
  /\ fst (join_waitlist (Some (JObject [(lit "email", JString (lit "a@b.com"))])) w) =
       mk_response true
         (lit "Thanks for joining! We'll notify you when ValueSnap launches.") 200
  /\ (exists stamp,
        stamp =
          dec 4 (year (localtime (clock w))) ++ lit "-" ++
          dec 2 (month (localtime (clock w))) ++ lit "-" ++
          dec 2 (day (localtime (clock w))) ++ lit " " ++
          dec 2 (hour (localtime (clock w))) ++ lit ":" ++
          dec 2 (minute (localtime (clock w))) ++ lit ":" ++
          dec 2 (second (localtime (clock w)))
        /\ stamp_shape stamp = true
        /\ waitlist_content
             (snd (join_waitlist
                     (Some (JObject [(lit "email", JString (lit "a@b.com"))])) w)) =
           waitlist_content w ++ stamp ++ lit " | a@b.com" ++ [10%N])
  /\ line_count
       (waitlist_content
          (snd (join_waitlist (Some (JObject [(lit "email", JString (lit "a@b.com"))])) w))) =
     line_count (waitlist_content w) + 1.
Proof.
  intros Hw Henc.
  rewrite (join_waitlist_accepted [(lit "email", JString (lit "a@b.com"))]
             (lit "a@b.com") w eq_refl ltac:(discriminate) eq_refl eq_refl Hw Henc).
  cbn [fst snd]. rewrite waitlist_content_append.
  split; [|split; [|split]].
  - apply join_waitlist_invalid with (s := lit "not-an-email");
      [reflexivity|discriminate|reflexivity].
  - reflexivity.
  - exists (strftime_line (localtime (clock w))).
    split; [reflexivity|]. split; [apply strftime_line_shape|reflexivity].
  - unfold line_count. rewrite count_occ_app, count_occ_app.
    fold (line_count (strftime_line (localtime (clock w)))).
    rewrite line_count_strftime_line.
    change (count_occ N.eq_dec (lit " | " ++ strip (lit "a@b.com") ++ [10%N]) 10%N)
      with 1.
    lia.
Qed.

(** *** Further properties of the endpoint *)

Lemma lstrip_blank (s : text) : forallb is_space s = true -> lstrip s = [].
Proof.
  induction s as [|c s IH]; cbn [forallb lstrip]; [reflexivity|].
  intros H. apply andb_true_iff in H as [Hc Hs]. rewrite Hc. now apply IH.
Qed.

Lemma strip_blank (s : text) : forallb is_space s = true -> strip s = [].
Proof.
  intros H. unfold strip, rstrip. now rewrite (lstrip_blank s H).
Qed.





(** X2.  For a body whose ["email"] is a string, the answer is 200 exactly
    when the stripped string is not empty, contains an [@] and contains a
    dot, the waitlist file can be opened for appending, and the line can be
    encoded: nothing else about the address is checked. *)
Theorem waitlist_accepts_exactly (fields : list (text * json)) (s : text) (w : World) :
  dict_get (lit "email") fields = Some (JString s) ->
  status (fst (join_waitlist (Some (JObject fields)) w)) = 200 <->
  (strip s <> [] /\
   contains (lit "@") (strip s) = true /\ contains (lit ".") (strip s) = true /\
   write_error WAITLIST_FILE = None /\
   encodable (strftime_line (localtime (clock w)) ++ lit " | " ++ strip s ++ [10%N]) =
     true).
Proof.
  intros Hget. unfold join_waitlist. rewrite Hget.
  destruct (strip s) as [|c rest] eqn:Hs.
  { cbn. split; [discriminate|]. intros [H _]. congruence. }
  destruct (contains (lit "@") (c :: rest)) eqn:Hat;
    destruct (contains (lit ".") (c :: rest)) eqn:Hdot; cbn [negb orb];
    try solve [cbn; split; [discriminate|intros (_ & ? & ? & _); discriminate]].
  destruct (write_error WAITLIST_FILE) eqn:Hw.
  { cbn. split; [discriminate|]. intros (_ & _ & _ & ? & _). discriminate. }
  destruct (encodable _) eqn:Henc; cbn.
  - split; [|reflexivity]. intros _. repeat split. discriminate.
  - split; [discriminate|]. intros (_ & _ & _ & _ & ?). discriminate.
Qed.

(** X3.  An accepted address is stripped at its ends only: the waitlist file
    grows by one line end plus the line ends inside the stripped address, so
    it grows by exactly one line only for an address without a line break. *)
Theorem waitlist_lines_added (fields : list (text * json)) (s : text) (w : World) :
  dict_get (lit "email") fields = Some (JString s) ->
  status (fst (join_waitlist (Some (JObject fields)) w)) = 200 ->
  line_count (waitlist_content (snd (join_waitlist (Some (JObject fields)) w))) =
  line_count (waitlist_content w) + 1 + line_count (strip s).
Proof.
  intros Hget H200.
  pose proof H200 as Hacc. unfold join_waitlist in Hacc. rewrite Hget in Hacc.
  destruct (strip s) as [|c rest] eqn:Hs; [discriminate|].
  destruct (contains (lit "@") (c :: rest)) eqn:Hat; [|discriminate].
  destruct (contains (lit ".") (c :: rest)) eqn:Hdot; [|discriminate].
  cbn [negb orb] in Hacc.
  destruct (write_error WAITLIST_FILE) eqn:Hw; [discriminate|].
  destruct (encodable _) eqn:Henc; [|discriminate].
  rewrite (join_waitlist_accepted fields s w Hget); rewrite ?Hs; auto;
    [|discriminate].
  cbn [snd]. rewrite waitlist_content_append. unfold line_count.
  rewrite !count_occ_app.
  fold (line_count (strftime_line (localtime (clock w)))).
  rewrite line_count_strftime_line.
  change (count_occ N.eq_dec (lit " | ") 10%N) with 0.
  change (count_occ N.eq_dec [10%N] 10%N) with 1. lia.
Qed.

(** X4.  A body without an ["email"] entry, or with one that is empty or
    holds white space only, is answered with 400 and "Email is required", and
    the world is left as it was. *)
Theorem waitlist_requires_email (fields : list (text * json)) (s : text) (w : World) :
  dict_get (lit "email") fields = None \/
  (dict_get (lit "email") fields = Some (JString s) /\ forallb is_space s = true) ->
  join_waitlist (Some (JObject fields)) w =
  (mk_response false (lit "Email is required") 400, w).
Proof.
  intros [Hnone|[Hget Hblank]]; unfold join_waitlist.
  - now rewrite Hnone.
  - now rewrite Hget, (strip_blank s Hblank).
Qed.

End Endpoint.

(** The scenario on a waitlist that already holds one line, at a quarter
    past two in the afternoon. *)
Definition demo_world : World :=
  mk_World [(WAITLIST_FILE, lit "2025-11-03 09:15:00 | first@example.org" ++ [10%N])]
           51330 [].

Definition accept_writes (path : text) : option exn := None.

(** UTF-8 encodes every code point but the surrogates. *)
Definition utf8_encodable (s : text) : bool :=
  forallb (fun c => ((c <? 55296) || (57343 <? c)) && (c <=? 1114111))%N s.

(** The scenario, with the line that reaches the file. *)
Lemma waitlist_scenario_witness :
  join_waitlist accept_writes utf8_encodable Generator.demo_localtime
    (Some (JObject [(lit "email", JString (lit "not-an-email"))])) demo_world =
    (mk_response false (lit "Invalid email address") 400, demo_world)
  /\ fst (join_waitlist accept_writes utf8_encodable Generator.demo_localtime
            (Some (JObject [(lit "email", JString (lit "a@b.com"))])) demo_world) =
       mk_response true
         (lit "Thanks for joining! We'll notify you when ValueSnap launches.") 200
  /\ (exists stamp,
        stamp = lit "2025-11-04 14:15:30"
        /\ stamp_shape stamp = true
        /\ waitlist_content
             (snd (join_waitlist accept_writes utf8_encodable Generator.demo_localtime
                     (Some (JObject [(lit "email", JString (lit "a@b.com"))]))
                     demo_world)) =
           (lit "2025-11-03 09:15:00 | first@example.org" ++ [10%N]) ++
           stamp ++ lit " | a@b.com" ++ [10%N])
  /\ line_count
       (waitlist_content
          (snd (join_waitlist accept_writes utf8_encodable Generator.demo_localtime
                  (Some (JObject [(lit "email", JString (lit "a@b.com"))])) demo_world))) =
     2.
Proof.
  exact (waitlist_scenario accept_writes utf8_encodable Generator.demo_localtime
           demo_world eq_refl eq_refl).
Defined.

(** The file after the accepted request of the scenario, letter by letter. *)
Lemma waitlist_scenario_line :
  waitlist_content
    (snd (join_waitlist accept_writes utf8_encodable Generator.demo_localtime
            (Some (JObject [(lit "email", JString (lit "a@b.com"))])) demo_world)) =
  lit "2025-11-03 09:15:00 | first@example.org" ++ [10%N] ++
  lit "2025-11-04 14:15:30 | a@b.com" ++ [10%N].
Proof. vm_compute. reflexivity. Qed.

(** An address with spaces around it. *)
Lemma waitlist_accepts_exactly_witness :
  status (fst (join_waitlist accept_writes utf8_encodable Generator.demo_localtime
                 (Some (JObject [(lit "email", JString (lit "  a@b.com "))]))
                 demo_world)) = 200 <->
  (strip (lit "  a@b.com ") <> [] /\
   contains (lit "@") (strip (lit "  a@b.com ")) = true /\
   contains (lit ".") (strip (lit "  a@b.com ")) = true /\
   accept_writes WAITLIST_FILE = None /\
   utf8_encodable
     (strftime_line (Generator.demo_localtime (clock demo_world)) ++ lit " | " ++
      strip (lit "  a@b.com ") ++ [10%N]) = true).
Proof.
  exact (waitlist_accepts_exactly accept_writes utf8_encodable Generator.demo_localtime
           [(lit "email", JString (lit "  a@b.com "))] (lit "  a@b.com ")
           demo_world eq_refl).
Defined.

(** An address that ends in a lone surrogate, which UTF-8 cannot encode: the
    request is answered with 500 and the waitlist holds what it held. *)
Lemma unencodable_address_is_refused :
  fst (join_waitlist accept_writes utf8_encodable Generator.demo_localtime
         (Some (JObject [(lit "email", JString (lit "a@b.com" ++ [55296%N]))]))
         demo_world) = error_500
  /\ waitlist_content
       (snd (join_waitlist accept_writes utf8_encodable Generator.demo_localtime
               (Some (JObject [(lit "email", JString (lit "a@b.com" ++ [55296%N]))]))
               demo_world)) = waitlist_content demo_world.
Proof. vm_compute. split; reflexivity. Qed.

(** An address that carries a second line. *)
Definition two_line_address : text :=
  lit "a@b.com" ++ [10%N] ++ lit "2025-11-03 09:15:00 | forged@example.org ".

Lemma waitlist_lines_added_witness :
  line_count
    (waitlist_content
       (snd (join_waitlist accept_writes utf8_encodable Generator.demo_localtime
               (Some (JObject [(lit "email", JString two_line_address)])) demo_world))) =
  line_count (waitlist_content demo_world) + 1 + line_count (strip two_line_address).
Proof.
  exact (waitlist_lines_added accept_writes utf8_encodable Generator.demo_localtime
           [(lit "email", JString two_line_address)] two_line_address demo_world
           eq_refl eq_refl).
Defined.

(** An address of spaces and a tab. *)
Lemma waitlist_requires_email_witness :
  join_waitlist accept_writes utf8_encodable Generator.demo_localtime
    (Some (JObject [(lit "email", JString [32; 9; 32]%N)])) demo_world =
  (mk_response false (lit "Email is required") 400, demo_world).
Proof.
  exact (waitlist_requires_email accept_writes utf8_encodable Generator.demo_localtime
           [(lit "email", JString [32; 9; 32]%N)] [32; 9; 32]%N demo_world
           (or_intror (conj eq_refl eq_refl))).
Defined.

End Waitlist.

(** * Parsed documents ([bs4]) *)

Module Html.

(** A parsed document is a tree of elements and character data.  An element
    carries its tag name and its attributes in source order; the value of
    [class] is kept as written, its tokens separated by white space. *)
Inductive node :=
| Text (s : text)
| Comment (s : text)
| Elem (name : text) (attrs : list (text * text)) (children : list node).

Definition children (n : node) : list node :=
  match n with
  | Elem _ _ kids => kids
  | _ => []
  end.

(** [tag.get(key, '')] *)
Definition get_attr (key : text) (n : node) : text :=
  match n with
  | Elem _ attrs _ =>
      match dict_get key attrs with
      | Some v => v
      | None => []
      end
  | _ => []
  end.

(** The white-space separated tokens of an attribute value. *)
Fixpoint words_from (cur : text) (s : text) : list text :=
  match s with
  | [] => match cur with [] => [] | _ => [rev cur] end
  | c :: s' =>
      if is_space c
      then match cur with [] => words_from [] s' | _ => rev cur :: words_from [] s' end
      else words_from (c :: cur) s'
  end.

Definition words (s : text) : list text := words_from [] s.

(** What [find] and [find_all] are asked for: a tag name, and optionally a
    class ([class_=...]). *)
Record selector := mk_selector {
  sel_tag : text;
  sel_class : option text
}.

Definition matches (sel : selector) (n : node) : bool :=
  match n with
  | Elem name _ _ =>
      text_eqb name (sel_tag sel) &&
      match sel_class sel with
      | None => true
      | Some c => existsb (text_eqb c) (words (get_attr (lit "class") n))
      end
  | _ => false
  end.

(** A position below a node: the indices of the children to descend into. *)
Definition path := list nat.

Definition find_all_kids (find_all : node -> list path) : nat -> list node -> list path :=
  fix go (i : nat) (l : list node) : list path :=
    match l with
    | [] => []
    | k :: l' => map (cons i) (find_all k) ++ go (S i) l'
    end.

(** [n.find_all(tag, class_=...)]: the matching descendants of [n], in
    document order, as positions below [n]. *)
Fixpoint find_all_from (sel : selector) (n : node) : list path :=
  (if matches sel n then [[]] else []) ++
  match n with
  | Elem _ _ kids => find_all_kids (find_all_from sel) 0 kids
  | _ => []
  end.

Definition find_all (sel : selector) (n : node) : list path :=
  find_all_kids (find_all_from sel) 0 (children n).

(** [n.find(tag, class_=...)]: the first match, if any. *)
Definition find (sel : selector) (n : node) : option path :=
  hd_error (find_all sel n).

Fixpoint subtree (n : node) (p : path) : option node :=
  match p with
  | [] => Some n
  | i :: p' =>
      match nth_error (children n) i with
      | Some k => subtree k p'
      | None => None
      end
  end.

Fixpoint update_nth {A : Type} (i : nat) (f : A -> A) (l : list A) {struct l} : list A :=
  match l, i with
  | [], _ => []
  | x :: l', O => f x :: l'
  | x :: l', S i' => x :: update_nth i' f l'
  end.

(** Giving the element at [p] the children [new]. *)
Fixpoint set_children (n : node) (p : path) (new : list node) : node :=
  match n with
  | Elem name attrs kids =>
      match p with
      | [] => Elem name attrs new
      | i :: p' => Elem name attrs (update_nth i (fun k => set_children k p' new) kids)
      end
  | _ => n
  end.

(** The strings [get_text] joins: character data in document order;
    comments are left out. *)
Fixpoint strings (n : node) : list text :=
  match n with
  | Text s => [s]
  | Comment _ => []
  | Elem _ _ kids => flat_map strings kids
  end.

(** [n.get_text(strip=True)]: every string stripped, the empty ones dropped,
    the rest joined with nothing between them. *)
Definition get_text_strip (n : node) : text :=
  concat (filter (fun s => negb (text_eqb s [])) (map strip (strings n))).

(** [soup.new_tag('img', src=..., alt=..., attrs={'class': 'persona-image'})] *)
Definition new_img (src alt : text) : node :=
  Elem (lit "img") [(lit "src", src); (lit "alt", alt); (lit "class", lit "persona-image")] [].

Definition div (cls : text) (kids : list node) : node :=
  Elem (lit "div") [(lit "class", cls)] kids.

Definition h3 (kids : list node) : node := Elem (lit "h3") [] kids.

(** The [BeautifulSoup] object: the root above the top-level nodes. *)
Definition document (kids : list node) : node := Elem (lit "[document]") [] kids.

(** *** Positions *)

(** What is left of [p] below [q], when [q] is at or above [p]. *)
Fixpoint strip_prefix (q p : path) : option path :=
  match q, p with
  | [], _ => Some p
  | a :: q', b :: p' => if a =? b then strip_prefix q' p' else None
  | _ :: _, [] => None
  end.

(** [p] lies strictly below [q]. *)
Definition below (q p : path) : bool :=
  match strip_prefix q p with
  | Some (_ :: _) => true
  | _ => false
  end.

(** Two positions part ways: neither is at or above the other. *)
Fixpoint diverge (a b : path) : bool :=
  match a, b with
  | i :: a', j :: b' => if i =? j then diverge a' b' else true
  | _, _ => false
  end.

(** Every position of the list parts ways with every later one. *)
Fixpoint all_diverge (l : list path) : bool :=
  match l with
  | [] => true
  | a :: l' => forallb (diverge a) l' && all_diverge l'
  end.

Lemma diverge_sym (a b : path) : diverge a b = diverge b a.
Proof.
  revert b; induction a as [|i a IH]; intros [|j b]; cbn; try reflexivity.
  rewrite (Nat.eqb_sym j i). destruct (i =? j); [apply IH|reflexivity].
Qed.

Lemma diverge_app_l (a b q : path) : diverge a b = true -> diverge (a ++ q) b = true.
Proof.
  revert b; induction a as [|i a IH]; intros [|j b]; cbn; try discriminate.
  destruct (i =? j); [apply IH|reflexivity].
Qed.

Lemma diverge_strip_prefix (a b : path) : diverge a b = true -> strip_prefix a b = None.
Proof.
  revert b; induction a as [|i a IH]; intros [|j b]; cbn; try discriminate.
  destruct (i =? j); [apply IH|reflexivity].
Qed.

Lemma diverge_not_below (a b : path) : diverge a b = true -> below a b = false.
Proof.
  intros H. unfold below. now rewrite (diverge_strip_prefix a b H).
Qed.

Lemma strip_prefix_app (a c : path) : strip_prefix a (a ++ c) = Some c.
Proof.
  induction a as [|i a IH]; cbn; [reflexivity|]. now rewrite Nat.eqb_refl.
Qed.

Lemma diverge_prefix (a c : path) : diverge a (a ++ c) = false.
Proof.
  induction a as [|i a IH]; cbn; [reflexivity|]. now rewrite Nat.eqb_refl.
Qed.

Lemma below_self (a : path) : below a a = false.
Proof.
  unfold below. rewrite <- (app_nil_r a) at 2. now rewrite strip_prefix_app.
Qed.

Lemma all_diverge_In (l : list path) (a b : path) :
  all_diverge l = true -> In a l -> In b l -> a <> b -> diverge a b = true.
Proof.
  induction l as [|x l IH]; cbn [all_diverge In]; [tauto|].
  intros H Ha Hb Hab. apply andb_true_iff in H as [Hx Hl].
  rewrite forallb_forall in Hx.
  destruct Ha as [->|Ha], Hb as [->|Hb].
  - congruence.
  - now apply Hx.
  - rewrite diverge_sym. now apply Hx.
  - now apply IH.
Qed.

(** *** Children by index *)

Lemma nth_error_update_nth_eq (A : Type) (f : A -> A) (l : list A) (i : nat) :
  nth_error (update_nth i f l) i = option_map f (nth_error l i).
Proof.
  revert i; induction l as [|x l IH]; intros [|i]; cbn; auto.
Qed.

Lemma nth_error_update_nth_neq (A : Type) (f : A -> A) (l : list A) (i j : nat) :
  i <> j -> nth_error (update_nth i f l) j = nth_error l j.
Proof.
  revert i j; induction l as [|x l IH]; intros [|i] [|j] H; cbn; auto; try congruence.
Qed.

Lemma update_nth_same (A : Type) (f : A -> A) (l : list A) (i : nat) (x : A) :
  nth_error l i = Some x -> f x = x -> update_nth i f l = l.
Proof.
  revert i; induction l as [|y l IH]; intros [|i] Hn Hf; cbn in *; try discriminate.
  - inversion Hn; subst. now rewrite Hf.
  - f_equal. now apply IH.
Qed.

(** *** Subtrees and replaced children *)

Lemma subtree_app (n : node) (a b : path) :
  subtree n (a ++ b) =
  match subtree n a with
  | Some m => subtree m b
  | None => None
  end.
Proof.
  revert n; induction a as [|i a IH]; intros n; cbn [app subtree]; [reflexivity|].
  destruct (nth_error (children n) i); [apply IH|reflexivity].
Qed.

Lemma children_set_children (n : node) (i : nat) (a : path) (new : list node) :
  children (set_children n (i :: a) new) =
  update_nth i (fun k => set_children k a new) (children n).
Proof. destruct n; reflexivity. Qed.

(** Below the place that was changed, the same change is seen from nearer. *)
Lemma subtree_set_children_under (new : list node) (p q : path) :
  forall (n c : node),
  subtree n p = Some c ->
  subtree (set_children n (p ++ q) new) p = Some (set_children c q new).
Proof.
  induction p as [|i p IH]; intros n c H; cbn [app subtree] in *.
  - now inversion H.
  - rewrite children_set_children, nth_error_update_nth_eq.
    destruct (nth_error (children n) i) as [k|]; [|discriminate].
    cbn [option_map]. now apply IH.
Qed.

(** A change leaves every position that parts ways with it as it was. *)
Lemma subtree_set_children_diverge (new : list node) (a c : path) :
  diverge a c = true ->
  forall n, subtree (set_children n a new) c = subtree n c.
Proof.
  revert c; induction a as [|i a IH]; intros [|j c] H n; cbn in H; try discriminate.
  cbn [subtree]. rewrite children_set_children.
  destruct (Nat.eqb_spec i j) as [->|Hij].
  - rewrite nth_error_update_nth_eq.
    destruct (nth_error (children n) j); cbn [option_map]; [now apply IH|reflexivity].
  - now rewrite nth_error_update_nth_neq.
Qed.

(** Giving an element the children it already has changes nothing. *)
Lemma set_children_same (new : list node) (a : path) :
  forall (n : node) (name : text) (attrs : list (text * text)),
  subtree n a = Some (Elem name attrs new) ->
  set_children n a new = n.
Proof.
  induction a as [|i a IH]; intros n name attrs H; cbn [subtree] in H.
  - inversion H. reflexivity.
  - destruct n as [s|s|nm at' kids]; cbn [children] in H;
      try (destruct i; discriminate).
    cbn [set_children]. f_equal.
    destruct (nth_error kids i) as [k|] eqn:Hk; [|discriminate].
    apply (update_nth_same _ _ kids i k Hk). now apply (IH k name attrs).
Qed.

Lemma matches_set_children (sel : selector) (n : node) (a : path) (new : list node) :
  matches sel (set_children n a new) = matches sel n.
Proof. destruct n, a; reflexivity. Qed.

(** *** What [find_all] returns *)

Lemma find_all_from_unfold (sel : selector) (n : node) :
  find_all_from sel n = (if matches sel n then [[]] else []) ++ find_all sel n.
Proof. destruct n; reflexivity. Qed.

Lemma find_all_kids_In (F : node -> list path) (kids : list node) :
  forall (j : nat) (x : path),
  In x (find_all_kids F j kids) <->
  exists i k c, nth_error kids i = Some k /\ In c (F k) /\ x = (j + i) :: c.
Proof.
  induction kids as [|k0 kids IH]; intros j x; cbn [find_all_kids].
  - split; [intros []|]. intros (i & k & c & H & _). destruct i; discriminate.
  - rewrite in_app_iff, in_map_iff, IH. split.
    + intros [(c & <- & Hc)|(i & k & c & Hn & Hc & ->)].
      * exists 0, k0, c. rewrite Nat.add_0_r. auto.
      * exists (S i), k, c. rewrite Nat.add_succ_r. auto.
    + intros (i & k & c & Hn & Hc & ->). destruct i as [|i]; cbn in Hn.
      * inversion Hn; subst. left. exists c. now rewrite Nat.add_0_r.
      * right. exists i, k, c. rewrite Nat.add_succ_r. auto.
Qed.

(** A position [find_all] returns leads to a node that matches. *)
Lemma find_all_from_sound (sel : selector) (c : path) :
  forall n, In c (find_all_from sel n) ->
  exists m, subtree n c = Some m /\ matches sel m = true.
Proof.
  induction c as [|i c IH]; intros n H; rewrite find_all_from_unfold in H;
    apply in_app_iff in H as [H|H].
  - exists n. destruct (matches sel n); [auto|destruct H].
  - apply find_all_kids_In in H as (i & k & c & _ & _ & E). discriminate.
  - destruct (matches sel n); [destruct H as [H|[]]; discriminate|destruct H].
  - apply find_all_kids_In in H as (i' & k & c' & Hn & Hc & E).
    cbn in E. inversion E; subst. cbn [subtree]. rewrite Hn. now apply IH.
Qed.

Lemma find_all_sound (sel : selector) (n : node) (c : path) :
  In c (find_all sel n) ->
  exists m, subtree n c = Some m /\ matches sel m = true.
Proof.
  intros H. apply (find_all_from_sound sel c n).
  rewrite find_all_from_unfold. apply in_app_iff. now right.
Qed.

Lemma find_all_nonempty (sel : selector) (n : node) (c : path) :
  In c (find_all sel n) -> c <> [].
Proof.
  intros H. apply find_all_kids_In in H as (i & k & c' & _ & _ & ->). discriminate.
Qed.

(** A match inside a subtree is a match of the whole tree. *)
Lemma find_all_from_subtree (sel : selector) (a : path) :
  forall (n m : node) (c : path),
  subtree n a = Some m -> In c (find_all_from sel m) ->
  In (a ++ c) (find_all_from sel n).
Proof.
  induction a as [|i a IH]; intros n m c Hs Hc; cbn [subtree app] in *.
  - now inversion Hs; subst.
  - destruct (nth_error (children n) i) as [k|] eqn:Hk; [|discriminate].
    rewrite find_all_from_unfold. apply in_app_iff. right.
    apply find_all_kids_In. exists i, k, (a ++ c). repeat split; eauto.
Qed.

Lemma find_all_subtree (sel : selector) (n m : node) (a c : path) :
  subtree n a = Some m -> In c (find_all sel m) -> In (a ++ c) (find_all sel n).
Proof.
  intros Hs Hc.
  assert (H : In (a ++ c) (find_all_from sel n)).
  { apply (find_all_from_subtree sel a n m c Hs).
    rewrite find_all_from_unfold. apply in_app_iff. now right. }
  rewrite find_all_from_unfold in H. apply in_app_iff in H as [H|H]; [|exact H].
  apply find_all_nonempty in Hc.
  destruct (matches sel n); [destruct H as [H|[]]|destruct H].
  symmetry in H. apply app_eq_nil in H as [_ H]. contradiction.
Qed.

(** *** [find_all] after children were replaced *)

Lemma filter_map_cons (g g' : path -> bool) (j : nat) (l : list path) :
  (forall c, g (j :: c) = g' c) ->
  filter g (map (cons j) l) = map (cons j) (filter g' l).
Proof.
  intros H. induction l as [|c l IH]; cbn; [reflexivity|].
  rewrite H, IH. now destruct (g' c).
Qed.

Lemma filter_all (A : Type) (g : A -> bool) (l : list A) :
  (forall x, In x l -> g x = true) -> filter g l = l.
Proof.
  induction l as [|x l IH]; intros H; cbn; [reflexivity|].
  rewrite (H x (or_introl eq_refl)), IH; [reflexivity|]. intros; apply H; now right.
Qed.

Lemma filter_none (A : Type) (g : A -> bool) (l : list A) :
  (forall x, In x l -> g x = false) -> filter g l = [].
Proof.
  induction l as [|x l IH]; intros H; cbn; [reflexivity|].
  rewrite (H x (or_introl eq_refl)). apply IH. intros; apply H; now right.
Qed.

Lemma below_nil (a : path) : below a [] = false.
Proof. now destruct a. Qed.

Lemma below_cons_eq (j : nat) (a c : path) : below (j :: a) (j :: c) = below a c.
Proof. unfold below. cbn. now rewrite Nat.eqb_refl. Qed.

Lemma below_cons_neq (i j : nat) (a c : path) : i <> j -> below (i :: a) (j :: c) = false.
Proof.
  intros H. unfold below. cbn. apply Nat.eqb_neq in H. now rewrite H.
Qed.

Lemma find_all_kids_update (F : node -> list path) (f : node -> node) (a : path)
    (kids : list node) :
  forall (i j : nat) (k : node),
  nth_error kids i = Some k ->
  F (f k) = filter (fun c => negb (below a c)) (F k) ->
  find_all_kids F j (update_nth i f kids) =
  filter (fun c => negb (below ((j + i) :: a) c)) (find_all_kids F j kids).
Proof.
  induction kids as [|k0 kids IH]; intros i j k Hn HF; [destruct i; discriminate|].
  destruct i as [|i]; cbn in Hn.
  - inversion Hn; subst k0. cbn [update_nth find_all_kids].
    rewrite filter_app, HF, Nat.add_0_r. f_equal.
    + symmetry. apply filter_map_cons. intros c. now rewrite below_cons_eq.
    + symmetry. apply filter_all. intros x Hx.
      apply find_all_kids_In in Hx as (i & k' & c & _ & _ & ->).
      rewrite below_cons_neq; [reflexivity|lia].
  - cbn [update_nth find_all_kids]. rewrite filter_app. f_equal.
    + symmetry. apply filter_all. intros x Hx.
      apply in_map_iff in Hx as (c & <- & _).
      rewrite below_cons_neq; [reflexivity|lia].
    + rewrite (IH i (S j) k Hn HF). now rewrite Nat.add_succ_r.
Qed.

Lemma strip_prefix_Some (a x r : path) : strip_prefix a x = Some r -> x = a ++ r.
Proof.
  revert x; induction a as [|i a IH]; intros x H; cbn in H.
  - now inversion H.
  - destruct x as [|j x]; [discriminate|].
    destruct (Nat.eqb_spec i j) as [->|]; [|discriminate].
    cbn. f_equal. now apply IH.
Qed.

Lemma below_inv (a x : path) : below a x = true -> exists r, r <> [] /\ x = a ++ r.
Proof.
  unfold below. destruct (strip_prefix a x) as [[|i r]|] eqn:E; try discriminate.
  intros _. exists (i :: r). split; [discriminate|]. now apply strip_prefix_Some.
Qed.

Lemma update_nth_none (A : Type) (f : A -> A) (l : list A) (i : nat) :
  nth_error l i = None -> update_nth i f l = l.
Proof.
  revert i; induction l as [|y l IH]; intros [|i] Hn; cbn in *; try discriminate;
    try reflexivity.
  f_equal. now apply IH.
Qed.

(** Replacing the children at a position that does not exist changes nothing. *)
Lemma set_children_nowhere (new : list node) (a : path) :
  forall n, subtree n a = None -> set_children n a new = n.
Proof.
  induction a as [|i a IH]; intros n H; cbn [subtree] in H; [discriminate|].
  destruct n as [s|s|nm at' kids]; try reflexivity.
  cbn [children] in H. cbn [set_children]. f_equal.
  destruct (nth_error kids i) as [k|] eqn:Hk.
  - apply (update_nth_same _ _ kids i k Hk). now apply IH.
  - now apply update_nth_none.
Qed.

Section Replaced.

Variable sel : selector.
Variable new : list node.
Hypothesis new_has_no_match : find_all_kids (find_all_from sel) 0 new = [].

(** Replacing the children of the element at [a] by nodes without a match
    removes the matches that were strictly below [a] and nothing else. *)
Lemma find_all_from_set_children (a : path) :
  forall (n : node) (name : text) (attrs : list (text * text)) (old : list node),
  subtree n a = Some (Elem name attrs old) ->
  find_all_from sel (set_children n a new) =
  filter (fun c => negb (below a c)) (find_all_from sel n).
Proof.
  induction a as [|i a IH]; intros n name attrs old H; cbn [subtree] in H.
  - inversion H; subst n. cbn [set_children].
    rewrite !find_all_from_unfold. unfold find_all. cbn [children].
    rewrite new_has_no_match, filter_app, app_nil_r.
    rewrite (filter_none _ _ (find_all_kids (find_all_from sel) 0 old)).
    + rewrite app_nil_r. change (matches sel (Elem name attrs new))
        with (matches sel (Elem name attrs old)).
      now destruct (matches sel (Elem name attrs old)).
    + intros x Hx. apply find_all_kids_In in Hx as (i & k & c & _ & _ & ->).
      reflexivity.
  - destruct (nth_error (children n) i) as [k|] eqn:Hk; [|discriminate].
    rewrite !find_all_from_unfold, matches_set_children, filter_app.
    unfold find_all. rewrite children_set_children.
    rewrite (find_all_kids_update (find_all_from sel) _ a (children n) i 0 k Hk
               (IH k name attrs old H)).
    cbn [Nat.add]. f_equal. now destruct (matches sel n).
Qed.

Lemma find_all_set_children (a : path) (n : node) (name : text)
    (attrs : list (text * text)) (old : list node) :
  subtree n a = Some (Elem name attrs old) ->
  find_all sel (set_children n a new) =
  filter (fun c => negb (below a c)) (find_all sel n).
Proof.
  intros H. pose proof (find_all_from_set_children a n name attrs old H) as E.
  rewrite !find_all_from_unfold, matches_set_children, filter_app in E.
  destruct (matches sel n); cbn in E; [|exact E].
  rewrite below_nil in E. now inversion E.
Qed.

(** The first match stays the first match unless it was strictly below [a]. *)
Lemma find_set_children (a x : path) (n : node) (name : text)
    (attrs : list (text * text)) (old : list node) :
  subtree n a = Some (Elem name attrs old) ->
  find sel n = Some x ->
  below a x = false ->
  find sel (set_children n a new) = Some x.
Proof.
  intros H Hx Hb. unfold find in *.
  rewrite (find_all_set_children a n name attrs old H).
  destruct (find_all sel n) as [|y l]; [discriminate|].
  cbn in Hx. inversion Hx; subst y. cbn [filter]. now rewrite Hb.
Qed.

End Replaced.

(** *** The same, by the shape of the tree *)

(** Induction on a tree, with the property at hand for every child. *)
Fixpoint node_ind2 (P : node -> Prop)
    (HT : forall s, P (Text s)) (HC : forall s, P (Comment s))
    (HE : forall name attrs kids, Forall P kids -> P (Elem name attrs kids))
    (n : node) : P n :=
  match n with
  | Text s => HT s
  | Comment s => HC s
  | Elem name attrs kids =>
      HE name attrs kids
        ((fix go (l : list node) : Forall P l :=
            match l with
            | [] => Forall_nil P
            | k :: l' => Forall_cons k (node_ind2 P HT HC HE k) (go l')
            end) kids)
  end.

(** The matching nodes at and below [n], in document order. *)
Fixpoint all_from (sel : selector) (n : node) : list node :=
  (if matches sel n then [n] else []) ++
  match n with
  | Elem _ _ kids => flat_map (all_from sel) kids
  | _ => []
  end.

(** The matching descendants of [n], in document order: the nodes
    [n.find_all(...)] returns. *)
Definition all_below (sel : selector) (n : node) : list node :=
  flat_map (all_from sel) (children n).

Definition sub_list (n : node) (p : path) : list node :=
  match subtree n p with
  | Some m => [m]
  | None => []
  end.

Lemma flat_map_map (A B C : Type) (f : B -> list C) (g : A -> B) (l : list A) :
  flat_map f (map g l) = flat_map (fun x => f (g x)) l.
Proof. induction l as [|x l IH]; cbn; [reflexivity|]. now rewrite IH. Qed.

Lemma nth_error_middle (A : Type) (pre : list A) (k : A) (post : list A) :
  nth_error (pre ++ k :: post) (length pre) = Some k.
Proof. induction pre as [|x pre IH]; [reflexivity|exact IH]. Qed.

Lemma all_from_kids (sel : selector) (name : text) (attrs : list (text * text))
    (kids : list node) :
  Forall (fun k => flat_map (sub_list k) (find_all_from sel k) = all_from sel k) kids ->
  forall pre,
  flat_map (sub_list (Elem name attrs (pre ++ kids)))
    (find_all_kids (find_all_from sel) (length pre) kids) =
  flat_map (all_from sel) kids.
Proof.
  induction 1 as [|k kids Hk _ IH]; intros pre; [reflexivity|].
  cbn [find_all_kids flat_map]. rewrite flat_map_app, flat_map_map. f_equal.
  - rewrite <- Hk. apply flat_map_ext. intros c. unfold sub_list. cbn [subtree children].
    now rewrite nth_error_middle.
  - specialize (IH (pre ++ [k])). rewrite <- app_assoc, length_app in IH.
    cbn [app length] in IH. now rewrite Nat.add_1_r in IH.
Qed.

Lemma all_from_paths (sel : selector) (n : node) :
  flat_map (sub_list n) (find_all_from sel n) = all_from sel n.
Proof.
  induction n as [s|s|name attrs kids IH] using node_ind2; cbn [find_all_from all_from].
  - now destruct (matches sel (Text s)).
  - now destruct (matches sel (Comment s)).
  - rewrite flat_map_app. f_equal.
    + now destruct (matches sel (Elem name attrs kids)).
    + exact (all_from_kids sel name attrs kids IH []).
Qed.

(** [find_all] lists the positions of the matching descendants. *)
Lemma all_below_paths (sel : selector) (n : node) :
  flat_map (sub_list n) (find_all sel n) = all_below sel n.
Proof.
  destruct n as [s|s|name attrs kids]; try reflexivity.
  unfold find_all, all_below. cbn [children].
  pose proof (all_from_paths sel (Elem name attrs kids)) as H.
  cbn [find_all_from all_from] in H. rewrite flat_map_app in H.
  destruct (matches sel (Elem name attrs kids)); cbn in H.
  - unfold sub_list at 1 in H. cbn in H. now inversion H.
  - exact H.
Qed.

(** The first match, as a node. *)
Lemma first_match_node (sel : selector) (n : node) :
  hd_error (all_below sel n) =
  match find sel n with
  | Some q => subtree n q
  | None => None
  end.
Proof.
  rewrite <- all_below_paths. unfold find.
  destruct (find_all sel n) as [|q l] eqn:E; [reflexivity|].
  cbn [hd_error flat_map].
  destruct (find_all_sound sel n q) as (m & Hm & _); [rewrite E; now left|].
  unfold sub_list. now rewrite Hm.
Qed.

(** *** Replacing the children of the first match *)

Definition with_children (n : node) (new : list node) : node :=
  match n with
  | Elem name attrs _ => Elem name attrs new
  | _ => n
  end.

Definition replace_in (F : node -> option node) : list node -> option (list node) :=
  fix go (l : list node) : option (list node) :=
    match l with
    | [] => None
    | k :: l' =>
        match F k with
        | Some k' => Some (k' :: l')
        | None => option_map (cons k) (go l')
        end
    end.

(** [n] with the children of the first match at or below it replaced. *)
Fixpoint replace_from (sel : selector) (new : list node) (n : node) : option node :=
  if matches sel n then Some (with_children n new)
  else
    match n with
    | Elem name attrs kids =>
        option_map (Elem name attrs) (replace_in (replace_from sel new) kids)
    | _ => None
    end.

(** [n] with the children of its first matching descendant replaced. *)
Definition replace_first (sel : selector) (new : list node) (n : node) : node :=
  match n with
  | Elem name attrs kids =>
      match replace_in (replace_from sel new) kids with
      | Some kids' => Elem name attrs kids'
      | None => n
      end
  | _ => n
  end.

Lemma update_nth_middle (A : Type) (f : A -> A) (pre : list A) (k : A) (post : list A) :
  update_nth (length pre) f (pre ++ k :: post) = pre ++ f k :: post.
Proof. induction pre as [|x pre IH]; cbn; [reflexivity|]. now rewrite IH. Qed.

Definition set_at (new : list node) (n : node) (q : option path) : option node :=
  match q with
  | Some q => Some (set_children n q new)
  | None => None
  end.

Lemma replace_in_kids (sel : selector) (new : list node) (name : text)
    (attrs : list (text * text)) (kids : list node) :
  Forall (fun k => set_at new k (hd_error (find_all_from sel k)) =
                   replace_from sel new k) kids ->
  forall pre,
  set_at new (Elem name attrs (pre ++ kids))
    (hd_error (find_all_kids (find_all_from sel) (length pre) kids)) =
  option_map (fun kids' => Elem name attrs (pre ++ kids'))
    (replace_in (replace_from sel new) kids).
Proof.
  induction 1 as [|k kids Hk _ IH]; intros pre; [reflexivity|].
  cbn [find_all_kids replace_in]. rewrite <- Hk.
  destruct (find_all_from sel k) as [|q l]; cbn [map app hd_error set_at option_map].
  - specialize (IH (pre ++ [k])). rewrite <- app_assoc, length_app in IH.
    cbn [app length] in IH. rewrite Nat.add_1_r in IH. rewrite IH.
    destruct (replace_in (replace_from sel new) kids); cbn [option_map];
      [|reflexivity].
    now rewrite <- app_assoc.
  - cbn [set_children]. now rewrite update_nth_middle.
Qed.

Lemma replace_from_paths (sel : selector) (new : list node) (n : node) :
  set_at new n (hd_error (find_all_from sel n)) = replace_from sel new n.
Proof.
  induction n as [s|s|name attrs kids IH] using node_ind2;
    cbn [find_all_from replace_from]; try reflexivity.
  destruct (matches sel (Elem name attrs kids)); [reflexivity|].
  pose proof (replace_in_kids sel new name attrs kids IH []) as K.
  cbn [app length] in K |- *. rewrite K.
  now destruct (replace_in (replace_from sel new) kids).
Qed.

(** Giving the first match new children is [replace_first]. *)
Lemma set_children_find (sel : selector) (new : list node) (n : node) (q : path) :
  find sel n = Some q -> set_children n q new = replace_first sel new n.
Proof.
  destruct n as [s|s|name attrs kids]; try discriminate.
  unfold find, find_all. cbn [children]. intros H.
  pose proof (replace_in_kids sel new name attrs kids) as K.
  assert (HF : Forall (fun k => set_at new k (hd_error (find_all_from sel k)) =
                                replace_from sel new k) kids)
    by (apply Forall_forall; intros; apply replace_from_paths).
  specialize (K HF []). cbn [app length] in K. rewrite H in K. cbn [set_at] in K.
  unfold replace_first.
  destruct (replace_in (replace_from sel new) kids); cbn [option_map] in K;
    [now inversion K|discriminate].
Qed.

(** *** White space between and around the strings *)

(** A tree without what a printer is free to change: every string
    stripped, the strings of white space only dropped, and the attributes of
    every element in the order of their names. *)
Fixpoint norm (n : node) : list node :=
  match n with
  | Text s =>
      match strip s with
      | [] => []
      | c :: t => [Text (c :: t)]
      end
  | Comment s => [Comment s]
  | Elem name attrs kids => [Elem name (sort_attrs attrs) (flat_map norm kids)]
  end.

Definition norm_node (n : node) : node :=
  match n with
  | Text s => Text (strip s)
  | Comment s => Comment s
  | Elem name attrs kids => Elem name (sort_attrs attrs) (flat_map norm kids)
  end.

Lemma matches_sort_attrs (sel : selector) (name : text) (attrs : list (text * text))
    (kids kids' : list node) :
  matches sel (Elem name (sort_attrs attrs) kids') = matches sel (Elem name attrs kids).
Proof. unfold matches, get_attr. now rewrite dict_get_sort_attrs. Qed.

Lemma flat_map_flat_map (A B C : Type) (f : B -> list C) (g : A -> list B)
    (l : list A) :
  flat_map f (flat_map g l) = flat_map (fun x => flat_map f (g x)) l.
Proof.
  induction l as [|x l IH]; cbn; [reflexivity|]. now rewrite flat_map_app, IH.
Qed.

Lemma map_flat_map (A B C : Type) (f : B -> C) (g : A -> list B) (l : list A) :
  map f (flat_map g l) = flat_map (fun x => map f (g x)) l.
Proof.
  induction l as [|x l IH]; cbn; [reflexivity|]. now rewrite map_app, IH.
Qed.

Lemma flat_map_ext_Forall (A B : Type) (f g : A -> list B) (l : list A) :
  Forall (fun x => f x = g x) l -> flat_map f l = flat_map g l.
Proof. induction 1 as [|x l H _ IH]; cbn; [reflexivity|]. now rewrite H, IH. Qed.

Lemma matches_norm_node (sel : selector) (n : node) :
  matches sel (norm_node n) = matches sel n.
Proof. destruct n; try reflexivity. apply matches_sort_attrs. Qed.

(** The matches of the tree without white space are those of the tree. *)
Lemma all_from_norm (sel : selector) (n : node) :
  flat_map (all_from sel) (norm n) = map norm_node (all_from sel n).
Proof.
  induction n as [s|s|name attrs kids IH] using node_ind2.
  - cbn [norm all_from]. now destruct (strip s).
  - reflexivity.
  - cbn [norm flat_map]. rewrite app_nil_r. cbn [all_from].
    rewrite (matches_sort_attrs sel name attrs kids).
    rewrite map_app. f_equal.
    + now destruct (matches sel (Elem name attrs kids)).
    + rewrite flat_map_flat_map, map_flat_map. now apply flat_map_ext_Forall.
Qed.

Lemma all_below_norm (sel : selector) (n : node) :
  all_below sel (norm_node n) = map norm_node (all_below sel n).
Proof.
  destruct n as [s|s|name attrs kids]; try reflexivity.
  unfold all_below. cbn [norm_node children].
  rewrite flat_map_flat_map, map_flat_map. apply flat_map_ext. intros k.
  apply all_from_norm.
Qed.

Lemma option_map_app_nil (A : Type) (x : option (list A)) : option_map (app []) x = x.
Proof. now destruct x. Qed.

(** Replacing in the tree without white space. *)
Lemma replace_in_norm_kids (F F' : node -> option node) (kids : list node) :
  Forall (fun k => forall tail,
            replace_in F' (norm k ++ tail) =
            match F k with
            | Some k' => Some (norm k' ++ tail)
            | None => option_map (app (norm k)) (replace_in F' tail)
            end) kids ->
  replace_in F' (flat_map norm kids) = option_map (flat_map norm) (replace_in F kids).
Proof.
  induction 1 as [|k kids Hk _ IH]; [reflexivity|].
  cbn [flat_map replace_in]. rewrite Hk.
  destruct (F k) as [k'|]; [reflexivity|]. rewrite IH.
  now destruct (replace_in F kids).
Qed.

Lemma replace_from_norm (sel : selector) (new : list node) (n : node) :
  forall tail,
  replace_in (replace_from sel (flat_map norm new)) (norm n ++ tail) =
  match replace_from sel new n with
  | Some n' => Some (norm n' ++ tail)
  | None => option_map (app (norm n))
              (replace_in (replace_from sel (flat_map norm new)) tail)
  end.
Proof.
  induction n as [s|s|name attrs kids IH] using node_ind2; intros tail.
  - cbn [norm replace_from matches]. destruct (strip s) as [|c t]; cbn [app].
    + now rewrite option_map_app_nil.
    + reflexivity.
  - reflexivity.
  - cbn [norm app replace_in]. cbn [replace_from].
    rewrite (matches_sort_attrs sel name attrs kids).
    destruct (matches sel (Elem name attrs kids)); [reflexivity|].
    rewrite (replace_in_norm_kids (replace_from sel new)
               (replace_from sel (flat_map norm new)) kids IH).
    now destruct (replace_in (replace_from sel new) kids).
Qed.

Lemma replace_first_norm (sel : selector) (new : list node) (n : node) :
  norm_node (replace_first sel new n) =
  replace_first sel (flat_map norm new) (norm_node n).
Proof.
  destruct n as [s|s|name attrs kids]; try reflexivity.
  cbn [norm_node replace_first].
  rewrite (replace_in_norm_kids (replace_from sel new)
             (replace_from sel (flat_map norm new)) kids).
  - now destruct (replace_in (replace_from sel new) kids).
  - apply Forall_forall. intros k _. apply replace_from_norm.
Qed.

(** Stripping twice is stripping once. *)
Lemma lstrip_idem (s : text) : lstrip (lstrip s) = lstrip s.
Proof.
  induction s as [|c s IH]; [reflexivity|]. cbn [lstrip].
  destruct (is_space c) eqn:E; [exact IH|]. cbn [lstrip]. now rewrite E.
Qed.

Lemma lstrip_snoc (s : text) (c : N) :
  is_space c = false -> lstrip (s ++ [c]) = lstrip s ++ [c].
Proof.
  intros Hc. induction s as [|x s IH]; cbn [app lstrip]; [now rewrite Hc|].
  now destruct (is_space x).
Qed.

Lemma rstrip_cons (c : N) (s : text) :
  is_space c = false -> rstrip (c :: s) = c :: rstrip s.
Proof.
  intros Hc. unfold rstrip. cbn [rev]. rewrite (lstrip_snoc _ c Hc), rev_app_distr.
  reflexivity.
Qed.

Lemma lstrip_rstrip_lstrip (s : text) : lstrip (rstrip (lstrip s)) = rstrip (lstrip s).
Proof.
  induction s as [|c s IH]; [reflexivity|]. cbn [lstrip].
  destruct (is_space c) eqn:E; [exact IH|].
  rewrite (rstrip_cons c s E). cbn [lstrip]. now rewrite E.
Qed.

Lemma rstrip_idem (s : text) : rstrip (rstrip s) = rstrip s.
Proof. unfold rstrip. now rewrite rev_involutive, lstrip_idem. Qed.

Lemma strip_idem (s : text) : strip (strip s) = strip s.
Proof. unfold strip. now rewrite lstrip_rstrip_lstrip, rstrip_idem. Qed.

(** The strings [get_text(strip=True)] joins. *)
Definition stripped (l : list text) : list text :=
  filter (fun s => negb (text_eqb s [])) (map strip l).

Lemma stripped_app (a b : list text) : stripped (a ++ b) = stripped a ++ stripped b.
Proof. unfold stripped. now rewrite map_app, filter_app. Qed.

Lemma stripped_flat_map (A : Type) (f : A -> list text) (l : list A) :
  stripped (flat_map f l) = flat_map (fun x => stripped (f x)) l.
Proof.
  induction l as [|x l IH]; cbn [flat_map]; [reflexivity|].
  now rewrite stripped_app, IH.
Qed.

Lemma strings_norm (n : node) :
  stripped (flat_map strings (norm n)) = stripped (strings n).
Proof.
  induction n as [s|s|name attrs kids IH] using node_ind2.
  - cbn [norm strings]. destruct (strip s) as [|c t] eqn:E.
    + unfold stripped. cbn. now rewrite E.
    + unfold stripped. cbn [flat_map strings app map].
      rewrite <- E, strip_idem. reflexivity.
  - reflexivity.
  - cbn [norm flat_map strings]. rewrite app_nil_r.
    rewrite flat_map_flat_map, !stripped_flat_map. now apply flat_map_ext_Forall.
Qed.

Lemma get_text_strip_norm (n : node) :
  get_text_strip (norm_node n) = get_text_strip n.
Proof.
  unfold get_text_strip. fold (stripped (strings (norm_node n))).
  fold (stripped (strings n)). f_equal.
  destruct n as [s|s|name attrs kids].
  - unfold stripped. cbn. now rewrite strip_idem.
  - reflexivity.
  - pose proof (strings_norm (Elem name attrs kids)) as H.
    cbn [norm flat_map] in H. rewrite app_nil_r in H. exact H.
Qed.


(** Taking away twice what a printer is free to change is taking it away
    once. *)
Lemma norm_idem (n : node) : flat_map norm (norm n) = norm n.
Proof.
  induction n as [s|s|name attrs kids IH] using node_ind2.
  - cbn [norm]. destruct (strip s) as [|c t] eqn:E; [reflexivity|].
    cbn [flat_map norm]. rewrite <- E, strip_idem, E. reflexivity.
  - reflexivity.
  - cbn [norm flat_map]. rewrite app_nil_r, sort_attrs_idem. do 2 f_equal.
    rewrite flat_map_flat_map. now apply flat_map_ext_Forall.
Qed.

Lemma norm_node_idem (n : node) : norm_node (norm_node n) = norm_node n.
Proof.
  destruct n as [s|s|name attrs kids]; cbn [norm_node].
  - now rewrite strip_idem.
  - reflexivity.
  - rewrite sort_attrs_idem. f_equal.
    rewrite flat_map_flat_map. apply flat_map_ext. intros k. apply norm_idem.
Qed.

(** *** Matches that lie apart *)

(** A match strictly below a match of the tree is a match of that subtree. *)
Lemma find_all_from_below (sel : selector) (p r : path) :
  forall (n c : node),
  In (p ++ r) (find_all_from sel n) -> subtree n p = Some c -> r <> [] ->
  In r (find_all sel c).
Proof.
  induction p as [|i p IH]; intros n c Hin Hc Hr; cbn [app subtree] in *.
  - inversion Hc; subst c. rewrite find_all_from_unfold in Hin.
    apply in_app_iff in Hin as [Hin|Hin]; [|exact Hin].
    destruct (matches sel n); [|destruct Hin].
    destruct Hin as [Hin|[]]. now subst r.
  - rewrite find_all_from_unfold in Hin. apply in_app_iff in Hin as [Hin|Hin].
    { destruct (matches sel n); [destruct Hin as [Hin|[]]; discriminate|destruct Hin]. }
    apply find_all_kids_In in Hin as (j & k & c' & Hk & Hc' & E).
    cbn in E. inversion E; subst. rewrite Hk in Hc.
    exact (IH k c Hc' Hc Hr).
Qed.

Lemma NoDup_map_cons (i : nat) (l : list path) : NoDup l -> NoDup (map (cons i) l).
Proof.
  induction 1 as [|a l Ha _ IH]; cbn [map]; constructor; [|exact IH].
  intros H. apply in_map_iff in H as (b & E & Hb). inversion E. now subst.
Qed.

Lemma find_all_kids_NoDup (F : node -> list path) (kids : list node) :
  Forall (fun k => NoDup (F k)) kids ->
  forall i, NoDup (find_all_kids F i kids).
Proof.
  induction 1 as [|k kids Hk _ IH]; intros i; cbn [find_all_kids]; [constructor|].
  apply NoDup_app.
  - now apply NoDup_map_cons.
  - apply IH.
  - intros x Hx Hx'. apply in_map_iff in Hx as (c & <- & _).
    apply find_all_kids_In in Hx' as (j & k' & c' & _ & _ & E).
    inversion E. lia.
Qed.

Lemma find_all_from_NoDup (sel : selector) (n : node) : NoDup (find_all_from sel n).
Proof.
  induction n as [s|s|name attrs kids IH] using node_ind2; cbn [find_all_from].
  - destruct (matches sel (Text s)); cbn; repeat constructor; auto.
  - destruct (matches sel (Comment s)); cbn; repeat constructor; auto.
  - pose proof (find_all_kids_NoDup (find_all_from sel) kids IH 0) as H.
    destruct (matches sel (Elem name attrs kids)); cbn [app]; [|exact H].
    constructor; [|exact H]. intros Hin.
    apply find_all_kids_In in Hin as (j & k & c & _ & _ & E). discriminate.
Qed.

Lemma find_all_NoDup (sel : selector) (n : node) : NoDup (find_all sel n).
Proof.
  pose proof (find_all_from_NoDup sel n) as H. rewrite find_all_from_unfold in H.
  now apply NoDup_app_remove_l in H.
Qed.

(** Two positions, neither at or above the other, part ways. *)
Lemma diverge_or_below (a : path) :
  forall b, a <> b -> below a b = false -> below b a = false -> diverge a b = true.
Proof.
  induction a as [|i a IH]; intros [|j b] Hne Hab Hba.
  - congruence.
  - discriminate.
  - discriminate.
  - cbn [diverge]. unfold below in *. cbn [strip_prefix] in *.
    rewrite (Nat.eqb_sym j i) in Hba.
    destruct (Nat.eqb_spec i j) as [->|Hij]; [|reflexivity].
    apply IH; [congruence|exact Hab|exact Hba].
Qed.

Lemma all_diverge_pairwise (l : list path) :
  NoDup l ->
  (forall a b, In a l -> In b l -> below a b = false) ->
  all_diverge l = true.
Proof.
  induction 1 as [|a l Ha _ IH]; intros H; [reflexivity|].
  cbn [all_diverge]. apply andb_true_iff. split.
  - apply forallb_forall. intros b Hb. apply diverge_or_below.
    + intros ->. contradiction.
    + apply H; [now left|now right].
    + apply H; [now right|now left].
  - apply IH. intros x y Hx Hy. apply H; now right.
Qed.

(** No match has a match below it. *)
Definition apart (sel : selector) (n : node) : Prop :=
  forall c, In c (all_below sel n) -> all_below sel c = [].

Lemma in_all_below (sel : selector) (n c : node) :
  In c (all_below sel n) <-> exists p, In p (find_all sel n) /\ subtree n p = Some c.
Proof.
  rewrite <- all_below_paths, in_flat_map. unfold sub_list. split.
  - intros (p & Hp & Hc). exists p. split; [exact Hp|].
    destruct (subtree n p); [|destruct Hc]. destruct Hc as [->|[]]. reflexivity.
  - intros (p & Hp & Hc). exists p. split; [exact Hp|]. rewrite Hc. now left.
Qed.

Lemma all_diverge_apart (sel : selector) (n : node) :
  all_diverge (find_all sel n) = true <-> apart sel n.
Proof.
  split.
  - intros Hdiv c Hc. apply in_all_below in Hc as (p & Hp & Hc).
    destruct (all_below sel c) as [|m l] eqn:E; [reflexivity|].
    assert (Hm : In m (all_below sel c)) by (rewrite E; now left).
    apply in_all_below in Hm as (r & Hr & _).
    pose proof (find_all_subtree sel n c p r Hc Hr) as Hpr.
    pose proof (find_all_nonempty sel c r Hr) as Hne.
    assert (Hneq : p <> p ++ r).
    { intros H. rewrite <- (app_nil_r p) in H at 1. apply app_inv_head in H.
      now symmetry in H. }
    pose proof (all_diverge_In _ p (p ++ r) Hdiv Hp Hpr Hneq) as Hd.
    rewrite diverge_prefix in Hd. discriminate.
  - intros Hap. apply all_diverge_pairwise; [apply find_all_NoDup|].
    intros a b Ha Hb. destruct (below a b) eqn:E; [|reflexivity].
    apply below_inv in E as (r & Hr & ->).
    destruct (find_all_sound sel n a Ha) as (c & Hc & _).
    assert (Hin : In (a ++ r) (find_all_from sel n))
      by (rewrite find_all_from_unfold; apply in_app_iff; now right).
    pose proof (find_all_from_below sel a r n c Hin Hc Hr) as Hrc.
    assert (Hcn : In c (all_below sel n)) by (apply in_all_below; eauto).
    specialize (Hap c Hcn).
    destruct (find_all_sound sel c r Hrc) as (m & Hm & _).
    assert (Hmc : In m (all_below sel c)) by (apply in_all_below; eauto).
    rewrite Hap in Hmc. destruct Hmc.
Qed.

(** Trees that are alike but for white space have their matches alike. *)
Lemma in_all_below_norm (sel : selector) (n n' c' : node) :
  norm_node n' = norm_node n ->
  In c' (all_below sel n') ->
  exists c, In c (all_below sel n) /\ norm_node c = norm_node c'.
Proof.
  intros Hn Hc'.
  apply (in_map norm_node) in Hc'. rewrite <- all_below_norm, Hn, all_below_norm in Hc'.
  apply in_map_iff in Hc' as (c & E & Hc). eauto.
Qed.

Lemma apart_norm (sel : selector) (n n' : node) :
  norm_node n' = norm_node n -> apart sel n -> apart sel n'.
Proof.
  intros Hn Hap c' Hc'.
  destruct (in_all_below_norm sel n n' c' Hn Hc') as (c & Hc & E).
  pose proof (all_below_norm sel c') as H. rewrite <- E, all_below_norm, (Hap c Hc) in H.
  symmetry in H. now apply map_eq_nil in H.
Qed.

Lemma all_diverge_norm (sel : selector) (n n' : node) :
  norm_node n' = norm_node n ->
  all_diverge (find_all sel n) = true -> all_diverge (find_all sel n') = true.
Proof.
  intros Hn H. apply all_diverge_apart. apply (apart_norm sel n n' Hn).
  now apply all_diverge_apart.
Qed.

End Html.

(** * The site patcher ([update_persona_images.py]) *)

Module Patcher.

Import Html.
Local Open Scope monad_scope.

Record persona_info := mk_info {
  html_name : text;
  description : text
}.

Definition PERSONA_MAPPING : list (text * persona_info) :=
  [ (lit "estate_inheritor", mk_info (lit "Emeka") (lit "Estate Manager"));
    (lit "reseller_entrepreneur", mk_info (lit "Jake") (lit "Reseller")) ].

(** [self]: absolute paths, as their components below the root directory. *)
Record PersonaImageUpdater := mk_updater {
  project_root : list text;
  images_dir : list text
}.

Definition html_path (self : PersonaImageUpdater) : list text :=
  project_root self ++ [lit "index.html"].

(** [str(p)] for an absolute path. *)
Definition path_str (p : list text) : text :=
  concat (map (fun c => lit "/" ++ c) p).

(** [p.parent] *)
Definition parent (p : list text) : list text := removelast p.

(** [p.relative_to(root)]: the components of [p] below [root], when [root]
    is above [p]. *)
Fixpoint relative_to (p root : list text) : option (list text) :=
  match root, p with
  | [], _ => Some p
  | r :: root', c :: p' => if text_eqb r c then relative_to p' root' else None
  | _ :: _, [] => None
  end.

(** The entries of a [dict] result. *)
Record updated := mk_updated {
  up_persona_key : text;
  up_name : text;
  up_image_path : text
}.

Record results := mk_results {
  updated_personas : list updated;
  missing_images : list text;
  errors : list text
}.

Record validation := mk_validation {
  valid : bool;
  issues : list text;
  images_found : list (text * text)
}.

(** [glob(f'{persona_key}_*{ext}')] on one directory entry. *)
Definition glob_match (persona_key ext name : text) : bool :=
  starts_with (persona_key ++ lit "_") name && ends_with ext name &&
  (length persona_key + 1 + length ext <=? length name).

(** [max(files, key=lambda p: p.stat().st_mtime)]: the first entry among
    those with the greatest modification time. *)
Fixpoint max_by_mtime (best : text * N) (l : list (text * N)) : text * N :=
  match l with
  | [] => best
  | x :: l' => if (snd best <? snd x)%N then max_by_mtime x l' else max_by_mtime best l'
  end.

(** [for key, info in mapping.items(): if info['html_name'] in name_text: ... break] *)
Fixpoint match_persona (name_text : text) (mapping : list (text * persona_info))
    : option (text * persona_info) :=
  match mapping with
  | [] => None
  | (key, info) :: rest =>
      if contains (html_name info) name_text then Some (key, info)
      else match_persona name_text rest
  end.

Definition card_selector : selector := mk_selector (lit "div") (Some (lit "persona-card")).
Definition avatar_selector : selector := mk_selector (lit "div") (Some (lit "persona-avatar")).
Definition h3_selector : selector := mk_selector (lit "h3") None.
Definition img_selector : selector := mk_selector (lit "img") None.

(** A reference to a node held by the program: a tree and a position in it.
    Tree 0 is the document; [clear] detaches the children of an element, each
    of which becomes the root of a tree of its own. *)
Definition ref := (nat * path)%type.

(** [clear] on the element at [q] of tree [t] moved its [i]-th child to tree
    [base + i]. *)
Definition move := (nat * path * nat)%type.

Definition apply_move (r : ref) (m : move) : ref :=
  let '(t, q, base) := m in
  if fst r =? t then
    match strip_prefix q (snd r) with
    | Some (i :: rest) => (base + i, rest)
    | _ => r
    end
  else r.

(** Where a node found before the loop started is now. *)
Definition resolve (moves : list move) (r : ref) : ref := fold_left apply_move moves r.

(** The trees the loop works on, the detachments so far, and [results]. *)
Record soup_state := mk_state {
  trees : list node;
  moves : list move;
  res : results
}.

Definition node_at (st : soup_state) (r : ref) : option node :=
  match nth_error (trees st) (fst r) with
  | Some tr => subtree tr (snd r)
  | None => None
  end.

(** [avatar.clear(); avatar.append(new)] *)
Definition clear_and_append (st : soup_state) (r : ref) (new : node) : soup_state :=
  match node_at st r with
  | Some avatar =>
      mk_state
        (update_nth (fst r) (fun tr => set_children tr (snd r) [new]) (trees st)
           ++ children avatar)
        (moves st ++ [(fst r, snd r, length (trees st))])
        (res st)
  | None => st
  end.

Definition add_updated (u : updated) (st : soup_state) : soup_state :=
  mk_state (trees st) (moves st)
    (mk_results (updated_personas (res st) ++ [u]) (missing_images (res st))
                (errors (res st))).

Definition add_missing (key : text) (st : soup_state) : soup_state :=
  mk_state (trees st) (moves st)
    (mk_results (updated_personas (res st)) (missing_images (res st) ++ [key])
                (errors (res st))).

Definition add_error (msg : text) (st : soup_state) : soup_state :=
  mk_state (trees st) (moves st)
    (mk_results (updated_personas (res st)) (missing_images (res st))
                (errors (res st) ++ [msg])).

Section Library.

(** [BeautifulSoup(text, 'html.parser')] and [soup.prettify()]. *)
Variable parse : text -> node.
Variable prettify : node -> text.
(** Whether opening a path for writing fails, and with what. *)
Variable write_error : text -> option exn.
Variable localtime : N -> datetime.
(** The entries of [images_dir], in the order [glob] lists them, each with
    its modification time. *)
Variable listing : list (text * N).

Definition get_latest_image (self : PersonaImageUpdater) (persona_key : text)
    : option (list text) :=
  let matching_files :=
    filter (fun e => glob_match persona_key (lit ".png") (fst e)) listing ++
    filter (fun e => glob_match persona_key (lit ".jpg") (fst e)) listing in
  match matching_files with
  | [] => None
  | first :: rest => Some (images_dir self ++ [fst (max_by_mtime first rest)])
  end.

Definition rel_str (rel : list text) : text :=
  match rel with
  | [] => lit "."
  | _ => join (lit "/") rel
  end.

Definition get_web_image_path (self : PersonaImageUpdater) (image_path : list text)
    : exn + text :=
  match relative_to image_path (project_root self) with
  | Some rel_path => inr (replace_char 92 47 (rel_str rel_path))
  | None =>
      match relative_to image_path (parent (html_path self)) with
      | Some rel_path => inr (replace_char 92 47 (rel_str rel_path))
      | None =>
          inl (ValueError (path_str image_path ++ lit " is not in the subpath of " ++
                           path_str (parent (html_path self))))
      end
  end.

Definition create_image_tag (self : PersonaImageUpdater) (image_path : list text)
    (alt_text : text) : exn + text :=
  match get_web_image_path self image_path with
  | inr web_path =>
      inr (lit "<img src=" ++ dquote ++ web_path ++ dquote ++
           lit " alt=" ++ dquote ++ alt_text ++ dquote ++
           lit " class=" ++ dquote ++ lit "persona-image" ++ dquote ++ lit " />")
  | inl e => inl e
  end.

(** [self.html_path.with_suffix(f'.backup_{timestamp}.html')] *)
Definition backup_path (self : PersonaImageUpdater) (timestamp : text) : list text :=
  project_root self ++ [lit "index.backup_" ++ timestamp ++ lit ".html"].

Definition create_backup (self : PersonaImageUpdater) : M (list text) :=
  fun w =>
    let timestamp := strftime_compact (localtime (clock w)) in
    let dst := backup_path self timestamp in
    match fs_lookup (path_str (html_path self)) (files w) with
    | None => (inl (Exception (lit "No such file or directory: " ++
                               path_str (html_path self))), w)
    | Some content =>
        match write_error (path_str dst) with
        | Some e => (inl e, w)
        | None =>
            (inr dst,
             mk_World (fs_store (path_str dst) content (files w)) (clock w)
                      (log w ++ [FileCopy (path_str (html_path self)) (path_str dst)]))
        end
    end.

Definition write_text (path content : text) : M unit :=
  fun w =>
    match write_error path with
    | Some e => (inl e, w)
    | None =>
        (inr tt, mk_World (fs_store path content (files w)) (clock w)
                          (log w ++ [FileWrite path]))
    end.

(** The body of [for card in persona_cards], for the card found at [card]
    in the document before the loop started. *)
Definition process_card (self : PersonaImageUpdater) (dry_run : bool)
    (st : soup_state) (card : path) : exn + soup_state :=
  let here := resolve (moves st) (0, card) in
  match node_at st here with
  | None => inr st
  | Some card_node =>
      match find h3_selector card_node with
      | None => inr st
      | Some name_pos =>
          let name_text :=
            match subtree card_node name_pos with
            | Some name_elem => get_text_strip name_elem
            | None => []
            end in
          match match_persona name_text PERSONA_MAPPING with
          | None => inr st
          | Some (persona_key, persona_info) =>
              match get_latest_image self persona_key with
              | None => inr (add_missing persona_key st)
              | Some image_path =>
                  match find avatar_selector card_node with
                  | None =>
                      inr (add_error (lit "No avatar element found for " ++ persona_key) st)
                  | Some avatar_pos =>
                      let alt_text :=
                        html_name persona_info ++ lit " - " ++ description persona_info in
                      match create_image_tag self image_path alt_text with
                      | inl e => inl e
                      | inr img_tag =>
                          if dry_run then inr st
                          else
                            match get_web_image_path self image_path with
                            | inl e => inl e
                            | inr src =>
                                let avatar := (fst here, snd here ++ avatar_pos) in
                                let st := clear_and_append st avatar (new_img src alt_text) in
                                inr (add_updated
                                       (mk_updated persona_key (html_name persona_info)
                                          (last image_path []))
                                       st)
                            end
                      end
                  end
              end
          end
      end
  end.

Fixpoint process_cards (self : PersonaImageUpdater) (dry_run : bool)
    (st : soup_state) (cards : list path) : exn + soup_state :=
  match cards with
  | [] => inr st
  | card :: rest =>
      match process_card self dry_run st card with
      | inr st' => process_cards self dry_run st' rest
      | inl e => inl e
      end
  end.

Definition empty_results : results := mk_results [] [] [].

(** From the parsed document to the patched one: the loop over the cards. *)
Definition update_soup (self : PersonaImageUpdater) (dry_run : bool) (soup : node)
    : exn + soup_state :=
  process_cards self dry_run (mk_state [soup] [] empty_results)
    (find_all card_selector soup).

Definition soup_of (st : soup_state) : node := nth 0 (trees st) (document []).

Definition update_html_with_images (self : PersonaImageUpdater) (dry_run : bool)
    : M results :=
  fun w =>
    match fs_lookup (path_str (html_path self)) (files w) with
    | None =>
        (inr (mk_results [] []
                [lit "HTML file not found: " ++ path_str (html_path self)]), w)
    | Some html_content =>
        match update_soup self dry_run (parse html_content) with
        | inl e => (inl e, w)
        | inr st =>
            match negb dry_run, updated_personas (res st) with
            | true, _ :: _ =>
                (_ <- create_backup self ;;
                 write_text (path_str (html_path self)) (prettify (soup_of st)) ;;;
                 ret (res st)) w
            | _, _ => (inr (res st), w)
            end
        end
    end.

(** *** The style rule *)

Definition nl : text := [10%N].

(** The triple-quoted block the source inserts. *)
Definition persona_image_css : text :=
  nl ++ lit "        .persona-image {" ++
  nl ++ lit "            width: 100%;" ++
  nl ++ lit "            height: 100%;" ++
  nl ++ lit "            object-fit: cover;" ++
  nl ++ lit "            border-radius: 50%;" ++
  nl ++ lit "        }" ++
  nl ++ lit "        ".

(** The number of leading characters that satisfy [f]. *)
Fixpoint span_length (f : N -> bool) (s : text) : nat :=
  match s with
  | c :: s' => if f c then S (span_length f s') else 0
  | [] => 0
  end.

(** The pattern [\.persona-avatar\s*{[^}]*}] tried at the start of [s]: the
    length of the match.  Both repetitions are followed by a character they
    exclude, so taking the longest run is the only way to match. *)
Definition match_avatar_rule (s : text) : option nat :=
  let anchor := lit ".persona-avatar" in
  if starts_with anchor s then
    let after_name := skipn (length anchor) s in
    let spaces := span_length is_space after_name in
    match skipn spaces after_name with
    | 123%N :: body =>
        let inside := span_length (fun c => negb (c =? 125)%N) body in
        match skipn inside body with
        | 125%N :: _ => Some (length anchor + spaces + 1 + inside + 1)
        | _ => None
        end
    | _ => None
    end
  else None.

(** [re.search(pattern, s, re.DOTALL)]: the leftmost match; [pos] is the
    offset of [s] in the whole text.  The result is [match.end()]. *)
Fixpoint search_avatar_rule (pos : nat) (s : text) : option nat :=
  match match_avatar_rule s with
  | Some len => Some (pos + len)
  | None =>
      match s with
      | [] => None
      | _ :: s' => search_avatar_rule (S pos) s'
      end
  end.

(** [f.read()] on a file opened in text mode with the default
    [newline=None]: a carriage return followed by a line feed, and a carriage
    return alone, are read as one line feed.  [after_cr] tells that the
    character before was a carriage return. *)
Fixpoint universal_newlines (after_cr : bool) (raw : text) : text :=
  match raw with
  | [] => []
  | c :: raw' =>
      if (c =? 13)%N then 10%N :: universal_newlines true raw'
      else if (c =? 10)%N && after_cr then universal_newlines false raw'
      else c :: universal_newlines false raw'
  end.

Definition read_text (raw : text) : text := universal_newlines false raw.

(** The text is written back as it is: paths are those of a POSIX system,
    where a line feed is written as a line feed. *)
Definition add_persona_image_css (self : PersonaImageUpdater) (dry_run : bool)
    : M bool :=
  fun w =>
    match fs_lookup (path_str (html_path self)) (files w) with
    | None => (inr false, w)
    | Some raw =>
        let html_content := read_text raw in
        if contains (lit ".persona-image") html_content then (inr true, w)
        else
          match search_avatar_rule 0 html_content with
          | Some insert_position =>
              if dry_run then (inr true, w)
              else
                let updated_content :=
                  firstn insert_position html_content ++ persona_image_css ++
                  skipn insert_position html_content in
                (write_text (path_str (html_path self)) updated_content ;;;
                 ret true) w
          | None => (inr false, w)
          end
    end.

(** *** Validation *)

(** Whether [self.project_root / src] exists. *)
Variable exists_under_root : text -> bool.

(** The body of [for avatar in persona_avatars]. *)
Definition validate_avatar (v : validation) (avatar : node) : validation :=
  match find img_selector avatar with
  | None => v
  | Some pos =>
      match subtree avatar pos with
      | None => v
      | Some img =>
          let src := get_attr (lit "src") img in
          let alt := get_attr (lit "alt") img in
          let v := mk_validation (valid v) (issues v) (images_found v ++ [(src, alt)]) in
          let v :=
            if negb (exists_under_root src)
            then mk_validation false
                   (issues v ++ [lit "Image file not found: " ++ src]) (images_found v)
            else v in
          match alt with
          | [] =>
              mk_validation (valid v)
                (issues v ++ [lit "Missing alt text for image: " ++ src]) (images_found v)
          | _ :: _ => v
          end
      end
  end.

(** [validate_updates], from the parsed document on. *)
Definition validate_soup (soup : node) : validation :=
  let persona_avatars :=
    flat_map (fun p => match subtree soup p with Some a => [a] | None => [] end)
             (find_all avatar_selector soup) in
  let v := fold_left validate_avatar persona_avatars (mk_validation true [] []) in
  match images_found v with
  | [] => mk_validation false (issues v ++ [lit "No persona images found in HTML"])
            (images_found v)
  | _ :: _ => v
  end.

Definition validate_updates (self : PersonaImageUpdater) (w : World) : validation :=
  match fs_lookup (path_str (html_path self)) (files w) with
  | None => mk_validation false [lit "HTML file not found"] []
  | Some html_content => validate_soup (parse html_content)
  end.

(** *** Backup before write *)

Lemma path_str_snoc (dir : list text) (name : text) :
  path_str (dir ++ [name]) = path_str dir ++ lit "/" ++ name.
Proof.
  unfold path_str. rewrite map_app, concat_app. cbn [map concat].
  now rewrite app_nil_r.
Qed.

(** The backup never has the name of the document. *)
Lemma backup_is_another_file (self : PersonaImageUpdater) (timestamp : text) :
  text_eqb (path_str (html_path self)) (path_str (backup_path self timestamp)) = false.
Proof.
  destruct (text_eqb _ _) eqn:E; [|reflexivity].
  apply text_eqb_eq in E. unfold html_path, backup_path in E.
  rewrite !path_str_snoc in E. apply app_inv_head in E.
  vm_compute in E. discriminate.
Qed.

(** C4.  Whatever the document, the images and the disk: in preview mode, and
    when no persona was updated, the world is left as it was; otherwise the
    patcher either stops before touching anything, or copies the document to
    the time-stamped backup and stops there because the document cannot be
    opened for writing, or copies it and then writes the patched document.
    The document is therefore written only in a run that is not a preview
    and updated at least one persona, and only directly after its original
    content was copied to the backup. *)
Theorem backup_precedes_write (self : PersonaImageUpdater) (dry_run : bool) (w : World) :
  let out := update_html_with_images self dry_run w in
  let html := path_str (html_path self) in
  let bkp := path_str (backup_path self (strftime_compact (localtime (clock w)))) in
  (dry_run = true -> snd out = w)
  /\ (forall r, fst out = inr r -> updated_personas r = [] -> snd out = w)
  /\ (snd out = w
      \/ (dry_run = false
          /\ (exists e, fst out = inl e)
          /\ log (snd out) = log w ++ [FileCopy html bkp]
          /\ fs_lookup bkp (files (snd out)) = fs_lookup html (files w)
          /\ fs_lookup html (files (snd out)) = fs_lookup html (files w))
      \/ (dry_run = false
          /\ (exists st content,
                fs_lookup html (files w) = Some content
                /\ update_soup self false (parse content) = inr st
                /\ updated_personas (res st) <> []
                /\ fst out = inr (res st)
                /\ fs_lookup html (files (snd out)) = Some (prettify (soup_of st))
                /\ fs_lookup bkp (files (snd out)) = Some content)
          /\ log (snd out) = log w ++ [FileCopy html bkp; FileWrite html])).
Proof.
  cbv zeta. unfold update_html_with_images.
  destruct (fs_lookup (path_str (html_path self)) (files w)) as [content|] eqn:Hread;
    [|cbn; auto].
  destruct (update_soup self dry_run (parse content)) as [e|st] eqn:Hsoup;
    [cbn; auto|].
  destruct dry_run; [cbn; auto|].
  cbn [negb].
  destruct (updated_personas (res st)) as [|u us] eqn:Hup; [cbn; auto|].
  unfold bind, create_backup, write_text, ret. cbv beta. rewrite Hread.
  destruct (write_error (path_str (backup_path self _))) as [e|] eqn:Hbk;
    [cbn; auto|].
  cbn [files clock log].
  destruct (write_error (path_str (html_path self))) as [e|] eqn:Hw;
    cbn [fst snd files log].
  - split; [discriminate|]. split; [discriminate|].
    right; left. repeat split; eauto.
    + rewrite fs_lookup_store. congruence.
    + rewrite fs_lookup_store_other; [congruence|].
      rewrite text_eqb_sym. apply backup_is_another_file.
  - split; [discriminate|].
    split; [intros r Hr Hnil; inversion Hr; subst r; congruence|].
    right; right. split; [reflexivity|]. split.
    + exists st, content. repeat split; trivial.
      * rewrite Hup. discriminate.
      * apply fs_lookup_store.
      * rewrite fs_lookup_store_other by apply backup_is_another_file.
        rewrite fs_lookup_store. congruence.
    + now rewrite <- app_assoc.
Qed.

(** *** The loop, card by card *)

(** What the loop body decides for a card, from the card alone. *)
Inductive decision :=
| Skip
| Missing (persona_key : text)
| NoAvatar (persona_key : text)
| Fail (e : exn)
| Update (persona_key : text) (info : persona_info) (image_path : list text)
         (avatar_pos : path) (src alt : text).

Definition decide (self : PersonaImageUpdater) (card_node : node) : decision :=
  match find h3_selector card_node with
  | None => Skip
  | Some name_pos =>
      let name_text :=
        match subtree card_node name_pos with
        | Some name_elem => get_text_strip name_elem
        | None => []
        end in
      match match_persona name_text PERSONA_MAPPING with
      | None => Skip
      | Some (persona_key, persona_info) =>
          match get_latest_image self persona_key with
          | None => Missing persona_key
          | Some image_path =>
              match find avatar_selector card_node with
              | None => NoAvatar persona_key
              | Some avatar_pos =>
                  match get_web_image_path self image_path with
                  | inl e => Fail e
                  | inr src =>
                      Update persona_key persona_info image_path avatar_pos src
                        (html_name persona_info ++ lit " - " ++ description persona_info)
                  end
              end
          end
      end
  end.

Lemma process_card_decide (self : PersonaImageUpdater) (dry_run : bool)
    (st : soup_state) (card : path) :
  process_card self dry_run st card =
  let here := resolve (moves st) (0, card) in
  match node_at st here with
  | None => inr st
  | Some card_node =>
      match decide self card_node with
      | Skip => inr st
      | Missing key => inr (add_missing key st)
      | NoAvatar key => inr (add_error (lit "No avatar element found for " ++ key) st)
      | Fail e => inl e
      | Update key info image_path avatar_pos src alt =>
          if dry_run then inr st
          else inr (add_updated (mk_updated key (html_name info) (last image_path []))
                      (clear_and_append st (fst here, snd here ++ avatar_pos)
                         (new_img src alt)))
      end
  end.
Proof.
  unfold process_card, decide, create_image_tag. cbv zeta.
  destruct (node_at st (resolve (moves st) (0, card))) as [c|]; [|reflexivity].
  destruct (find h3_selector c) as [hp|]; [|reflexivity].
  destruct (match_persona _ PERSONA_MAPPING) as [[key info]|]; [|reflexivity].
  destruct (get_latest_image self key) as [image|]; [|reflexivity].
  destruct (find avatar_selector c) as [q|]; [|reflexivity].
  destruct (get_web_image_path self image) as [e|src]; reflexivity.
Qed.

(** The effect of the loop on the document alone. *)
Definition card_step (self : PersonaImageUpdater) (T : node) (p : path) : exn + node :=
  match subtree T p with
  | None => inr T
  | Some c =>
      match decide self c with
      | Fail e => inl e
      | Update _ _ _ q src alt => inr (set_children T (p ++ q) [new_img src alt])
      | _ => inr T
      end
  end.

Fixpoint run_tree (self : PersonaImageUpdater) (T : node) (cards : list path)
    : exn + node :=
  match cards with
  | [] => inr T
  | p :: rest =>
      match card_step self T p with
      | inr T' => run_tree self T' rest
      | inl e => inl e
      end
  end.

Definition main_tree (r : exn + soup_state) : exn + node :=
  match r with
  | inr st => inr (soup_of st)
  | inl e => inl e
  end.

(** A card as the loop leaves it. *)
Definition patched (self : PersonaImageUpdater) (c : node) : node :=
  match decide self c with
  | Update _ _ _ q src alt => set_children c q [new_img src alt]
  | _ => c
  end.

(** In a card, the name element and the avatar element lie apart: neither
    contains the other. *)
Definition name_apart_from_avatar (c : node) : bool :=
  match find h3_selector c, find avatar_selector c with
  | Some name_pos, Some avatar_pos => diverge name_pos avatar_pos
  | _, _ => true
  end.

(** No persona card lies inside another, and in every card the name and the
    avatar lie apart. *)
Definition cards_well_formed (soup : node) : bool :=
  all_diverge (find_all card_selector soup) &&
  forallb (fun p => match subtree soup p with
                    | Some c => name_apart_from_avatar c
                    | None => true
                    end)
          (find_all card_selector soup).

Lemma resolve_app (ms : list move) (m : move) (r : ref) :
  resolve (ms ++ [m]) r = apply_move (resolve ms r) m.
Proof. unfold resolve. now rewrite fold_left_app. Qed.

(** While no card lies inside another, the loop works on the document only,
    and what it does to the document is [run_tree]. *)
Lemma process_cards_main (self : PersonaImageUpdater) (cards : list path) :
  all_diverge cards = true ->
  forall (st : soup_state) (T : node) (det : list node),
  trees st = T :: det ->
  (forall c, In c cards -> resolve (moves st) (0, c) = (0, c)) ->
  main_tree (process_cards self false st cards) = run_tree self T cards.
Proof.
  induction cards as [|p rest IH]; intros Hdiv st T det HT HM.
  - cbn. unfold soup_of. now rewrite HT.
  - cbn [all_diverge] in Hdiv. apply andb_true_iff in Hdiv as [Hp Hrest].
    rewrite forallb_forall in Hp.
    cbn [process_cards run_tree]. rewrite process_card_decide. cbv zeta.
    rewrite (HM p (or_introl eq_refl)). unfold node_at, card_step.
    cbn [fst snd]. rewrite HT. cbn [nth_error].
    assert (HM' : forall c, In c rest -> resolve (moves st) (0, c) = (0, c))
      by (intros; apply HM; now right).
    destruct (subtree T p) as [c|] eqn:Hc; [|now apply (IH Hrest st T det)].
    destruct (decide self c) as [|key|key|e|key info image q src alt] eqn:Hd.
    + now apply (IH Hrest st T det).
    + now apply (IH Hrest (add_missing key st) T det).
    + now apply (IH Hrest (add_error _ st) T det).
    + reflexivity.
    + unfold clear_and_append, node_at. cbn [fst snd]. rewrite HT. cbn [nth_error].
      assert (HMnew : forall c0, In c0 rest ->
                apply_move (0, c0) (0, p ++ q, length (T :: det)) = (0, c0)).
      { intros c0 Hc0. unfold apply_move. cbn [fst snd Nat.eqb].
        now rewrite (diverge_strip_prefix _ _ (diverge_app_l p c0 q (Hp c0 Hc0))). }
      destruct (subtree T (p ++ q)) as [avatar|] eqn:Hav.
      * apply (IH Hrest _ (set_children T (p ++ q) [new_img src alt])
                 (det ++ children avatar)); [reflexivity|].
        intros c0 Hc0. cbn [add_updated moves]. rewrite resolve_app, (HM' c0 Hc0).
        now apply HMnew.
      * rewrite (set_children_nowhere [new_img src alt] (p ++ q) T Hav).
        now apply (IH Hrest _ T det).
Qed.

(** Cards that part ways with a position leave it alone. *)
Lemma card_step_frame (self : PersonaImageUpdater) (T T' : node) (p x : path) :
  card_step self T p = inr T' -> diverge p x = true -> subtree T' x = subtree T x.
Proof.
  unfold card_step. intros H Hd.
  destruct (subtree T p) as [c|]; [|now inversion H].
  destruct (decide self c); inversion H; subst; try reflexivity.
  apply subtree_set_children_diverge. now apply diverge_app_l.
Qed.

Lemma run_tree_frame (self : PersonaImageUpdater) (cards : list path) (x : path) :
  forall T T', run_tree self T cards = inr T' ->
  (forall p, In p cards -> diverge p x = true) ->
  subtree T' x = subtree T x.
Proof.
  induction cards as [|p rest IH]; intros T T' H Hd; cbn [run_tree] in H.
  - now inversion H.
  - destruct (card_step self T p) as [e|T1] eqn:E; [discriminate|].
    rewrite (IH T1 T' H) by (intros; apply Hd; now right).
    apply (card_step_frame self T T1 p x E). apply Hd. now left.
Qed.

(** After the loop every card is the patched card, and no card failed. *)
Lemma run_tree_patched (self : PersonaImageUpdater) (cards : list path) :
  all_diverge cards = true ->
  forall T T', run_tree self T cards = inr T' ->
  forall p c, In p cards -> subtree T p = Some c ->
  (forall e, decide self c <> Fail e) /\ subtree T' p = Some (patched self c).
Proof.
  induction cards as [|p0 rest IH]; intros Hdiv T T' H p c Hin Hc; [destruct Hin|].
  cbn [all_diverge] in Hdiv. apply andb_true_iff in Hdiv as [Hp0 Hrest].
  rewrite forallb_forall in Hp0. cbn [run_tree] in H.
  destruct (card_step self T p0) as [e|T1] eqn:E; [discriminate|].
  destruct (list_eq_dec Nat.eq_dec p0 p) as [->|Hne].
  - assert (Hfr : subtree T' p = subtree T1 p).
    { apply (run_tree_frame self rest p T1 T' H).
      intros p' Hp'. rewrite diverge_sym. now apply Hp0. }
    rewrite Hfr. unfold card_step in E. rewrite Hc in E. unfold patched.
    destruct (decide self c) as [|key|key|e|key info image q src alt];
      inversion E; subst; try (split; [discriminate|assumption]).
    split; [discriminate|]. now apply subtree_set_children_under.
  - destruct Hin as [Hin|Hin]; [contradiction|].
    apply (IH Hrest T1 T' H p c Hin).
    rewrite (card_step_frame self T T1 p0 p E); [exact Hc|now apply Hp0].
Qed.

Lemma img_is_no_card (src alt : text) :
  find_all_kids (find_all_from card_selector) 0 [new_img src alt] = [].
Proof. reflexivity. Qed.

Lemma img_is_no_name (src alt : text) :
  find_all_kids (find_all_from h3_selector) 0 [new_img src alt] = [].
Proof. reflexivity. Qed.

Lemma img_is_no_avatar (src alt : text) :
  find_all_kids (find_all_from avatar_selector) 0 [new_img src alt] = [].
Proof. reflexivity. Qed.

Lemma find_Some_In (sel : selector) (n : node) (q : path) :
  find sel n = Some q -> In q (find_all sel n).
Proof.
  unfold find. destruct (find_all sel n); [discriminate|].
  intros H; inversion H. now left.
Qed.

Lemma matches_is_element (sel : selector) (m : node) :
  matches sel m = true -> exists name attrs kids, m = Elem name attrs kids.
Proof. destruct m; try discriminate. eauto. Qed.

(** The avatar a card is updated at is an element of the card. *)
Lemma decide_update_avatar (self : PersonaImageUpdater) (c : node)
    (key : text) (info : persona_info) (image : list text) (q : path)
    (src alt : text) :
  decide self c = Update key info image q src alt ->
  q <> [] /\ exists name attrs old, subtree c q = Some (Elem name attrs old).
Proof.
  unfold decide.
  destruct (find h3_selector c) as [hp|]; [|discriminate].
  destruct (match_persona _ PERSONA_MAPPING) as [[key' info']|]; [|discriminate].
  destruct (get_latest_image self key'); [|discriminate].
  destruct (find avatar_selector c) as [q'|] eqn:Hq; [|discriminate].
  destruct (get_web_image_path self _); [discriminate|].
  intros H. inversion H; subst. apply find_Some_In in Hq.
  split; [now apply (find_all_nonempty avatar_selector c)|].
  destruct (find_all_sound _ _ _ Hq) as (m & Hm & Hmatch).
  destruct (matches_is_element _ _ Hmatch) as (name & attrs & old & ->). eauto.
Qed.

(** The loop neither adds nor removes cards. *)
Lemma card_step_cards (self : PersonaImageUpdater) (T T' : node) (p : path) :
  all_diverge (find_all card_selector T) = true ->
  In p (find_all card_selector T) ->
  card_step self T p = inr T' ->
  find_all card_selector T' = find_all card_selector T.
Proof.
  intros Hdiv Hin. unfold card_step.
  destruct (subtree T p) as [c|] eqn:Hc; [|intros H; now inversion H].
  destruct (decide self c) as [|key|key|e|key info image q src alt] eqn:Hd;
    intros H; inversion H; subst; try reflexivity.
  destruct (decide_update_avatar self c key info image q src alt Hd)
    as (Hq & name & attrs & old & Hav).
  assert (Hsub : subtree T (p ++ q) = Some (Elem name attrs old))
    by (now rewrite subtree_app, Hc).
  rewrite (find_all_set_children card_selector [new_img src alt]
             (img_is_no_card src alt) (p ++ q) T name attrs old Hsub).
  apply filter_all. intros x Hx.
  destruct (below (p ++ q) x) eqn:Hb; [|reflexivity].
  apply below_inv in Hb as (r & Hr & ->).
  assert (Hne : p <> (p ++ q) ++ r).
  { rewrite <- app_assoc. intros E. rewrite <- (app_nil_r p) in E at 1.
    apply app_inv_head in E. symmetry in E. apply app_eq_nil in E as [E _].
    contradiction. }
  pose proof (all_diverge_In _ p ((p ++ q) ++ r) Hdiv Hin Hx Hne) as Hd'.
  rewrite <- app_assoc, diverge_prefix in Hd'. discriminate.
Qed.

Lemma run_tree_cards (self : PersonaImageUpdater) (cards : list path) :
  forall T T',
  all_diverge (find_all card_selector T) = true ->
  (forall p, In p cards -> In p (find_all card_selector T)) ->
  run_tree self T cards = inr T' ->
  find_all card_selector T' = find_all card_selector T.
Proof.
  induction cards as [|p rest IH]; intros T T' Hdiv Hin H; cbn [run_tree] in H.
  - now inversion H.
  - destruct (card_step self T p) as [e|T1] eqn:E; [discriminate|].
    pose proof (card_step_cards self T T1 p Hdiv (Hin p (or_introl eq_refl)) E) as Hc.
    rewrite <- Hc. apply (IH T1 T'); rewrite ?Hc; auto.
    intros; apply Hin; now right.
Qed.

(** A patched card is decided as it was before, and holds the one image. *)
Lemma decide_patched (self : PersonaImageUpdater) (c : node)
    (key : text) (info : persona_info) (image : list text) (q : path)
    (src alt : text) :
  name_apart_from_avatar c = true ->
  decide self c = Update key info image q src alt ->
  decide self (set_children c q [new_img src alt]) = Update key info image q src alt
  /\ exists name attrs,
       subtree (set_children c q [new_img src alt]) q =
       Some (Elem name attrs [new_img src alt]).
Proof.
  intros Hapart Hd.
  destruct (decide_update_avatar self c key info image q src alt Hd)
    as (Hq & name & attrs & old & Hav).
  split.
  - unfold name_apart_from_avatar in Hapart.
    pose proof Hd as Hd0. unfold decide in Hd0.
    destruct (find h3_selector c) as [hp|] eqn:Hh; [|discriminate].
    destruct (match_persona _ PERSONA_MAPPING) as [[key' info']|] eqn:Hm;
      [|discriminate].
    destruct (get_latest_image self key') as [image'|] eqn:Hl; [|discriminate].
    destruct (find avatar_selector c) as [q'|] eqn:Hq'; [|discriminate].
    destruct (get_web_image_path self image') as [e|src'] eqn:Hw; [discriminate|].
    inversion Hd0; subst.
    unfold decide.
    rewrite (find_set_children h3_selector [new_img src _] (img_is_no_name src _)
               q hp c name attrs old Hav Hh).
    2:{ apply diverge_not_below. now rewrite diverge_sym. }
    rewrite (find_set_children avatar_selector [new_img src _]
               (img_is_no_avatar src _) q q c name attrs old Hav Hq' (below_self q)).
    rewrite (subtree_set_children_diverge [new_img src _] q hp).
    2:{ now rewrite diverge_sym. }
    now rewrite Hm, Hl, Hw.
  - exists name, attrs.
    pose proof (subtree_set_children_under [new_img src alt] q [] c _ Hav) as E.
    rewrite app_nil_r in E. exact E.
Qed.

(** On a document whose cards are already patched the loop changes nothing. *)
Lemma run_tree_fixed (self : PersonaImageUpdater) (T : node) (cards : list path) :
  (forall p, In p cards ->
     exists c, subtree T p = Some c /\
       match decide self c with
       | Fail _ => False
       | Update _ _ _ q src alt =>
           exists name attrs, subtree c q = Some (Elem name attrs [new_img src alt])
       | _ => True
       end) ->
  run_tree self T cards = inr T.
Proof.
  induction cards as [|p rest IH]; intros H; [reflexivity|].
  cbn [run_tree].
  assert (E : card_step self T p = inr T).
  { destruct (H p (or_introl eq_refl)) as (c & Hc & Hs).
    unfold card_step. rewrite Hc.
    destruct (decide self c) as [|key|key|e|key info image q src alt];
      try reflexivity; [destruct Hs|].
    destruct Hs as (name & attrs & Hq). f_equal.
    apply (set_children_same [new_img src alt] (p ++ q) T name attrs).
    now rewrite subtree_app, Hc. }
  rewrite E. apply IH. intros; apply H; now right.
Qed.

(** Patching a document with well-formed cards a second time, against the
    same images, leaves it as the first patch left it. *)
Lemma update_soup_idempotent (self : PersonaImageUpdater) (soup : node)
    (st1 : soup_state) :
  cards_well_formed soup = true ->
  update_soup self false soup = inr st1 ->
  exists st2,
    update_soup self false (soup_of st1) = inr st2 /\ soup_of st2 = soup_of st1.
Proof.
  intros Hwf H1. unfold cards_well_formed in Hwf.
  apply andb_true_iff in Hwf as [Hdiv Hapart]. rewrite forallb_forall in Hapart.
  set (cards := find_all card_selector soup) in *.
  assert (R1 : run_tree self soup cards = inr (soup_of st1)).
  { rewrite <- (process_cards_main self cards Hdiv (mk_state [soup] [] empty_results)
                  soup [] eq_refl (fun c _ => eq_refl)).
    unfold update_soup in H1. fold cards in H1. now rewrite H1. }
  assert (Hcards : find_all card_selector (soup_of st1) = cards).
  { apply (run_tree_cards self cards soup (soup_of st1) Hdiv (fun p H => H) R1). }
  assert (R2 : run_tree self (soup_of st1) cards = inr (soup_of st1)).
  { apply run_tree_fixed. intros p Hp.
    destruct (find_all_sound _ _ _ Hp) as (c & Hc & _).
    destruct (run_tree_patched self cards Hdiv soup (soup_of st1) R1 p c Hp Hc)
      as [Hnofail Hpatched].
    exists (patched self c). split; [exact Hpatched|].
    specialize (Hapart p Hp). rewrite Hc in Hapart.
    unfold patched.
    destruct (decide self c) as [|key|key|e|key info image q src alt] eqn:Hd;
      try (rewrite Hd; exact I).
    - now destruct (Hnofail e).
    - destruct (decide_patched self c key info image q src alt Hapart Hd) as [Hd' Hq].
      now rewrite Hd'. }
  pose proof (process_cards_main self cards Hdiv
                (mk_state [soup_of st1] [] empty_results) (soup_of st1) [] eq_refl
                (fun c _ => eq_refl)) as G.
  rewrite R2 in G. unfold update_soup. rewrite Hcards.
  destruct (process_cards self false _ cards) as [e|st2]; [discriminate|].
  exists st2. split; [reflexivity|]. now inversion G.
Qed.

(** Every avatar the first patch updated holds the one image and nothing
    else. *)
Lemma updated_avatar_holds_one_image (self : PersonaImageUpdater) (soup : node)
    (st1 : soup_state) (p : path) (c : node) (key : text) (info : persona_info)
    (image : list text) (q : path) (src alt : text) :
  cards_well_formed soup = true ->
  update_soup self false soup = inr st1 ->
  In p (find_all card_selector soup) ->
  subtree soup p = Some c ->
  decide self c = Update key info image q src alt ->
  exists name attrs,
    subtree (soup_of st1) (p ++ q) = Some (Elem name attrs [new_img src alt]).
Proof.
  intros Hwf H1 Hp Hc Hd. unfold cards_well_formed in Hwf.
  apply andb_true_iff in Hwf as [Hdiv Hapart]. rewrite forallb_forall in Hapart.
  assert (R1 : run_tree self soup (find_all card_selector soup) = inr (soup_of st1)).
  { rewrite <- (process_cards_main self _ Hdiv (mk_state [soup] [] empty_results)
                  soup [] eq_refl (fun c _ => eq_refl)).
    unfold update_soup in H1. now rewrite H1. }
  destruct (run_tree_patched self _ Hdiv soup (soup_of st1) R1 p c Hp Hc) as [_ Hpat].
  specialize (Hapart p Hp). rewrite Hc in Hapart.
  destruct (decide_patched self c key info image q src alt Hapart Hd)
    as [_ (name & attrs & Hq)].
  exists name, attrs. rewrite subtree_app, Hpat. unfold patched. now rewrite Hd.
Qed.

(** *** The style rule is inserted once *)

(** Reading leaves a text without line ends where it is. *)
Definition plain (p : text) : bool :=
  forallb (fun c => negb (c =? 13)%N && negb (c =? 10)%N) p.

Lemma starts_with_universal_newlines (p : text) :
  plain p = true ->
  forall s, starts_with p (universal_newlines false s) = starts_with p s.
Proof.
  induction p as [|x p IH]; intros Hp s; [reflexivity|].
  cbn [plain forallb] in Hp. apply andb_true_iff in Hp as [Hx Hp].
  apply andb_true_iff in Hx as [H13 H10].
  apply negb_true_iff in H13, H10.
  destruct s as [|c s]; [reflexivity|]. cbn [universal_newlines].
  destruct (N.eqb_spec c 13) as [->|Hc].
  - cbn [starts_with]. now rewrite H13, H10.
  - rewrite andb_false_r. cbn [starts_with]. now rewrite (IH Hp).
Qed.

Lemma contains_universal_newlines (p : text) :
  plain p = true -> p <> [] ->
  forall s b, contains p (universal_newlines b s) = contains p s.
Proof.
  intros Hp Hne. destruct p as [|x p]; [congruence|].
  pose proof Hp as Hp'. cbn [plain forallb] in Hp'.
  apply andb_true_iff in Hp' as [Hx _]. apply andb_true_iff in Hx as [H13 H10].
  apply negb_true_iff in H13, H10.
  induction s as [|c s IH]; intros b; [reflexivity|].
  cbn [universal_newlines].
  destruct (N.eqb_spec c 13) as [->|Hc].
  - cbn [contains starts_with]. now rewrite H13, H10, IH.
  - destruct (N.eqb_spec c 10) as [->|Hc'].
    + destruct b; cbn [andb].
      * rewrite IH. cbn [contains starts_with]. now rewrite H10.
      * cbn [contains starts_with]. now rewrite H10, IH.
    + cbn [andb].
      assert (E : c :: universal_newlines false s = universal_newlines false (c :: s)).
      { cbn [universal_newlines].
        destruct (N.eqb_spec c 13); [contradiction|].
        now destruct (N.eqb_spec c 10). }
      cbn [contains]. rewrite IH. rewrite E at 1.
      now rewrite (starts_with_universal_newlines (x :: p) Hp).
Qed.

Lemma contains_read_text (raw : text) :
  contains (lit ".persona-image") (read_text raw) = contains (lit ".persona-image") raw.
Proof. now apply contains_universal_newlines. Qed.

(** A text without a carriage return is read as it is. *)
Lemma read_text_no_cr (raw : text) :
  forallb (fun c => negb (c =? 13)%N) raw = true -> read_text raw = raw.
Proof.
  unfold read_text. induction raw as [|c raw IH]; [reflexivity|].
  cbn [forallb universal_newlines]. intros H. apply andb_true_iff in H as [Hc H].
  apply negb_true_iff in Hc. rewrite Hc, andb_false_r. now rewrite IH.
Qed.

Lemma css_block_names_rule : contains (lit ".persona-image") persona_image_css = true.
Proof. reflexivity. Qed.

(** C10, as the code has it.  The check that guards the insertion is a
    substring test on the text of the document for [.persona-image], dot
    included.  Whenever the text contains it anywhere, say in a comment,
    [add_persona_image_css] returns true and leaves the world, the document
    included, as it was, in preview mode or not.  The class a patch run gives
    its images is [persona-image] without the dot and does not contain it;
    and whenever the text does not contain it, has a [.persona-avatar] rule
    and can be written, the call inserts the style rule into the document. *)
Theorem css_presence_is_substring_test (self : PersonaImageUpdater)
    (dry_run : bool) (w : World) (raw : text) :
  fs_lookup (path_str (html_path self)) (files w) = Some raw ->
  (contains (lit ".persona-image") raw = true ->
   add_persona_image_css self dry_run w = (inr true, w))
  /\ (forall src alt,
        contains (lit ".persona-image") (get_attr (lit "class") (new_img src alt)) =
        false)
  /\ (contains (lit ".persona-image") raw = false ->
      write_error (path_str (html_path self)) = None ->
      forall k, search_avatar_rule 0 (read_text raw) = Some k ->
      fst (add_persona_image_css self false w) = inr true
      /\ fs_lookup (path_str (html_path self))
           (files (snd (add_persona_image_css self false w))) =
         Some (firstn k (read_text raw) ++ persona_image_css ++
               skipn k (read_text raw))).
Proof.
  intros Hread. split; [|split].
  - intros Hin. unfold add_persona_image_css. rewrite Hread. cbv zeta.
    now rewrite contains_read_text, Hin.
  - reflexivity.
  - intros Hnot Hw k Hk. unfold add_persona_image_css, bind, write_text, ret.
    rewrite Hread. cbv zeta. rewrite contains_read_text, Hnot, Hk, Hw.
    cbn [fst snd files]. split; [reflexivity|apply fs_lookup_store].
Qed.

(** After a successful insertion the document contains the name of the rule,
    so a second call changes nothing: two calls in a row leave the world as
    one call does. *)
Lemma add_persona_image_css_once (self : PersonaImageUpdater) (w : World) :
  snd (add_persona_image_css self false (snd (add_persona_image_css self false w))) =
  snd (add_persona_image_css self false w).
Proof.
  unfold add_persona_image_css at 2 3.
  destruct (fs_lookup (path_str (html_path self)) (files w)) as [c|] eqn:Hread.
  2:{ cbn [snd]. unfold add_persona_image_css. now rewrite Hread. }
  cbv zeta.
  destruct (contains (lit ".persona-image") (read_text c)) eqn:Hin.
  { cbn [snd]. unfold add_persona_image_css. rewrite Hread. cbv zeta. now rewrite Hin. }
  destruct (search_avatar_rule 0 (read_text c)) as [k|] eqn:Hs.
  2:{ cbn [snd]. unfold add_persona_image_css. rewrite Hread. cbv zeta.
      now rewrite Hin, Hs. }
  unfold bind, write_text, ret. cbv beta.
  destruct (write_error (path_str (html_path self))) as [e|] eqn:Hw.
  { cbn [snd]. unfold add_persona_image_css, bind, write_text, ret.
    rewrite Hread. cbv zeta. now rewrite Hin, Hs, Hw. }
  cbn [snd]. unfold add_persona_image_css. cbn [files].
  rewrite fs_lookup_store. cbv zeta. rewrite contains_read_text.
  assert (Hnow : contains (lit ".persona-image")
                   (firstn k (read_text c) ++ persona_image_css ++
                    skipn k (read_text c)) = true).
  { apply contains_app_l, contains_app_r, css_block_names_rule. }
  now rewrite Hnow.
Qed.

(** The class the patcher gives its [img] elements is [persona-image],
    without the dot, and is not an occurrence the check reacts to. *)
Remark img_class_is_not_the_rule (src alt : text) :
  contains (lit ".persona-image") (get_attr (lit "class") (new_img src alt)) = false.
Proof. reflexivity. Qed.

(** *** What validation reports *)

(** Whether the first image of an avatar, if it has one, names a file that
    exists. *)
Definition image_file_ok (avatar : node) : bool :=
  match find img_selector avatar with
  | Some pos =>
      match subtree avatar pos with
      | Some img => exists_under_root (get_attr (lit "src") img)
      | None => true
      end
  | None => true
  end.

Lemma validate_avatar_valid (v : validation) (avatar : node) :
  valid (validate_avatar v avatar) = valid v && image_file_ok avatar.
Proof.
  unfold validate_avatar, image_file_ok.
  destruct (find img_selector avatar) as [pos|]; [|now rewrite andb_true_r].
  destruct (subtree avatar pos) as [img|]; [|now rewrite andb_true_r].
  destruct (exists_under_root (get_attr (lit "src") img)); cbn [negb];
    destruct (get_attr (lit "alt") img); cbn [valid];
    now rewrite ?andb_true_r, ?andb_false_r.
Qed.

(** Over the avatars, [valid] only ever records whether the files exist: a
    missing description adds an issue and leaves [valid] alone. *)
Lemma validate_fold_valid (avatars : list node) (v : validation) :
  valid (fold_left validate_avatar avatars v) =
  valid v && forallb image_file_ok avatars.
Proof.
  revert v; induction avatars as [|a avatars IH]; intros v; cbn [fold_left forallb].
  - now rewrite andb_true_r.
  - now rewrite IH, validate_avatar_valid, andb_assoc.
Qed.

(** A document in which no image is found is reported invalid. *)
Lemma validate_no_images_invalid (soup : node) :
  images_found (validate_soup soup) = [] -> valid (validate_soup soup) = false.
Proof.
  unfold validate_soup.
  destruct (images_found (fold_left validate_avatar _ _)) eqn:E; cbn [valid images_found].
  - reflexivity.
  - rewrite E. discriminate.
Qed.

(** *** Further properties of the patcher *)

Lemma max_by_mtime_spec (l : list (text * N)) :
  forall best,
  In (max_by_mtime best l) (best :: l)
  /\ forall x, In x (best :: l) -> (snd x <= snd (max_by_mtime best l))%N.
Proof.
  induction l as [|y l IH]; intros best; cbn [max_by_mtime].
  - split; [now left|]. intros x [<-|[]]. lia.
  - destruct (N.ltb_spec (snd best) (snd y)) as [Hlt|Hge].
    + destruct (IH y) as [Hin Hmax]. split.
      * right. exact Hin.
      * intros x [<-|Hx]; [|now apply Hmax].
        specialize (Hmax y (or_introl eq_refl)). lia.
    + destruct (IH best) as [Hin Hmax]. split.
      * destruct Hin as [Hin|Hin]; [now left|right; now right].
      * intros x [<-|[<-|Hx]].
        -- apply Hmax. now left.
        -- specialize (Hmax best (or_introl eq_refl)). lia.
        -- apply Hmax. now right.
Qed.

Definition is_image_of (persona_key name : text) : bool :=
  glob_match persona_key (lit ".png") name || glob_match persona_key (lit ".jpg") name.

(** X10.  The image chosen for a persona of the mapping is an entry of the
    directory whose name starts with the persona key and an underscore and
    ends in [.png] or [.jpg], and no such entry has a later modification
    time; no image is chosen exactly when the directory has no such entry. *)
Theorem latest_image_is_newest (self : PersonaImageUpdater) (persona_key : text) :
  In persona_key (map fst PERSONA_MAPPING) ->
  match get_latest_image self persona_key with
  | Some image =>
      exists name mtime,
        image = images_dir self ++ [name]
        /\ In (name, mtime) listing
        /\ is_image_of persona_key name = true
        /\ forall name' mtime',
             In (name', mtime') listing -> is_image_of persona_key name' = true ->
             (mtime' <= mtime)%N
  | None =>
      forall name' mtime',
        In (name', mtime') listing -> is_image_of persona_key name' = false
  end.
Proof.
  intros _. unfold get_latest_image.
  set (png := filter (fun e => glob_match persona_key (lit ".png") (fst e)) listing).
  set (jpg := filter (fun e => glob_match persona_key (lit ".jpg") (fst e)) listing).
  assert (Hall : forall e, In e (png ++ jpg) <->
                           In e listing /\ is_image_of persona_key (fst e) = true).
  { intros e. unfold png, jpg, is_image_of.
    rewrite in_app_iff, !filter_In, orb_true_iff. split.
    - intros [[H1 H2]|[H1 H2]]; split; auto.
    - intros [H1 [H2|H2]]; [left|right]; split; assumption. }
  destruct (png ++ jpg) as [|first rest] eqn:E.
  - intros name' mtime' Hin.
    destruct (is_image_of persona_key name') eqn:Hm; [|reflexivity].
    destruct (proj2 (Hall (name', mtime')) (conj Hin Hm)).
  - destruct (max_by_mtime_spec rest first) as [Hin Hmax].
    destruct (max_by_mtime first rest) as [name mtime] eqn:Em.
    exists name, mtime. apply Hall in Hin as [Hin Hm]. repeat split; trivial.
    intros name' mtime' Hin' Hm'.
    apply (Hmax (name', mtime')). apply Hall. auto.
Qed.

Lemma parent_html_path (self : PersonaImageUpdater) :
  parent (html_path self) = project_root self.
Proof. unfold parent, html_path. apply removelast_last. Qed.

Lemma relative_to_app (root rest : list text) :
  relative_to (root ++ rest) root = Some rest.
Proof.
  induction root as [|r root IH]; cbn; [now destruct rest|]. now rewrite text_eqb_refl.
Qed.

Lemma replace_char_has_no_backslash (s : text) :
  forallb (fun c => negb (c =? 92)%N) (replace_char 92 47 s) = true.
Proof.
  induction s as [|c s IH]; [reflexivity|].
  unfold replace_char in *. cbn [map forallb]. rewrite IH, andb_true_r.
  destruct (N.eqb_spec c 92); [reflexivity|]. now apply negb_true_iff, N.eqb_neq.
Qed.

(** X11.  The web path of an image is its path below the project root,
    joined with slashes and free of backslashes; an image that is not below
    the project root raises a [ValueError], the second attempt in the handler
    being relative to the same directory and so never succeeding. *)
Theorem web_path_is_relative_to_root (self : PersonaImageUpdater) :
  (forall image,
     get_web_image_path self image =
     match relative_to image (project_root self) with
     | Some rel => inr (replace_char 92 47 (rel_str rel))
     | None => inl (ValueError (path_str image ++ lit " is not in the subpath of " ++
                                path_str (project_root self)))
     end)
  /\ (forall rest,
        get_web_image_path self (project_root self ++ rest) =
        inr (replace_char 92 47 (rel_str rest)))
  /\ (forall image web,
        get_web_image_path self image = inr web ->
        forallb (fun c => negb (c =? 92)%N) web = true).
Proof.
  assert (H : forall image,
     get_web_image_path self image =
     match relative_to image (project_root self) with
     | Some rel => inr (replace_char 92 47 (rel_str rel))
     | None => inl (ValueError (path_str image ++ lit " is not in the subpath of " ++
                                path_str (project_root self)))
     end).
  { intros image. unfold get_web_image_path. rewrite parent_html_path.
    now destruct (relative_to image (project_root self)). }
  split; [exact H|]. split.
  - intros rest. now rewrite H, relative_to_app.
  - intros image web. rewrite H.
    destruct (relative_to image (project_root self)); [|discriminate].
    intros E. inversion E. apply replace_char_has_no_backslash.
Qed.

Lemma process_cards_dry_run (self : PersonaImageUpdater) (cards : list path) :
  forall st st',
  process_cards self true st cards = inr st' ->
  trees st' = trees st /\ moves st' = moves st
  /\ updated_personas (res st') = updated_personas (res st).
Proof.
  induction cards as [|card rest IH]; intros st st' H; cbn [process_cards] in H.
  - inversion H. auto.
  - rewrite process_card_decide in H. cbv zeta in H.
    destruct (node_at st _) as [c|]; [|now apply IH].
    destruct (decide self c); try discriminate;
      try (now apply IH);
      apply IH in H as (-> & -> & ->); auto.
Qed.

(** X12.  A preview run that returns has not touched the parsed document
    and reports no updated persona. *)
Theorem dry_run_leaves_document (self : PersonaImageUpdater) (soup : node)
    (st : soup_state) :
  update_soup self true soup = inr st ->
  trees st = [soup] /\ soup_of st = soup /\ updated_personas (res st) = [].
Proof.
  intros H. unfold update_soup in H.
  apply process_cards_dry_run in H as (Ht & _ & Hu). cbn in Ht, Hu.
  unfold soup_of. rewrite Ht. auto.
Qed.

Lemma backup_path_inj (self : PersonaImageUpdater) (d1 d2 : datetime) :
  datetime_ok d1 = true -> datetime_ok d2 = true ->
  path_str (backup_path self (strftime_compact d1)) =
  path_str (backup_path self (strftime_compact d2)) ->
  d1 = d2.
Proof.
  intros H1 H2 E. unfold backup_path in E. rewrite !path_str_snoc in E.
  do 3 apply app_inv_head in E.
  apply app_inj_length in E as [E _]; [|now rewrite !strftime_compact_length].
  now apply strftime_compact_inj.
Qed.

(** X13.  The name of a backup is fixed by the calendar second it is made
    in: making a backup leaves the backup of every other second as it was,
    so only a second run within the same second can overwrite a backup. *)
Theorem backup_keeps_earlier_backups (self : PersonaImageUpdater) (w : World)
    (earlier : datetime) :
  datetime_ok earlier = true ->
  datetime_ok (localtime (clock w)) = true ->
  localtime (clock w) <> earlier ->
  fs_lookup (path_str (backup_path self (strftime_compact earlier)))
    (files (snd (create_backup self w))) =
  fs_lookup (path_str (backup_path self (strftime_compact earlier))) (files w).
Proof.
  intros H1 H2 Hne. unfold create_backup.
  destruct (fs_lookup (path_str (html_path self)) (files w)); [|reflexivity].
  destruct (write_error _); [reflexivity|]. cbn [snd files].
  apply fs_lookup_store_other.
  destruct (text_eqb _ _) eqn:E; [|reflexivity].
  apply text_eqb_eq in E. now apply backup_path_inj in E.
Qed.

(** X14.  On a page where no persona card lies inside another, a patch run
    that returns has changed nothing at any position apart from the cards,
    has turned every card into its patched form, and has neither added nor
    removed a card. *)
Theorem patch_changes_cards_only (self : PersonaImageUpdater) (soup : node)
    (st1 : soup_state) :
  all_diverge (find_all card_selector soup) = true ->
  update_soup self false soup = inr st1 ->
  (forall x,
     (forall p, In p (find_all card_selector soup) -> diverge p x = true) ->
     subtree (soup_of st1) x = subtree soup x)
  /\ (forall p c,
        In p (find_all card_selector soup) -> subtree soup p = Some c ->
        subtree (soup_of st1) p = Some (patched self c))
  /\ find_all card_selector (soup_of st1) = find_all card_selector soup.
Proof.
  intros Hdiv H1.
  assert (R1 : run_tree self soup (find_all card_selector soup) = inr (soup_of st1)).
  { rewrite <- (process_cards_main self _ Hdiv (mk_state [soup] [] empty_results)
                  soup [] eq_refl (fun c _ => eq_refl)).
    unfold update_soup in H1. now rewrite H1. }
  split; [|split].
  - intros x Hx. exact (run_tree_frame self _ x soup (soup_of st1) R1 Hx).
  - intros p c Hp Hc.
    exact (proj2 (run_tree_patched self _ Hdiv soup (soup_of st1) R1 p c Hp Hc)).
  - exact (run_tree_cards self _ soup (soup_of st1) Hdiv (fun p H => H) R1).
Qed.

(** *** The style rule, further *)

(** X15.  A preview of the style rule never changes the world; a call that
    returns false has changed nothing; and when the document can be opened
    for writing the preview returns what the real call returns. *)
Theorem css_preview_and_refusal_change_nothing (self : PersonaImageUpdater)
    (dry_run : bool) (w : World) :
  snd (add_persona_image_css self true w) = w
  /\ (fst (add_persona_image_css self dry_run w) = inr false ->
      snd (add_persona_image_css self dry_run w) = w)
  /\ (write_error (path_str (html_path self)) = None ->
      fst (add_persona_image_css self false w) = fst (add_persona_image_css self true w)).
Proof.
  unfold add_persona_image_css, bind, write_text, ret.
  destruct (fs_lookup (path_str (html_path self)) (files w)) as [c|]; [|cbn; auto].
  cbv zeta.
  destruct (contains (lit ".persona-image") (read_text c)); [cbn; auto|].
  destruct (search_avatar_rule 0 (read_text c)) as [k|]; [|cbn; auto].
  split; [reflexivity|]. split.
  - destruct dry_run; [discriminate|].
    destruct (write_error (path_str (html_path self))); discriminate.
  - intros Hw. now rewrite Hw.
Qed.

Lemma skipn_cons_nth (A : Type) (n : nat) (l r : list A) (x : A) :
  skipn n l = x :: r -> nth_error l n = Some x /\ skipn (S n) l = r.
Proof.
  revert l; induction n as [|n IH]; intros [|y l] H; cbn in H; try discriminate.
  - inversion H. auto.
  - now apply IH.
Qed.

Lemma firstn_plus (A : Type) (i n : nat) (l : list A) :
  firstn (i + n) l = firstn i l ++ firstn n (skipn i l).
Proof.
  revert l; induction i as [|i IH]; intros [|y l]; cbn; try reflexivity.
  - now rewrite firstn_nil.
  - now rewrite IH.
Qed.

Lemma starts_with_firstn (p s : text) (n : nat) :
  starts_with p s = true -> length p <= n -> starts_with p (firstn n s) = true.
Proof.
  revert s n; induction p as [|x p IH]; intros s n H Hn; [reflexivity|].
  destruct s as [|y s]; [discriminate|]. destruct n as [|n]; [cbn in Hn; lia|].
  cbn in *. apply andb_true_iff in H as [H1 H2]. rewrite H1.
  apply IH; [exact H2|lia].
Qed.

Lemma starts_with_contains (p s : text) : starts_with p s = true -> contains p s = true.
Proof. intros H. destruct s; cbn [contains]; now rewrite H. Qed.

(** A match of the pattern starts with the name of the rule and ends with a
    closing brace. *)
Lemma match_avatar_rule_spec (s : text) (len : nat) :
  match_avatar_rule s = Some len ->
  starts_with (lit ".persona-avatar") s = true
  /\ 17 <= len
  /\ nth_error s (len - 1) = Some 125%N.
Proof.
  unfold match_avatar_rule.
  destruct (starts_with (lit ".persona-avatar") s) eqn:Hstart; [|discriminate].
  set (spaces := span_length is_space (skipn (length (lit ".persona-avatar")) s)).
  destruct (skipn spaces (skipn (length (lit ".persona-avatar")) s))
    as [|c body] eqn:E1; [discriminate|].
  intros H.
  destruct c as [|q]; [discriminate|].
  repeat (destruct q as [q|q|]; cbv iota in H; try discriminate).
  set (inside := span_length (fun c => negb (c =? 125)%N) body) in *.
  destruct (skipn inside body) as [|c tail] eqn:E2; [discriminate|].
  destruct c as [|q]; [discriminate|].
  repeat (destruct q as [q|q|]; cbv iota in H; try discriminate).
  inversion H; subst len. clear H.
  rewrite skipn_skipn in E1. apply skipn_cons_nth in E1 as [_ E1].
  rewrite <- E1, skipn_skipn in E2. apply skipn_cons_nth in E2 as [E2 _].
  change (length (lit ".persona-avatar")) with 15 in *.
  split; [reflexivity|]. split; [lia|].
  rewrite <- E2. f_equal. lia.
Qed.

(** The search returns the end of a match that starts somewhere in the text. *)
Lemma search_avatar_rule_spec (s : text) :
  forall pos e,
  search_avatar_rule pos s = Some e ->
  exists i len, e = pos + i + len /\ match_avatar_rule (skipn i s) = Some len.
Proof.
  induction s as [|c s IH]; intros pos e H; cbn [search_avatar_rule] in H.
  - destruct (match_avatar_rule []) as [len|] eqn:E; [|discriminate].
    inversion H. exists 0, len. split; [lia|exact E].
  - destruct (match_avatar_rule (c :: s)) as [len|] eqn:E.
    + inversion H. exists 0, len. split; [lia|exact E].
    + apply IH in H as (i & len & -> & Hm). exists (S i), len. split; [lia|exact Hm].
Qed.

(** X16.  When the style rule is inserted, it is inserted right after a
    closing brace that ends a [.persona-avatar] rule: the text before the
    insertion point contains that name and ends in the brace, and the text on
    both sides of the inserted block is the text of the document as it was
    read, that is, with every line end read as a line feed; for a document
    without a carriage return that is the original text, unchanged. *)
Theorem css_is_inserted_after_the_avatar_rule (self : PersonaImageUpdater)
    (w : World) (raw : text) :
  fs_lookup (path_str (html_path self)) (files w) = Some raw ->
  contains (lit ".persona-image") raw = false ->
  fst (add_persona_image_css self false w) = inr true ->
  exists k,
    search_avatar_rule 0 (read_text raw) = Some k
    /\ nth_error (read_text raw) (k - 1) = Some 125%N
    /\ contains (lit ".persona-avatar") (firstn k (read_text raw)) = true
    /\ fs_lookup (path_str (html_path self))
         (files (snd (add_persona_image_css self false w))) =
       Some (firstn k (read_text raw) ++ persona_image_css ++ skipn k (read_text raw))
    /\ (forallb (fun c => negb (c =? 13)%N) raw = true ->
        fs_lookup (path_str (html_path self))
          (files (snd (add_persona_image_css self false w))) =
        Some (firstn k raw ++ persona_image_css ++ skipn k raw)).
Proof.
  intros Hread Hnot. unfold add_persona_image_css, bind, write_text, ret.
  rewrite Hread. cbv zeta. rewrite contains_read_text, Hnot.
  destruct (search_avatar_rule 0 (read_text raw)) as [k|] eqn:Hs; [|discriminate].
  destruct (write_error (path_str (html_path self))); [discriminate|].
  intros _. cbn [snd files]. exists k.
  destruct (search_avatar_rule_spec (read_text raw) 0 k Hs) as (i & len & -> & Hm).
  destruct (match_avatar_rule_spec _ _ Hm) as (Hstart & Hlen & Hbrace).
  cbn [Nat.add]. split; [reflexivity|]. split; [|split; [|split]].
  - rewrite nth_error_skipn in Hbrace. rewrite <- Hbrace. f_equal. lia.
  - rewrite firstn_plus. apply contains_app_l, starts_with_contains.
    apply starts_with_firstn; [exact Hstart|].
    change (length (lit ".persona-avatar")) with 15. lia.
  - apply fs_lookup_store.
  - intros Hcr. rewrite fs_lookup_store. now rewrite (read_text_no_cr raw Hcr).
Qed.

(** *** Validation, further *)

Definition first_image (avatar : node) : option node :=
  match find img_selector avatar with
  | Some pos => subtree avatar pos
  | None => None
  end.

Definition has_image (avatar : node) : bool :=
  match first_image avatar with
  | Some _ => true
  | None => false
  end.

(** The avatars [validate_updates] goes through. *)
Definition avatars_of (soup : node) : list node :=
  flat_map (fun p => match subtree soup p with Some a => [a] | None => [] end)
           (find_all avatar_selector soup).

Lemma validate_fold_images (avatars : list node) (v : validation) :
  images_found (fold_left validate_avatar avatars v) =
  images_found v ++
  flat_map (fun a => match first_image a with
                     | Some img => [(get_attr (lit "src") img, get_attr (lit "alt") img)]
                     | None => []
                     end) avatars.
Proof.
  revert v; induction avatars as [|a avatars IH]; intros v; cbn [fold_left flat_map].
  - now rewrite app_nil_r.
  - rewrite IH. unfold validate_avatar, first_image.
    destruct (find img_selector a) as [pos|]; [|reflexivity].
    destruct (subtree a pos) as [img|]; [|reflexivity].
    destruct (exists_under_root (get_attr (lit "src") img)); cbn [negb];
      destruct (get_attr (lit "alt") img); cbn [images_found];
      now rewrite <- app_assoc.
Qed.

Lemma found_length (l : list node) :
  length (flat_map (fun a => match first_image a with
                             | Some img => [(get_attr (lit "src") img,
                                             get_attr (lit "alt") img)]
                             | None => []
                             end) l) = length (filter has_image l).
Proof.
  induction l as [|a l IH]; [reflexivity|].
  cbn [flat_map filter]. rewrite length_app, IH. unfold has_image.
  now destruct (first_image a).
Qed.

Lemma existsb_filter (A : Type) (f : A -> bool) (l : list A) :
  existsb f l = negb (length (filter f l) =? 0).
Proof.
  induction l as [|a l IH]; [reflexivity|].
  cbn [existsb filter]. now destruct (f a).
Qed.

(** X17.  A document is reported valid exactly when at least one avatar
    holds an image and the file of the first image of every avatar exists;
    whether an image has a description plays no part.  One entry is recorded
    in [images_found] per avatar that holds an image. *)
Theorem validation_verdict (soup : node) :
  valid (validate_soup soup) =
    existsb has_image (avatars_of soup) && forallb image_file_ok (avatars_of soup)
  /\ length (images_found (validate_soup soup)) =
     length (filter has_image (avatars_of soup)).
Proof.
  unfold validate_soup. fold (avatars_of soup).
  pose proof (validate_fold_valid (avatars_of soup) (mk_validation true [] [])) as Hv.
  pose proof (validate_fold_images (avatars_of soup) (mk_validation true [] [])) as Hi.
  pose proof (found_length (avatars_of soup)) as Hl.
  cbn [valid images_found app andb] in Hv, Hi. rewrite <- Hi in Hl. clear Hi.
  rewrite existsb_filter, <- Hl.
  set (v := fold_left validate_avatar (avatars_of soup) (mk_validation true [] [])) in *.
  destruct (images_found v) as [|i l] eqn:E.
  - cbn [valid images_found]. split; reflexivity.
  - rewrite E. cbn [length Nat.eqb negb andb]. split; [exact Hv|reflexivity].
Qed.

Lemma validate_avatar_issues (v : validation) (avatar : node) (x : text) :
  In x (issues v) -> In x (issues (validate_avatar v avatar)).
Proof.
  intros H. unfold validate_avatar.
  destruct (find img_selector avatar) as [pos|]; [|exact H].
  destruct (subtree avatar pos) as [img|]; [|exact H].
  destruct (exists_under_root (get_attr (lit "src") img)); cbn [negb];
    destruct (get_attr (lit "alt") img); cbn [issues];
    rewrite ?in_app_iff; auto.
Qed.

Lemma validate_fold_issues (avatars : list node) (v : validation) (x : text) :
  In x (issues v) -> In x (issues (fold_left validate_avatar avatars v)).
Proof.
  revert v; induction avatars as [|a avatars IH]; intros v H; cbn [fold_left].
  - exact H.
  - apply IH. now apply validate_avatar_issues.
Qed.

Lemma validate_soup_issues (soup : node) (x : text) :
  In x (issues (fold_left validate_avatar (avatars_of soup) (mk_validation true [] []))) ->
  In x (issues (validate_soup soup)).
Proof.
  intros H. unfold validate_soup. fold (avatars_of soup).
  destruct (images_found _); cbn [issues]; rewrite ?in_app_iff; auto.
Qed.

(** X18.  Every problem of the first image of an avatar is listed: an image
    whose file does not exist gives the issue "Image file not found", and an
    image without a description gives the issue "Missing alt text", each with
    the image's [src]. *)
Theorem validation_lists_every_problem (soup avatar img : node) :
  In avatar (avatars_of soup) ->
  first_image avatar = Some img ->
  (exists_under_root (get_attr (lit "src") img) = false ->
   In (lit "Image file not found: " ++ get_attr (lit "src") img)
      (issues (validate_soup soup)))
  /\ (get_attr (lit "alt") img = [] ->
      In (lit "Missing alt text for image: " ++ get_attr (lit "src") img)
         (issues (validate_soup soup))).
Proof.
  intros Hin Himg.
  assert (Hstep : forall v,
    (exists_under_root (get_attr (lit "src") img) = false ->
     In (lit "Image file not found: " ++ get_attr (lit "src") img)
        (issues (validate_avatar v avatar)))
    /\ (get_attr (lit "alt") img = [] ->
        In (lit "Missing alt text for image: " ++ get_attr (lit "src") img)
           (issues (validate_avatar v avatar)))).
  { intros v. unfold validate_avatar. unfold first_image in Himg.
    destruct (find img_selector avatar) as [pos|]; [|discriminate].
    rewrite Himg. split.
    - intros ->. cbn [negb]. destruct (get_attr (lit "alt") img); cbn [issues];
        rewrite ?in_app_iff; cbn; auto.
    - intros ->. destruct (negb _); cbn [issues]; rewrite ?in_app_iff; cbn; auto. }
  assert (Hfold : forall l v, In avatar l ->
    (exists_under_root (get_attr (lit "src") img) = false ->
     In (lit "Image file not found: " ++ get_attr (lit "src") img)
        (issues (fold_left validate_avatar l v)))
    /\ (get_attr (lit "alt") img = [] ->
        In (lit "Missing alt text for image: " ++ get_attr (lit "src") img)
           (issues (fold_left validate_avatar l v)))).
  { induction l as [|a l IH]; intros v Hl; [destruct Hl|].
    cbn [fold_left]. destruct Hl as [->|Hl].
    - destruct (Hstep v) as [S1 S2].
      split; intros H; apply validate_fold_issues; auto.
    - now apply IH. }
  destruct (Hfold (avatars_of soup) (mk_validation true [] []) Hin) as [F1 F2].
  split; intros H; apply validate_soup_issues; auto.
Qed.

(** *** What the patch reports *)

Lemma match_persona_In (name_text : text) (mapping : list (text * persona_info))
    (key : text) (info : persona_info) :
  match_persona name_text mapping = Some (key, info) ->
  In (key, info) mapping /\ contains (html_name info) name_text = true.
Proof.
  induction mapping as [|[k i] rest IH]; cbn [match_persona]; [discriminate|].
  destruct (contains (html_name i) name_text) eqn:E.
  - intros H; inversion H; subst. split; [now left|exact E].
  - intros H. destruct (IH H). split; [now right|assumption].
Qed.

Definition missing_ok (self : PersonaImageUpdater) (key : text) : Prop :=
  get_latest_image self key = None /\ In key (map fst PERSONA_MAPPING).

Definition updated_ok (self : PersonaImageUpdater) (u : updated) : Prop :=
  exists info image,
    In (up_persona_key u, info) PERSONA_MAPPING
    /\ up_name u = html_name info
    /\ get_latest_image self (up_persona_key u) = Some image
    /\ up_image_path u = last image [].

Definition entries (r : results) : nat :=
  length (updated_personas r) + length (missing_images r) + length (errors r).

Lemma decide_missing (self : PersonaImageUpdater) (c : node) (key : text) :
  decide self c = Missing key -> missing_ok self key.
Proof.
  unfold decide, missing_ok.
  destruct (find h3_selector c); [|discriminate].
  destruct (match_persona _ PERSONA_MAPPING) as [[k i]|] eqn:Hm; [|discriminate].
  destruct (get_latest_image self k) eqn:Hl.
  - destruct (find avatar_selector c); [|discriminate].
    destruct (get_web_image_path self _); discriminate.
  - intros H; inversion H; subst. split; [exact Hl|].
    apply match_persona_In in Hm as [Hin _].
    apply in_map_iff. now exists (key, i).
Qed.

Lemma decide_update (self : PersonaImageUpdater) (c : node) (key : text)
    (info : persona_info) (image : list text) (q : path) (src alt : text) :
  decide self c = Update key info image q src alt ->
  In (key, info) PERSONA_MAPPING /\ get_latest_image self key = Some image.
Proof.
  unfold decide.
  destruct (find h3_selector c); [|discriminate].
  destruct (match_persona _ PERSONA_MAPPING) as [[k i]|] eqn:Hm; [|discriminate].
  destruct (get_latest_image self k) eqn:Hl; [|discriminate].
  destruct (find avatar_selector c); [|discriminate].
  destruct (get_web_image_path self _); [discriminate|].
  intros H; inversion H; subst. split; [|exact Hl].
  now apply match_persona_In in Hm as [Hin _].
Qed.

Lemma process_cards_results (self : PersonaImageUpdater) (dry_run : bool)
    (cards : list path) :
  forall st st',
  process_cards self dry_run st cards = inr st' ->
  Forall (missing_ok self) (missing_images (res st)) ->
  Forall (updated_ok self) (updated_personas (res st)) ->
  Forall (missing_ok self) (missing_images (res st'))
  /\ Forall (updated_ok self) (updated_personas (res st'))
  /\ entries (res st') <= entries (res st) + length cards.
Proof.
  induction cards as [|card rest IH]; intros st st' H Hm Hu; cbn [process_cards] in H.
  - inversion H; subst. repeat split; trivial. cbn. lia.
  - rewrite process_card_decide in H. cbv zeta in H.
    destruct (node_at st _) as [c|].
    2:{ destruct (IH st st' H Hm Hu) as (A & B & C). repeat split; trivial.
        cbn [length]. lia. }
    destruct (decide self c) as [|key|key|e|key info image q src alt] eqn:Hd.
    + destruct (IH st st' H Hm Hu) as (A & B & C). repeat split; trivial.
      cbn [length]. lia.
    + apply IH in H as (A & B & C); cbn [add_missing res missing_images updated_personas];
        trivial.
      * repeat split; trivial. unfold entries in *.
        cbn [add_missing res missing_images updated_personas errors] in C.
        rewrite length_app in C. cbn [length] in *. lia.
      * apply Forall_app. split; [exact Hm|]. constructor; [|constructor].
        exact (decide_missing self c key Hd).
    + apply IH in H as (A & B & C); cbn [add_error res missing_images updated_personas];
        trivial.
      repeat split; trivial. unfold entries in *.
      cbn [add_error res missing_images updated_personas errors] in C.
      rewrite length_app in C. cbn [length] in *. lia.
    + discriminate.
    + destruct dry_run.
      * destruct (IH st st' H Hm Hu) as (A & B & C). repeat split; trivial.
        cbn [length]. lia.
      * assert (Hres : res (clear_and_append st
                              (fst (resolve (moves st) (0, card)),
                               snd (resolve (moves st) (0, card)) ++ q)
                              (new_img src alt)) = res st).
        { unfold clear_and_append. now destruct (node_at st _). }
        apply IH in H as (A & B & C);
          cbn [add_updated res missing_images updated_personas]; rewrite ?Hres; trivial.
        -- repeat split; trivial. unfold entries in *.
           cbn [add_updated res missing_images updated_personas errors] in C.
           rewrite Hres, length_app in C. cbn [length] in *. lia.
        -- apply Forall_app. split; [exact Hu|]. constructor; [|constructor].
           destruct (decide_update self c key info image q src alt Hd) as [Hin Hl].
           exists info, image. cbn. auto.
Qed.

(** X19.  Of a patch run that returns: every persona reported missing is a
    persona of the mapping with no image in the directory; every persona
    reported updated is a persona of the mapping, reported with its display
    name and with the file name of its latest image; and the three result
    lists together hold at most one entry per persona card of the page. *)
Theorem patch_results_are_sound (self : PersonaImageUpdater) (dry_run : bool)
    (soup : node) (st : soup_state) :
  update_soup self dry_run soup = inr st ->
  (forall key, In key (missing_images (res st)) ->
     get_latest_image self key = None /\ In key (map fst PERSONA_MAPPING))
  /\ (forall u, In u (updated_personas (res st)) ->
        exists info image,
          In (up_persona_key u, info) PERSONA_MAPPING
          /\ up_name u = html_name info
          /\ get_latest_image self (up_persona_key u) = Some image
          /\ up_image_path u = last image [])
  /\ length (updated_personas (res st)) + length (missing_images (res st)) +
     length (errors (res st)) <= length (find_all card_selector soup).
Proof.
  intros H. unfold update_soup in H.
  apply process_cards_results in H as (A & B & C);
    [|now constructor|now constructor].
  rewrite Forall_forall in A, B. split; [|split].
  - intros key Hk. exact (A key Hk).
  - intros u Hu. exact (B u Hu).
  - exact C.
Qed.

(** *** A report explains itself *)

Lemma validate_avatar_explained (v : validation) (avatar : node) :
  (valid v = false -> issues v <> []) ->
  valid (validate_avatar v avatar) = false -> issues (validate_avatar v avatar) <> [].
Proof.
  intros Hv. unfold validate_avatar.
  destruct (find img_selector avatar) as [pos|]; [|exact Hv].
  destruct (subtree avatar pos) as [img|]; [|exact Hv].
  destruct (exists_under_root (get_attr (lit "src") img)); cbn [negb];
    destruct (get_attr (lit "alt") img); cbn [valid issues images_found];
    try exact Hv; intros _ E; apply app_eq_nil in E as [_ E]; discriminate.
Qed.

Lemma validate_fold_explained (avatars : list node) (v : validation) :
  (valid v = false -> issues v <> []) ->
  valid (fold_left validate_avatar avatars v) = false ->
  issues (fold_left validate_avatar avatars v) <> [].
Proof.
  revert v; induction avatars as [|a avatars IH]; intros v Hv; cbn [fold_left].
  - exact Hv.
  - apply IH. now apply validate_avatar_explained.
Qed.

(** X20.  A report of [validate_updates] explains itself: one that is not
    valid lists at least one issue, and one that is valid comes from a
    document that exists and lists at least one image. *)
Theorem validation_report_is_explained (self : PersonaImageUpdater) (w : World) :
  (valid (validate_updates self w) = false -> issues (validate_updates self w) <> [])
  /\ (valid (validate_updates self w) = true ->
      images_found (validate_updates self w) <> []
      /\ exists html_content,
           fs_lookup (path_str (html_path self)) (files w) = Some html_content).
Proof.
  unfold validate_updates.
  destruct (fs_lookup (path_str (html_path self)) (files w)) as [c|];
    [|cbn [valid issues]; split; discriminate].
  unfold validate_soup. cbv zeta.
  set (avatars := flat_map _ (find_all avatar_selector (parse c))).
  pose proof (validate_fold_explained avatars (mk_validation true [] [])) as He.
  destruct (images_found (fold_left validate_avatar avatars _)) as [|i l] eqn:E.
  - cbn [valid issues images_found]. split; [|discriminate].
    intros _ H. apply app_eq_nil in H as [_ H]. discriminate.
  - split.
    + apply He. cbn [valid]. discriminate.
    + intros _. rewrite E. split; [discriminate|]. now exists c.
Qed.

(** *** Patch, then validate *)




(** *** The command line *)

(** [main], given the flags [--validate], [--add-css] and [--dry-run]; the
    result is the exit status. *)
Definition main (self : PersonaImageUpdater) (validate add_css dry_run : bool)
    : M nat :=
  fun w =>
    if validate then
      let validation := validate_updates self w in
      (inr (if valid validation then 0 else 1), w)
    else
      ((if add_css
        then _ <- add_persona_image_css self dry_run ;; ret tt
        else ret tt) ;;;
       _ <- update_html_with_images self dry_run ;;
       ret 0) w.

Lemma update_html_dry_run (self : PersonaImageUpdater) (w : World) :
  snd (update_html_with_images self true w) = w.
Proof.
  unfold update_html_with_images.
  destruct (fs_lookup (path_str (html_path self)) (files w)); [|reflexivity].
  now destruct (update_soup self true _).
Qed.

(** X22.  With [--validate], [main] only validates: the other flags are
    ignored, nothing is changed, and the exit status is 0 for a valid report
    and 1 otherwise.  Without it, a [--dry-run] changes nothing, with or
    without [--add-css]; the exit status of a run that returns is always 0;
    and a missing document is such a run, which changes nothing. *)
Theorem main_flags (self : PersonaImageUpdater) (add_css dry_run : bool) (w : World) :
  main self true add_css dry_run w =
    (inr (if valid (validate_updates self w) then 0 else 1), w)
  /\ snd (main self false add_css true w) = w
  /\ (forall status, fst (main self false add_css dry_run w) = inr status -> status = 0)
  /\ (fs_lookup (path_str (html_path self)) (files w) = None ->
      main self false add_css dry_run w = (inr 0, w)).
Proof.
  split; [reflexivity|]. split; [|split].
  - unfold main, bind, ret.
    assert (Hcss : snd (add_persona_image_css self true w) = w).
    { unfold add_persona_image_css.
      destruct (fs_lookup (path_str (html_path self)) (files w)) as [c|]; [|reflexivity].
      cbv zeta.
      destruct (contains (lit ".persona-image") (read_text c)); [reflexivity|].
      now destruct (search_avatar_rule 0 (read_text c)). }
    pose proof (update_html_dry_run self w) as Hupd.
    destruct add_css.
    + destruct (add_persona_image_css self true w) as [[e|b] w1]; cbn [snd] in Hcss;
        subst w1; [reflexivity|].
      destruct (update_html_with_images self true w) as [[e|r] w2]; cbn [snd] in *;
        now subst w2.
    + destruct (update_html_with_images self true w) as [[e|r] w2]; cbn [snd] in *;
        now subst w2.
  - intros status. unfold main, bind, ret.
    destruct add_css.
    + destruct (add_persona_image_css self dry_run w) as [[e|b] w1]; [discriminate|].
      destruct (update_html_with_images self dry_run w1) as [[e|r] w2];
        [discriminate|]. intros H; now inversion H.
    + destruct (update_html_with_images self dry_run w) as [[e|r] w2];
        [discriminate|]. intros H; now inversion H.
  - intros Hnone. unfold main, bind, ret, add_persona_image_css, update_html_with_images.
    destruct add_css; now rewrite ?Hnone.
Qed.

(** *** The loop, by the shape of the tree *)

(** What a card is decided by: the first [h3] as a node, and whether there
    is an avatar. *)
Lemma decide_by_nodes (self : PersonaImageUpdater) (c : node) :
  decide self c =
  match hd_error (all_below h3_selector c) with
  | None => Skip
  | Some name_elem =>
      match match_persona (get_text_strip name_elem) PERSONA_MAPPING with
      | None => Skip
      | Some (persona_key, persona_info) =>
          match get_latest_image self persona_key with
          | None => Missing persona_key
          | Some image_path =>
              match find avatar_selector c with
              | None => NoAvatar persona_key
              | Some avatar_pos =>
                  match get_web_image_path self image_path with
                  | inl e => Fail e
                  | inr src =>
                      Update persona_key persona_info image_path avatar_pos src
                        (html_name persona_info ++ lit " - " ++ description persona_info)
                  end
              end
          end
      end
  end.
Proof.
  rewrite first_match_node. unfold decide.
  destruct (find h3_selector c) as [pos|] eqn:E; [|reflexivity].
  apply find_Some_In in E. destruct (find_all_sound _ _ _ E) as (m & Hm & _).
  now rewrite Hm.
Qed.

Lemma find_none_nodes (sel : selector) (n : node) :
  find sel n = None <-> all_below sel n = [].
Proof.
  pose proof (first_match_node sel n) as H.
  destruct (find sel n) as [q|] eqn:E.
  - apply find_Some_In in E. destruct (find_all_sound _ _ _ E) as (m & Hm & _).
    rewrite Hm in H. split; [discriminate|].
    intros H0. rewrite H0 in H. discriminate.
  - split; [|reflexivity]. intros _.
    rewrite <- all_below_paths. unfold find in E.
    now destruct (find_all sel n).
Qed.

Lemma find_none_norm (sel : selector) (n : node) :
  find sel (norm_node n) = None <-> find sel n = None.
Proof.
  rewrite !find_none_nodes, all_below_norm.
  split; intros H; [now apply map_eq_nil in H|now rewrite H].
Qed.

(** Two decisions that differ at most in where the avatar is. *)
Definition same_decision (d d' : decision) : Prop :=
  match d, d' with
  | Skip, Skip => True
  | Missing k, Missing k' => k = k'
  | NoAvatar k, NoAvatar k' => k = k'
  | Fail e, Fail e' => e = e'
  | Update k i im _ src alt, Update k' i' im' _ src' alt' =>
      k = k' /\ i = i' /\ im = im' /\ src = src' /\ alt = alt'
  | _, _ => False
  end.

(** White space does not bear on what is decided for a card. *)
Lemma decide_norm (self : PersonaImageUpdater) (c : node) :
  same_decision (decide self (norm_node c)) (decide self c).
Proof.
  rewrite !decide_by_nodes, all_below_norm.
  destruct (all_below h3_selector c) as [|name_elem l]; cbn [map hd_error];
    [exact I|].
  rewrite get_text_strip_norm.
  destruct (match_persona _ PERSONA_MAPPING) as [[key info]|]; [|exact I].
  destruct (get_latest_image self key) as [image|]; [|reflexivity].
  pose proof (find_none_norm avatar_selector c) as Hn.
  destruct (find avatar_selector c) as [q|];
    destruct (find avatar_selector (norm_node c)) as [q'|].
  - destruct (get_web_image_path self image); cbn; auto.
  - discriminate (proj1 Hn eq_refl).
  - discriminate (proj2 Hn eq_refl).
  - reflexivity.
Qed.

Lemma patched_by_nodes (self : PersonaImageUpdater) (c : node) :
  patched self c =
  match decide self c with
  | Update _ _ _ _ src alt => replace_first avatar_selector [new_img src alt] c
  | _ => c
  end.
Proof.
  unfold patched.
  destruct (decide self c) as [|key|key|e|key info image q src alt] eqn:Hd;
    try reflexivity.
  apply set_children_find.
  unfold decide in Hd.
  destruct (find h3_selector c); [|discriminate].
  destruct (match_persona _ PERSONA_MAPPING) as [[k i]|]; [|discriminate].
  destruct (get_latest_image self k); [|discriminate].
  destruct (find avatar_selector c); [|discriminate].
  destruct (get_web_image_path self _); [discriminate|].
  now inversion Hd.
Qed.

(** What a printer is free to change does not bear on a patched card. *)
Lemma patched_norm (self : PersonaImageUpdater) (c : node) :
  norm_node (patched self c) = norm_node (patched self (norm_node c)).
Proof.
  rewrite !patched_by_nodes. pose proof (decide_norm self c) as H.
  destruct (decide self c) as [|key|key|e|key info image q src alt];
    destruct (decide self (norm_node c)) as [|key'|key'|e'|key' info' image' q' src' alt'];
    cbn [same_decision] in H; try contradiction; try (now rewrite norm_node_idem).
  destruct H as (_ & _ & _ & -> & ->).
  now rewrite !replace_first_norm, norm_node_idem.
Qed.

(** The card loop as a function of the tree: every card that does not lie
    inside another card is patched. *)
Fixpoint patch_tree (self : PersonaImageUpdater) (n : node) : node :=
  if matches card_selector n then patched self n
  else
    match n with
    | Elem name attrs kids => Elem name attrs (map (patch_tree self) kids)
    | _ => n
    end.

Definition patch_root (self : PersonaImageUpdater) (n : node) : node :=
  match n with
  | Elem name attrs kids => Elem name attrs (map (patch_tree self) kids)
  | _ => n
  end.

Lemma run_tree_app (self : PersonaImageUpdater) (l1 l2 : list path) :
  forall T,
  run_tree self T (l1 ++ l2) =
  match run_tree self T l1 with
  | inr T1 => run_tree self T1 l2
  | inl e => inl e
  end.
Proof.
  induction l1 as [|p l1 IH]; intros T; cbn [app run_tree]; [reflexivity|].
  destruct (card_step self T p) as [e|T1]; [reflexivity|apply IH].
Qed.

Lemma card_step_child (self : PersonaImageUpdater) (name : text)
    (attrs : list (text * text)) (pre : list node) (k : node) (post : list node)
    (p : path) :
  card_step self (Elem name attrs (pre ++ k :: post)) (length pre :: p) =
  match card_step self k p with
  | inr k' => inr (Elem name attrs (pre ++ k' :: post))
  | inl e => inl e
  end.
Proof.
  unfold card_step. cbn [subtree children]. rewrite nth_error_middle.
  destruct (subtree k p) as [c|]; [|reflexivity].
  destruct (decide self c) as [|key|key|e|key info image q src alt]; try reflexivity.
  cbn [app set_children]. now rewrite update_nth_middle.
Qed.

Lemma run_tree_child (self : PersonaImageUpdater) (name : text)
    (attrs : list (text * text)) (pre post : list node) (ps : list path) :
  forall k,
  run_tree self (Elem name attrs (pre ++ k :: post)) (map (cons (length pre)) ps) =
  match run_tree self k ps with
  | inr k' => inr (Elem name attrs (pre ++ k' :: post))
  | inl e => inl e
  end.
Proof.
  induction ps as [|p ps IH]; intros k; cbn [map run_tree]; [reflexivity|].
  rewrite card_step_child.
  destruct (card_step self k p) as [e|k1]; [reflexivity|apply IH].
Qed.

Lemma all_diverge_app (l1 l2 : list path) :
  all_diverge (l1 ++ l2) = true -> all_diverge l1 = true /\ all_diverge l2 = true.
Proof.
  induction l1 as [|a l1 IH]; cbn [app all_diverge]; [auto|].
  intros H. apply andb_true_iff in H as [Ha H]. rewrite forallb_app in Ha.
  apply andb_true_iff in Ha as [Ha _]. destruct (IH H) as [H1 H2].
  now rewrite Ha, H1.
Qed.

Lemma all_diverge_map_cons (i : nat) (l : list path) :
  all_diverge (map (cons i) l) = all_diverge l.
Proof.
  induction l as [|a l IH]; [reflexivity|]. cbn [map all_diverge].
  rewrite IH. f_equal. clear IH.
  induction l as [|b l IH]; [reflexivity|]. cbn [map forallb].
  rewrite IH. cbn [diverge]. now rewrite Nat.eqb_refl.
Qed.

Lemma run_tree_kids (self : PersonaImageUpdater) (name : text)
    (attrs : list (text * text)) (kids : list node) :
  Forall (fun k => all_diverge (find_all_from card_selector k) = true ->
                   forall k', run_tree self k (find_all_from card_selector k) = inr k' ->
                   k' = patch_tree self k) kids ->
  forall pre T',
  all_diverge (find_all_kids (find_all_from card_selector) (length pre) kids) = true ->
  run_tree self (Elem name attrs (pre ++ kids))
    (find_all_kids (find_all_from card_selector) (length pre) kids) = inr T' ->
  T' = Elem name attrs (pre ++ map (patch_tree self) kids).
Proof.
  induction 1 as [|k kids Hk _ IH]; intros pre T' Hdiv H.
  - cbn in H. now inversion H.
  - cbn [find_all_kids] in Hdiv, H. apply all_diverge_app in Hdiv as [Hd1 Hd2].
    rewrite all_diverge_map_cons in Hd1.
    rewrite run_tree_app, run_tree_child in H.
    destruct (run_tree self k (find_all_from card_selector k)) as [e|k'] eqn:E;
      [discriminate|].
    rewrite (Hk Hd1 k' eq_refl) in H.
    specialize (IH (pre ++ [patch_tree self k]) T').
    rewrite <- app_assoc, length_app in IH. cbn [app length] in IH.
    rewrite Nat.add_1_r in IH. rewrite (IH Hd2 H).
    cbn [map]. now rewrite <- app_assoc.
Qed.

Lemma diverge_nil (x : path) : diverge [] x = false.
Proof. reflexivity. Qed.

Lemma run_tree_patch_tree (self : PersonaImageUpdater) (n : node) :
  all_diverge (find_all_from card_selector n) = true ->
  forall n', run_tree self n (find_all_from card_selector n) = inr n' ->
  n' = patch_tree self n.
Proof.
  induction n as [s|s|name attrs kids IH] using node_ind2; intros Hdiv n' H.
  - cbn in H. now inversion H.
  - cbn in H. now inversion H.
  - cbn [find_all_from patch_tree] in *.
    destruct (matches card_selector (Elem name attrs kids)) eqn:Hm.
    + cbn [app all_diverge] in Hdiv. apply andb_true_iff in Hdiv as [Hnone _].
      destruct (find_all_kids (find_all_from card_selector) 0 kids) as [|x l].
      * cbn [app run_tree] in H. unfold card_step in H. cbn [subtree] in H.
        unfold patched.
        destruct (decide self (Elem name attrs kids))
          as [|key|key|e|key info image q src alt]; now inversion H.
      * cbn in Hnone. discriminate.
    + cbn [app] in Hdiv, H.
      pose proof (run_tree_kids self name attrs kids IH [] n') as K.
      cbn [app length] in K. exact (K Hdiv H).
Qed.

(** On a page where no card lies inside another, the loop is [patch_root]. *)
Lemma run_tree_patch_root (self : PersonaImageUpdater) (T T' : node) :
  all_diverge (find_all card_selector T) = true ->
  run_tree self T (find_all card_selector T) = inr T' ->
  T' = patch_root self T.
Proof.
  intros Hdiv H. destruct T as [s|s|name attrs kids].
  - cbn in H. now inversion H.
  - cbn in H. now inversion H.
  - unfold find_all in Hdiv, H. cbn [children] in Hdiv, H.
    assert (HF : Forall (fun k =>
               all_diverge (find_all_from card_selector k) = true ->
               forall k', run_tree self k (find_all_from card_selector k) = inr k' ->
               k' = patch_tree self k) kids)
      by (apply Forall_forall; intros k _; apply run_tree_patch_tree).
    pose proof (run_tree_kids self name attrs kids HF [] T') as K.
    cbn [app length] in K. exact (K Hdiv H).
Qed.

Lemma norm_of_elem (n : node) :
  (exists name attrs kids, n = Elem name attrs kids) -> norm n = [norm_node n].
Proof. intros (name & attrs & kids & ->). reflexivity. Qed.

Lemma patched_is_elem (self : PersonaImageUpdater) (name : text)
    (attrs : list (text * text)) (kids : list node) :
  exists name' attrs' kids', patched self (Elem name attrs kids) = Elem name' attrs' kids'.
Proof.
  unfold patched.
  destruct (decide self (Elem name attrs kids)) as [|?|?|?|? ? ? q ? ?]; eauto.
  destruct q; cbn [set_children]; eauto.
Qed.

(** What a printer is free to change does not bear on a patched tree. *)
Lemma patch_tree_norm (self : PersonaImageUpdater) (n : node) :
  norm (patch_tree self n) =
  flat_map (fun m => norm (patch_tree self m)) (norm n).
Proof.
  induction n as [s|s|name attrs kids IH] using node_ind2.
  - cbn [patch_tree matches norm]. destruct (strip s) as [|c t] eqn:E; [reflexivity|].
    cbn [flat_map patch_tree matches norm]. rewrite <- E, strip_idem, E. reflexivity.
  - reflexivity.
  - cbn [norm flat_map]. rewrite app_nil_r. cbn [patch_tree].
    rewrite (matches_sort_attrs card_selector name attrs kids).
    destruct (matches card_selector (Elem name attrs kids)).
    + rewrite (norm_of_elem _ (patched_is_elem self name attrs kids)).
      rewrite (norm_of_elem _ (patched_is_elem self name (sort_attrs attrs)
                                 (flat_map norm kids))).
      f_equal. exact (patched_norm self (Elem name attrs kids)).
    + cbn [norm]. rewrite sort_attrs_idem. do 2 f_equal.
      rewrite !flat_map_map, flat_map_flat_map. now apply flat_map_ext_Forall.
Qed.

Lemma patch_root_norm (self : PersonaImageUpdater) (T : node) :
  norm_node (patch_root self T) = norm_node (patch_root self (norm_node T)).
Proof.
  destruct T as [s|s|name attrs kids]; cbn [patch_root norm_node].
  - now rewrite strip_idem.
  - reflexivity.
  - rewrite sort_attrs_idem. f_equal.
    rewrite !flat_map_map, flat_map_flat_map. apply flat_map_ext. intros k.
    apply patch_tree_norm.
Qed.

(** *** Patching a patched document *)

Lemma run_tree_returns (self : PersonaImageUpdater) (cards : list path) :
  all_diverge cards = true ->
  forall T,
  (forall p c, In p cards -> subtree T p = Some c -> forall e, decide self c <> Fail e) ->
  exists T', run_tree self T cards = inr T'.
Proof.
  induction cards as [|p rest IH]; intros Hdiv T Hok; [now exists T|].
  cbn [all_diverge] in Hdiv. apply andb_true_iff in Hdiv as [Hp Hrest].
  rewrite forallb_forall in Hp. cbn [run_tree].
  destruct (card_step self T p) as [e|T1] eqn:E.
  - unfold card_step in E. destruct (subtree T p) as [c|] eqn:Hc; [|discriminate].
    pose proof (Hok p c (or_introl eq_refl) Hc) as Hnf.
    destruct (decide self c); try discriminate. inversion E; subst.
    now destruct (Hnf e).
  - apply (IH Hrest T1). intros p' c' Hp' Hc'.
    rewrite (card_step_frame self T T1 p p' E (Hp p' Hp')) in Hc'.
    apply (Hok p' c'); [now right|exact Hc'].
Qed.

(** No card of the tree is one whose image lies outside the project root. *)
Definition no_card_fails (self : PersonaImageUpdater) (T : node) : Prop :=
  forall p c, In p (find_all card_selector T) -> subtree T p = Some c ->
  forall e, decide self c <> Fail e.

Lemma no_card_fails_norm (self : PersonaImageUpdater) (T T' : node) :
  norm_node T' = norm_node T -> no_card_fails self T -> no_card_fails self T'.
Proof.
  intros Hn Hok p' c' Hp' Hc' e Hd.
  assert (Hin : In c' (all_below card_selector T')) by (apply in_all_below; eauto).
  destruct (in_all_below_norm card_selector T T' c' Hn Hin) as (c & Hc & E).
  apply in_all_below in Hc as (p & Hp & Hc).
  pose proof (decide_norm self c') as S'. rewrite Hd in S'.
  pose proof (decide_norm self c) as S. rewrite E in S.
  destruct (decide self (norm_node c')); cbn [same_decision] in S'; try contradiction.
  subst. destruct (decide self c) eqn:Hdc; cbn [same_decision] in S; try contradiction.
  subst. exact (Hok p c Hp Hc _ Hdc).
Qed.

(** On a page where no card lies inside another and no card fails, the loop
    returns, and what it leaves is [patch_root]. *)
Lemma update_soup_patch_root (self : PersonaImageUpdater) (T : node) :
  all_diverge (find_all card_selector T) = true ->
  no_card_fails self T ->
  exists st, update_soup self false T = inr st /\ soup_of st = patch_root self T.
Proof.
  intros Hdiv Hok.
  destruct (run_tree_returns self _ Hdiv T Hok) as (T' & R).
  pose proof (process_cards_main self _ Hdiv (mk_state [T] [] empty_results)
                T [] eq_refl (fun c _ => eq_refl)) as G.
  rewrite R in G. unfold update_soup.
  destruct (process_cards self false _ _) as [e|st]; [discriminate|].
  exists st. split; [reflexivity|]. cbn [main_tree] in G.
  assert (E : soup_of st = T') by congruence.
  rewrite E. now apply run_tree_patch_root.
Qed.

(** The second run, on the tree the parser reads back: when that tree is the
    patched tree but for white space and the order of attributes, the loop
    returns on it, and leaves the patched tree but for these. *)
Lemma second_run_tree (self : PersonaImageUpdater) (soup : node) (st1 : soup_state)
    (back : node) :
  cards_well_formed soup = true ->
  update_soup self false soup = inr st1 ->
  norm_node back = norm_node (soup_of st1) ->
  exists st2,
    update_soup self false back = inr st2
    /\ norm_node (soup_of st2) = norm_node (soup_of st1).
Proof.
  intros Hwf H1 Hback.
  destruct (update_soup_idempotent self soup st1 Hwf H1) as (st2' & H2' & E2').
  unfold cards_well_formed in Hwf. apply andb_true_iff in Hwf as [Hdiv0 _].
  assert (R1 : run_tree self soup (find_all card_selector soup) = inr (soup_of st1)).
  { rewrite <- (process_cards_main self _ Hdiv0 (mk_state [soup] [] empty_results)
                  soup [] eq_refl (fun c _ => eq_refl)).
    unfold update_soup in H1. now rewrite H1. }
  assert (Hcards : find_all card_selector (soup_of st1) = find_all card_selector soup)
    by (apply (run_tree_cards self _ soup (soup_of st1) Hdiv0 (fun p H => H) R1)).
  assert (Hdiv1 : all_diverge (find_all card_selector (soup_of st1)) = true)
    by now rewrite Hcards.
  assert (R2 : run_tree self (soup_of st1) (find_all card_selector (soup_of st1)) =
               inr (soup_of st1)).
  { rewrite <- (process_cards_main self _ Hdiv1
                  (mk_state [soup_of st1] [] empty_results) (soup_of st1) []
                  eq_refl (fun c _ => eq_refl)).
    unfold update_soup in H2'. rewrite H2'. cbn [main_tree]. now rewrite E2'. }
  assert (Hfix : patch_root self (soup_of st1) = soup_of st1).
  { symmetry. now apply run_tree_patch_root. }
  assert (Hok1 : no_card_fails self (soup_of st1)).
  { intros p c Hp Hc.
    exact (proj1 (run_tree_patched self _ Hdiv1 (soup_of st1) (soup_of st1) R2
                    p c Hp Hc)). }
  pose proof (all_diverge_norm card_selector _ _ Hback Hdiv1) as Hdiv2.
  pose proof (no_card_fails_norm self _ _ Hback Hok1) as Hok2.
  destruct (update_soup_patch_root self back Hdiv2 Hok2) as (st2 & H2 & E2).
  exists st2. split; [exact H2|].
  now rewrite E2, patch_root_norm, Hback, <- patch_root_norm, Hfix.
Qed.

(** A run that is not a preview, case by case. *)
Lemma update_html_run (self : PersonaImageUpdater) (w : World) (content : text)
    (st : soup_state) :
  fs_lookup (path_str (html_path self)) (files w) = Some content ->
  update_soup self false (parse content) = inr st ->
  update_html_with_images self false w =
  match updated_personas (res st) with
  | [] => (inr (res st), w)
  | _ :: _ =>
      let html := path_str (html_path self) in
      let bkp := path_str (backup_path self (strftime_compact (localtime (clock w)))) in
      let wb := mk_World (fs_store bkp content (files w)) (clock w)
                         (log w ++ [FileCopy html bkp]) in
      match write_error bkp with
      | Some e => (inl e, w)
      | None =>
          match write_error html with
          | Some e => (inl e, wb)
          | None =>
              (inr (res st),
               mk_World (fs_store html (prettify (soup_of st)) (files wb)) (clock w)
                        (log wb ++ [FileWrite html]))
          end
      end
  end.
Proof.
  intros Hread H. unfold update_html_with_images. rewrite Hread, H. cbn [negb].
  destruct (updated_personas (res st)); [reflexivity|].
  unfold bind, create_backup, write_text, ret. cbv beta zeta. rewrite Hread.
  destruct (write_error (path_str (backup_path self _))); [reflexivity|].
  cbn [files clock log].
  now destruct (write_error (path_str (html_path self))).
Qed.

(** C7, as the code has it.  Take a document in whose parsed tree no persona
    card lies inside another and, in every card, the name element (the first
    [h3]) and the avatar element (the first [div] of class [persona-avatar])
    lie apart; a parser that reads the patched document back as the tree it
    was printed from but for what a printer is free to change (strings
    stripped, strings of white space only dropped, the attributes of a tag in
    the order of their names); and a printer that prints alike two trees that
    are alike but for that.  Then a second run of [update_html_with_images],
    against the same images, leaves the document file with the text the first
    run left, and returns when the first run returned; the avatar of every
    card the first run updated holds the one image and nothing else; and two
    calls of [add_persona_image_css] in a row leave the world as one call
    does, so the style rule is never inserted a second time. *)
Theorem patch_twice_is_patch_once (self : PersonaImageUpdater) (w : World)
    (content : text) (st1 : soup_state) :
  fs_lookup (path_str (html_path self)) (files w) = Some content ->
  cards_well_formed (parse content) = true ->
  update_soup self false (parse content) = inr st1 ->
  norm_node (parse (prettify (soup_of st1))) = norm_node (soup_of st1) ->
  (forall T, norm_node T = norm_node (soup_of st1) ->
             prettify T = prettify (soup_of st1)) ->
  (fs_lookup (path_str (html_path self))
     (files (snd (update_html_with_images self false
                    (snd (update_html_with_images self false w))))) =
   fs_lookup (path_str (html_path self))
     (files (snd (update_html_with_images self false w)))
   /\ forall r1,
        fst (update_html_with_images self false w) = inr r1 ->
        exists r2,
          fst (update_html_with_images self false
                 (snd (update_html_with_images self false w))) = inr r2)
  /\ (forall p c key info image q src alt,
        In p (find_all card_selector (parse content)) ->
        subtree (parse content) p = Some c ->
        decide self c = Update key info image q src alt ->
        exists name attrs,
          subtree (soup_of st1) (p ++ q) = Some (Elem name attrs [new_img src alt]))
  /\ snd (add_persona_image_css self false (snd (add_persona_image_css self false w))) =
     snd (add_persona_image_css self false w).
Proof.
  intros Hread Hwf H1 Hback Hprint. split; [|split].
  2:{ intros p c key info image q src alt Hp Hc Hd.
      exact (updated_avatar_holds_one_image self (parse content) st1 p c key info
               image q src alt Hwf H1 Hp Hc Hd). }
  2:{ apply add_persona_image_css_once. }
  destruct (second_run_tree self (parse content) st1 _ Hwf H1 Hback)
    as (st2 & H2 & E2).
  pose proof (Hprint (soup_of st2) E2) as Hsame.
  assert (Hother : forall ts c fs,
            fs_lookup (path_str (html_path self))
              (fs_store (path_str (backup_path self ts)) c fs) =
            fs_lookup (path_str (html_path self)) fs).
  { intros. apply fs_lookup_store_other. rewrite text_eqb_sym.
    apply backup_is_another_file. }
  rewrite (update_html_run self w content st1 Hread H1).
  destruct (updated_personas (res st1)) as [|u us] eqn:Hup.
  { cbn [fst snd]. rewrite (update_html_run self w content st1 Hread H1), Hup.
    split; [reflexivity|]. intros r1 _. now exists (res st1). }
  cbv zeta.
  destruct (write_error (path_str (backup_path self _))) as [e|] eqn:Hbk.
  { cbn [fst snd]. rewrite (update_html_run self w content st1 Hread H1), Hup.
    cbv zeta. rewrite Hbk. split; [reflexivity|discriminate]. }
  destruct (write_error (path_str (html_path self))) as [e|] eqn:Hw; cbn [fst snd].
  - split; [|discriminate].
    rewrite (update_html_run self _ content st1); [|cbn [files]; now rewrite Hother|exact H1].
    rewrite Hup. cbv zeta. cbn [clock files log]. rewrite Hbk, Hw.
    cbn [snd files]. now rewrite !Hother.
  - rewrite (update_html_run self _ (prettify (soup_of st1)) st2);
      [|cbn [files]; apply fs_lookup_store|exact H2].
    destruct (updated_personas (res st2)).
    + split; [reflexivity|]. intros r1 _. now exists (res st2).
    + cbv zeta. cbn [clock files log]. rewrite Hbk, Hw. cbn [fst snd files].
      rewrite !fs_lookup_store, Hsame. split; [reflexivity|].
      intros r1 _. now exists (res st2).
Qed.

(** *** Patch, then validate: what validation reads *)












End Library.

(** *** Concrete runs *)

Definition site : PersonaImageUpdater :=
  mk_updater [lit "srv"; lit "site"]
    [lit "srv"; lit "site"; lit "ai_image_generation"; lit "generated_images"].

Definition snapshot : list (text * N) :=
  [ (lit "estate_inheritor_20251104_000003.png", 5%N);
    (lit "reseller_entrepreneur_20251104_000007.png", 6%N);
    (lit "estate_inheritor_20251105_000003.png", 9%N) ].

Definition every_file_exists (src : text) : bool := true.

Definition accept_writes (path : text) : option exn := None.

(** A persona card as the site has them: a header with the avatar and the
    name, then a body. *)
Definition persona_card (avatar : list node) (name : text) : node :=
  div (lit "persona-card")
    [ div (lit "persona-header") [div (lit "persona-avatar") avatar; h3 [Text name]];
      div (lit "persona-body") [Text (lit "About this persona")] ].

Definition demo_page : node :=
  document [ persona_card [Text (lit "E")] (lit "Emeka, 37");
             Text nl;
             persona_card [Text (lit "J")] (lit "Jake, 28");
             persona_card [Text (lit "B")] (lit "Bola, 52") ].

Definition demo_patched : soup_state :=
  match update_soup snapshot site false demo_page with
  | inr st => st
  | inl _ => mk_state [] [] empty_results
  end.

Definition demo_html_world : World :=
  mk_World [(lit "/srv/site/index.html",
             lit "<style>.persona-avatar { width: 64px; }</style>")] 0 [].

(** A card whose first [h3] sits inside its avatar and is followed by a
    second [h3]. *)
Definition odd_page : node :=
  document
    [ div (lit "persona-card")
        [ div (lit "persona-avatar") [h3 [Text (lit "Emeka")]];
          h3 [Text (lit "Jake")] ] ].

Definition emeka_img : node :=
  new_img (lit "ai_image_generation/generated_images/estate_inheritor_20251105_000003.png")
          (lit "Emeka - Estate Manager").

Definition jake_img : node :=
  new_img (lit "ai_image_generation/generated_images/reseller_entrepreneur_20251104_000007.png")
          (lit "Jake - Reseller").

(** What the first patch of that page gives: the two matching avatars hold
    their image, the third card is as it was. *)
Lemma demo_page_patched :
  soup_of demo_patched =
  document [ persona_card [emeka_img] (lit "Emeka, 37");
             Text nl;
             persona_card [jake_img] (lit "Jake, 28");
             persona_card [Text (lit "B")] (lit "Bola, 52") ].
Proof. vm_compute. reflexivity. Qed.

(** *** A printer and a parser *)

(** A printer in the manner of [prettify]: every tag and every string on a
    line of its own, indented by its depth; strings are stripped, strings of
    white space only are left out, and the attributes of a tag are written in
    the order of their names. *)
Definition indent (depth : nat) : text := repeat 32%N depth.

Definition render_attr (kv : text * text) : text :=
  lit " " ++ fst kv ++ lit "=" ++ dquote ++ snd kv ++ dquote.

Definition is_void (name : text) : bool :=
  existsb (text_eqb name)
    [lit "img"; lit "br"; lit "hr"; lit "meta"; lit "link"; lit "input"].

Fixpoint render (depth : nat) (n : node) : text :=
  match n with
  | Text s => indent depth ++ s ++ nl
  | Comment s => indent depth ++ lit "<!--" ++ s ++ lit "-->" ++ nl
  | Elem name attrs kids =>
      if is_void name
      then indent depth ++ lit "<" ++ name ++ flat_map render_attr attrs ++
           lit "/>" ++ nl
      else indent depth ++ lit "<" ++ name ++ flat_map render_attr attrs ++
           lit ">" ++ nl ++
           flat_map (render (S depth)) kids ++
           indent depth ++ lit "</" ++ name ++ lit ">" ++ nl
  end.

Definition demo_prettify (T : node) : text :=
  flat_map (render 0) (children (norm_node T)).

(** A parser for what that printer writes: tags with quoted attributes, and
    between the tags the strings as they stand, white space included. *)
Inductive token :=
| TOpen (name : text) (attrs : list (text * text))
| TVoid (name : text) (attrs : list (text * text))
| TClose (name : text)
| TText (s : text).

(** The attributes of a tag; [key] and [cur] are read backwards. *)
Fixpoint parse_attrs (in_value : bool) (key cur : text) (s : text)
    : list (text * text) :=
  match s with
  | [] => []
  | c :: s' =>
      if in_value then
        if (c =? 34)%N then (rev key, rev cur) :: parse_attrs false [] [] s'
        else parse_attrs true key (c :: cur) s'
      else if (c =? 34)%N then parse_attrs true key [] s'
      else if (c =? 61)%N then parse_attrs false cur [] s'
      else if is_space c || (c =? 47)%N then parse_attrs false key [] s'
      else parse_attrs false key (c :: cur) s'
  end.

(** What stands between [<] and [>]. *)
Definition parse_tag (s : text) : token :=
  match s with
  | 47%N :: name => TClose (strip name)
  | _ =>
      let name :=
        firstn (span_length (fun c => negb (is_space c || (c =? 47)%N)) s) s in
      let attrs := parse_attrs false [] [] (skipn (length name) s) in
      if is_void name || ends_with (lit "/") s then TVoid name attrs
      else TOpen name attrs
  end.

Fixpoint tokenize (in_tag : bool) (cur : text) (s : text) : list token :=
  match s with
  | [] =>
      if in_tag then []
      else match cur with
           | [] => []
           | _ :: _ => [TText (rev cur)]
           end
  | c :: s' =>
      if in_tag then
        if (c =? 62)%N then parse_tag (rev cur) :: tokenize false [] s'
        else tokenize true (c :: cur) s'
      else if (c =? 60)%N then
        match cur with
        | [] => tokenize true [] s'
        | _ :: _ => TText (rev cur) :: tokenize true [] s'
        end
      else tokenize false (c :: cur) s'
  end.

(** The elements still open, innermost first, each with its tag and with the
    nodes read before it at its level; [cur] are the nodes read at the
    current level, latest first. *)
Fixpoint close_all (stack : list (text * list (text * text) * list node))
    (cur : list node) : list node :=
  match stack with
  | [] => rev cur
  | (name, attrs, up) :: stack' => close_all stack' (Elem name attrs (rev cur) :: up)
  end.

Fixpoint build (tokens : list token)
    (stack : list (text * list (text * text) * list node)) (cur : list node)
    : list node :=
  match tokens with
  | [] => close_all stack cur
  | TText s :: rest => build rest stack (Text s :: cur)
  | TVoid name attrs :: rest => build rest stack (Elem name attrs [] :: cur)
  | TOpen name attrs :: rest => build rest ((name, attrs, cur) :: stack) []
  | TClose _ :: rest =>
      match stack with
      | (name, attrs, up) :: stack' =>
          build rest stack' (Elem name attrs (rev cur) :: up)
      | [] => build rest [] cur
      end
  end.

Definition demo_parse (s : text) : node :=
  document (build (tokenize false [] s) [] []).

(** The printer prints alike what is alike but for what it is free to
    change. *)
Lemma demo_prettify_norm (T T' : node) :
  norm_node T = norm_node T' -> demo_prettify T = demo_prettify T'.
Proof. intros H. unfold demo_prettify. now rewrite H. Qed.

(** *** Two runs on a page of three cards *)

(** The page as it stands on disk, and as the parser reads it. *)
Definition styled_page : node :=
  document
    (Elem (lit "style") [] [Text (lit ".persona-avatar { width: 64px; }")]
     :: children demo_page).

Definition demo_html : text := demo_prettify styled_page.

Definition demo_site_world : World :=
  mk_World [(lit "/srv/site/index.html", demo_html)] 0 [].

Definition demo_first : soup_state :=
  match update_soup snapshot site false (demo_parse demo_html) with
  | inr st => st
  | inl _ => mk_state [] [] empty_results
  end.

(** The parser does not read the patched page back as the tree it was
    printed from: it reads the line ends and the indentation as strings, and
    the attributes in the order they were printed in. *)
Lemma patched_page_is_not_read_back_as_it_was :
  demo_parse (demo_prettify (soup_of demo_first)) <> soup_of demo_first
  /\ norm_node (demo_parse (demo_prettify (soup_of demo_first))) =
     norm_node (soup_of demo_first).
Proof.
  split; [|vm_compute; reflexivity].
  intros H. apply (f_equal (find_all img_selector)) in H.
  vm_compute in H. discriminate.
Qed.

(** The theorem on patching twice, at that page. *)
Lemma patch_twice_is_patch_once_witness :
  (fs_lookup (path_str (html_path site))
     (files (snd (update_html_with_images demo_parse demo_prettify accept_writes
                    Generator.demo_localtime snapshot site false
                    (snd (update_html_with_images demo_parse demo_prettify
                            accept_writes Generator.demo_localtime snapshot site
                            false demo_site_world))))) =
   fs_lookup (path_str (html_path site))
     (files (snd (update_html_with_images demo_parse demo_prettify accept_writes
                    Generator.demo_localtime snapshot site false demo_site_world)))
   /\ forall r1,
        fst (update_html_with_images demo_parse demo_prettify accept_writes
               Generator.demo_localtime snapshot site false demo_site_world) =
        inr r1 ->
        exists r2,
          fst (update_html_with_images demo_parse demo_prettify accept_writes
                 Generator.demo_localtime snapshot site false
                 (snd (update_html_with_images demo_parse demo_prettify
                         accept_writes Generator.demo_localtime snapshot site
                         false demo_site_world))) = inr r2)
  /\ (forall p c key info image q src alt,
        In p (find_all card_selector (demo_parse demo_html)) ->
        subtree (demo_parse demo_html) p = Some c ->
        decide snapshot site c = Update key info image q src alt ->
        exists name attrs,
          subtree (soup_of demo_first) (p ++ q) =
          Some (Elem name attrs [new_img src alt]))
  /\ snd (add_persona_image_css accept_writes site false
            (snd (add_persona_image_css accept_writes site false demo_site_world))) =
     snd (add_persona_image_css accept_writes site false demo_site_world).
Proof.
  apply (patch_twice_is_patch_once demo_parse demo_prettify accept_writes
           Generator.demo_localtime snapshot site demo_site_world demo_html
           demo_first).
  - reflexivity.
  - vm_compute. reflexivity.
  - vm_compute. reflexivity.
  - vm_compute. reflexivity.
  - intros T HT. apply demo_prettify_norm. exact HT.
Defined.

(** What the two runs leave on disk. *)
Definition printed_once : option text :=
  fs_lookup (lit "/srv/site/index.html")
    (files (snd (update_html_with_images demo_parse demo_prettify accept_writes
                   Generator.demo_localtime snapshot site false
                   (mk_World [(lit "/srv/site/index.html", demo_prettify odd_page)]
                             0 [])))).

Definition printed_twice : option text :=
  fs_lookup (lit "/srv/site/index.html")
    (files (snd (update_html_with_images demo_parse demo_prettify accept_writes
                   Generator.demo_localtime snapshot site false
                   (snd (update_html_with_images demo_parse demo_prettify
                           accept_writes Generator.demo_localtime snapshot site
                           false
                           (mk_World [(lit "/srv/site/index.html",
                                       demo_prettify odd_page)] 0 [])))))).

(** C7, as the claim states it, fails.  The document holds a card whose
    first [h3], with the name "Emeka", sits inside the avatar, followed by a
    second [h3] with the name "Jake".  The first run reads the name "Emeka"
    and replaces the content of the avatar, name included, by the image of
    that persona; the second run then reads the name "Jake" and replaces the
    image by that of the other persona: the document after the second run is
    not the document after the first.  The page has one card only, so no card
    lies inside another; what fails is that the name lies inside the
    avatar. *)
Lemma second_patch_changes_document :
  all_diverge (find_all card_selector (demo_parse (demo_prettify odd_page))) = true
  /\ cards_well_formed (demo_parse (demo_prettify odd_page)) = false
  /\ printed_once =
    Some (demo_prettify
            (document [div (lit "persona-card")
                         [div (lit "persona-avatar") [emeka_img];
                          h3 [Text (lit "Jake")]]]))
  /\ printed_twice =
     Some (demo_prettify
             (document [div (lit "persona-card")
                          [div (lit "persona-avatar") [jake_img];
                           h3 [Text (lit "Jake")]]]))
  /\ match printed_once, printed_twice with
     | Some once, Some twice =>
         text_eqb once twice = false
         /\ contains (lit "Emeka - Estate Manager") once = true
         /\ contains (lit "Emeka - Estate Manager") twice = false
         /\ contains (lit "Jake - Reseller") twice = true
     | _, _ => False
     end.
Proof. vm_compute. repeat split; reflexivity. Qed.

(** A card inside the name element of another card: in each of the two cards
    the name and the avatar lie apart, and yet a second run changes the
    document.  The first run reads "Emeka" for the outer card in the text of
    the inner card's avatar, which the patch of the inner card then replaces
    by an image; the second run reads "Jake" for the outer card. *)
Definition nested_page : node :=
  document
    [ div (lit "persona-card")
        [ div (lit "persona-avatar") [];
          h3 [ Text (lit "hello");
               div (lit "persona-card")
                 [ h3 [Text (lit "Jake")];
                   div (lit "persona-avatar") [Text (lit "Emeka")] ] ] ] ].

Lemma nested_cards_break_idempotence :
  cards_well_formed (demo_parse (demo_prettify nested_page)) = false
  /\ forallb (fun p => match subtree (demo_parse (demo_prettify nested_page)) p with
                       | Some c => name_apart_from_avatar c
                       | None => true
                       end)
       (find_all card_selector (demo_parse (demo_prettify nested_page))) = true
  /\ all_diverge (find_all card_selector (demo_parse (demo_prettify nested_page))) =
     false
  /\ match
       fs_lookup (lit "/srv/site/index.html")
         (files (snd (update_html_with_images demo_parse demo_prettify accept_writes
                        Generator.demo_localtime snapshot site false
                        (mk_World [(lit "/srv/site/index.html",
                                    demo_prettify nested_page)] 0 [])))),
       fs_lookup (lit "/srv/site/index.html")
         (files (snd (update_html_with_images demo_parse demo_prettify accept_writes
                        Generator.demo_localtime snapshot site false
                        (snd (update_html_with_images demo_parse demo_prettify
                                accept_writes Generator.demo_localtime snapshot
                                site false
                                (mk_World [(lit "/srv/site/index.html",
                                            demo_prettify nested_page)] 0 []))))))
     with
     | Some once, Some twice =>
         text_eqb once twice = false
         /\ contains (lit "Emeka - Estate Manager") once = true
         /\ contains (lit "Emeka - Estate Manager") twice = false
     | _, _ => False
     end.
Proof. vm_compute. repeat split; reflexivity. Qed.

(** C6 at an image without a description.  The only avatar of the document
    holds an image whose file exists and which has no [alt] attribute: the
    issue "Missing alt text" is recorded, and the document is reported valid. *)
Theorem missing_alt_stays_valid :
  validate_soup every_file_exists
    (document
       [div (lit "persona-card")
          [div (lit "persona-avatar")
             [Elem (lit "img") [(lit "src", lit "ai_image_generation/generated_images/estate_inheritor_20251105_000003.png")] []];
           h3 [Text (lit "Emeka, 37")]]]) =
  mk_validation true
    [lit "Missing alt text for image: ai_image_generation/generated_images/estate_inheritor_20251105_000003.png"]
    [(lit "ai_image_generation/generated_images/estate_inheritor_20251105_000003.png", [])].
Proof. vm_compute. reflexivity. Qed.

(** A document that mentions the name only in a comment of its style
    section. *)
Definition commented_html : text :=
  lit "<style>/* .persona-image: todo */ .persona-avatar { width: 64px; }</style>".

Definition commented_world : World :=
  mk_World [(lit "/srv/site/index.html", commented_html)] 0 [].

(** The substring test at that document. *)
Lemma css_presence_is_substring_test_witness :
  (contains (lit ".persona-image") commented_html = true ->
   add_persona_image_css accept_writes site false commented_world =
   (inr true, commented_world))
  /\ (forall src alt,
        contains (lit ".persona-image") (get_attr (lit "class") (new_img src alt)) =
        false)
  /\ (contains (lit ".persona-image") commented_html = false ->
      accept_writes (path_str (html_path site)) = None ->
      forall k, search_avatar_rule 0 (read_text commented_html) = Some k ->
      fst (add_persona_image_css accept_writes site false commented_world) = inr true
      /\ fs_lookup (path_str (html_path site))
           (files (snd (add_persona_image_css accept_writes site false
                          commented_world))) =
         Some (firstn k (read_text commented_html) ++ persona_image_css ++
               skipn k (read_text commented_html))).
Proof.
  apply (css_presence_is_substring_test accept_writes site false commented_world
           commented_html).
  reflexivity.
Defined.

(** A page as a patch run leaves it, with the rule of the avatar in its style
    section and no rule for the image. *)
Definition patched_html : text :=
  lit "<style>.persona-avatar { width: 64px; }</style>" ++
  lit "<div class=" ++ dquote ++ lit "persona-avatar" ++ dquote ++ lit ">" ++
  lit "<img alt=" ++ dquote ++ lit "Emeka - Estate Manager" ++ dquote ++
  lit " class=" ++ dquote ++ lit "persona-image" ++ dquote ++
  lit " src=" ++ dquote ++
  lit "ai_image_generation/generated_images/estate_inheritor_20251105_000003.png" ++
  dquote ++ lit "/></div>".

Definition patched_world : World :=
  mk_World [(lit "/srv/site/index.html", patched_html)] 0 [].

(** C10, as the claim states it, fails.  The page holds an image whose class
    attribute a patch run wrote, and no style rule for it.  The text
    [.persona-image], dot included, does not occur in the page; the call
    returns true, and it has inserted the style rule after the rule of the
    avatar: the document is not as it was. *)
Lemma patched_page_gets_the_rule :
  contains (lit "class=" ++ dquote ++ lit "persona-image" ++ dquote) patched_html = true
  /\ contains (lit ".persona-image") patched_html = false
  /\ fst (add_persona_image_css accept_writes site false patched_world) = inr true
  /\ fs_lookup (lit "/srv/site/index.html")
       (files (snd (add_persona_image_css accept_writes site false patched_world))) =
     Some (lit "<style>.persona-avatar { width: 64px; }" ++ persona_image_css ++
           skipn 39 patched_html)
  /\ text_eqb
       (lit "<style>.persona-avatar { width: 64px; }" ++ persona_image_css ++
        skipn 39 patched_html)
       patched_html = false.
Proof. vm_compute. repeat split; reflexivity. Qed.

(** *** Further concrete runs *)

Definition demo_preview : soup_state :=
  match update_soup snapshot site true demo_page with
  | inr st => st
  | inl _ => mk_state [] [] empty_results
  end.

(** The newest image of the first persona in a directory of three images. *)
Lemma latest_image_is_newest_witness :
  match get_latest_image snapshot site (lit "estate_inheritor") with
  | Some image =>
      exists name mtime,
        image = images_dir site ++ [name]
        /\ In (name, mtime) snapshot
        /\ is_image_of (lit "estate_inheritor") name = true
        /\ forall name' mtime',
             In (name', mtime') snapshot ->
             is_image_of (lit "estate_inheritor") name' = true ->
             (mtime' <= mtime)%N
  | None =>
      forall name' mtime',
        In (name', mtime') snapshot -> is_image_of (lit "estate_inheritor") name' = false
  end.
Proof.
  apply (latest_image_is_newest snapshot site (lit "estate_inheritor")).
  vm_compute. left. reflexivity.
Defined.

(** A preview of the page of three cards. *)
Lemma dry_run_leaves_document_witness :
  trees demo_preview = [demo_page] /\ soup_of demo_preview = demo_page
  /\ updated_personas (res demo_preview) = [].
Proof.
  apply (dry_run_leaves_document snapshot site demo_page demo_preview).
  vm_compute. reflexivity.
Defined.

(** A world at second 75 that holds the document and the backup made of it
    at second 3. *)
Definition backed_up_world : World :=
  mk_World [(lit "/srv/site/index.html", lit "<p>new</p>");
            (lit "/srv/site/index.backup_20251104_000003.html", lit "<p>old</p>")]
           75 [].

(** A backup made at 00:01:15 leaves the backup of 00:00:03 as it was. *)
Lemma backup_keeps_earlier_backups_witness :
  fs_lookup (path_str (backup_path site (strftime_compact (Generator.demo_localtime 3))))
    (files (snd (create_backup accept_writes Generator.demo_localtime site
                   backed_up_world))) =
  fs_lookup (path_str (backup_path site (strftime_compact (Generator.demo_localtime 3))))
    (files backed_up_world).
Proof.
  apply (backup_keeps_earlier_backups accept_writes Generator.demo_localtime site
           backed_up_world (Generator.demo_localtime 3)).
  - vm_compute. reflexivity.
  - vm_compute. reflexivity.
  - vm_compute. discriminate.
Defined.

(** The patch of the page of three cards. *)
Lemma patch_changes_cards_only_witness :
  (forall x,
     (forall p, In p (find_all card_selector demo_page) -> diverge p x = true) ->
     subtree (soup_of demo_patched) x = subtree demo_page x)
  /\ (forall p c,
        In p (find_all card_selector demo_page) -> subtree demo_page p = Some c ->
        subtree (soup_of demo_patched) p = Some (patched snapshot site c))
  /\ find_all card_selector (soup_of demo_patched) = find_all card_selector demo_page.
Proof.
  apply (patch_changes_cards_only snapshot site demo_page demo_patched).
  - vm_compute. reflexivity.
  - vm_compute. reflexivity.
Defined.

(** A document whose lines end in a carriage return and a line feed. *)
Definition crlf_html : text :=
  lit "<style>" ++ [13; 10]%N ++ lit ".persona-avatar { width: 64px; }" ++
  [13; 10]%N ++ lit "</style>" ++ [13; 10]%N.

Definition crlf_world : World :=
  mk_World [(lit "/srv/site/index.html", crlf_html)] 0 [].

(** The style rule is inserted into that document. *)
Lemma css_is_inserted_after_the_avatar_rule_witness :
  exists k,
    search_avatar_rule 0 (read_text crlf_html) = Some k
    /\ nth_error (read_text crlf_html) (k - 1) = Some 125%N
    /\ contains (lit ".persona-avatar") (firstn k (read_text crlf_html)) = true
    /\ fs_lookup (path_str (html_path site))
         (files (snd (add_persona_image_css accept_writes site false crlf_world))) =
       Some (firstn k (read_text crlf_html) ++ persona_image_css ++
             skipn k (read_text crlf_html))
    /\ (forallb (fun c => negb (c =? 13)%N) crlf_html = true ->
        fs_lookup (path_str (html_path site))
          (files (snd (add_persona_image_css accept_writes site false crlf_world))) =
        Some (firstn k crlf_html ++ persona_image_css ++ skipn k crlf_html)).
Proof.
  apply (css_is_inserted_after_the_avatar_rule accept_writes site crlf_world crlf_html).
  - vm_compute. reflexivity.
  - vm_compute. reflexivity.
  - vm_compute. reflexivity.
Defined.

(** What reaches the disk for that document: every line end is a line feed. *)
Lemma crlf_document_is_rewritten :
  fs_lookup (lit "/srv/site/index.html")
    (files (snd (add_persona_image_css accept_writes site false crlf_world))) =
  Some (lit "<style>" ++ [10%N] ++ lit ".persona-avatar { width: 64px; }" ++
        persona_image_css ++ [10%N] ++ lit "</style>" ++ [10%N]).
Proof. vm_compute. reflexivity. Qed.

Definition no_file_exists (src : text) : bool := false.

(** An image with neither a file nor a description. *)
Definition bare_img : node :=
  Elem (lit "img") [(lit "src", lit "missing.png")] [].

Definition bare_page : node :=
  document [persona_card [bare_img] (lit "Emeka, 37")].

Lemma validation_lists_every_problem_witness :
  (no_file_exists (get_attr (lit "src") bare_img) = false ->
   In (lit "Image file not found: " ++ get_attr (lit "src") bare_img)
      (issues (validate_soup no_file_exists bare_page)))
  /\ (get_attr (lit "alt") bare_img = [] ->
      In (lit "Missing alt text for image: " ++ get_attr (lit "src") bare_img)
         (issues (validate_soup no_file_exists bare_page))).
Proof.
  apply (validation_lists_every_problem no_file_exists bare_page
           (div (lit "persona-avatar") [bare_img]) bare_img).
  - vm_compute. left. reflexivity.
  - vm_compute. reflexivity.
Defined.

(** What the patch of the page of three cards reports. *)
Lemma patch_results_are_sound_witness :
  (forall key, In key (missing_images (res demo_patched)) ->
     get_latest_image snapshot site key = None /\ In key (map fst PERSONA_MAPPING))
  /\ (forall u, In u (updated_personas (res demo_patched)) ->
        exists info image,
          In (up_persona_key u, info) PERSONA_MAPPING
          /\ up_name u = html_name info
          /\ get_latest_image snapshot site (up_persona_key u) = Some image
          /\ up_image_path u = last image [])
  /\ length (updated_personas (res demo_patched)) +
     length (missing_images (res demo_patched)) +
     length (errors (res demo_patched)) <= length (find_all card_selector demo_page).
Proof.
  apply (patch_results_are_sound snapshot site false demo_page demo_patched).
  vm_compute. reflexivity.
Defined.


End Patcher.
